(** * Link prediction on a heterogeneous graph: a shallow embedding

    This development embeds [examples/link_prediction_hetero/link_prediction_tensor.py]
    (argument parsing, the graph transformer [WN_transform], the [HeteroNet]
    model, the [train] and [test] loops and [main]) and proves properties of it.

    Conventions.
    - Python exceptions are values of [exn]; a computation that may raise
      returns a [result].
    - A Python [dict] is an association list in insertion order, and a
      [DataLoader] is the list of the batches that a pass over it yields.
    - A float is a rational, an infinity or a not-a-number: every finite
      IEEE value is a rational, and comparisons on them are exact.  The
      quotient of two integers is represented by the exact rational that the
      machine rounds; rounding is monotone, so bounds proved on the rational
      hold for the rounded value.
    - Library code (torch, numpy, networkx, deepsnap) is either modelled from
      its documented behaviour, where the behaviour is discrete, or taken as
      a parameter of a [Section], where it is numeric. *)

From Stdlib Require Import ZArith QArith Qabs List String Bool Lia.
From Stdlib Require Import Decimal DecimalString.
Import ListNotations.

Local Open Scope string_scope.
Local Open Scope list_scope.
Local Open Scope Z_scope.

(** ** Exceptions and results *)

Inductive exn : Type :=
| KeyError (key : string)
| IndexError
| AttributeError
| ZeroDivisionError
| UnboundLocalError
| ValueError
| RuntimeError
| Overflow.

Inductive result (A : Type) : Type :=
| Ok (a : A)
| Raise (e : exn).

Arguments Ok {A} a.
Arguments Raise {A} e.

Definition rbind {A B} (r : result A) (k : A -> result B) : result B :=
  match r with
  | Ok a => k a
  | Raise e => Raise e
  end.

Notation "x <~ c ;; k" := (rbind c (fun x => k))
  (at level 61, c at next level, right associativity).
Notation "' p <~ c ;; k" := (rbind c (fun x => match x with p => k end))
  (at level 61, p pattern, c at next level, right associativity).

(** ** Floats *)

Inductive float : Type :=
| Fin (q : Q)
| PosInf
| NegInf
| NaN.

Definition Qltb (a b : Q) : bool := (Qnum a * QDen b <? Qnum b * QDen a)%Z.
Definition Qleb (a b : Q) : bool := (Qnum a * QDen b <=? Qnum b * QDen a)%Z.

(** [a < b] on floats: false as soon as one side is not a number. *)
Definition float_lt (a b : float) : bool :=
  match a, b with
  | NaN, _ | _, NaN => false
  | Fin x, Fin y => Qltb x y
  | NegInf, NegInf => false
  | NegInf, _ => true
  | _, NegInf => false
  | PosInf, _ => false
  | Fin _, PosInf => true
  end.

(** [a <= b] on floats. *)
Definition float_le (a b : float) : bool :=
  match a, b with
  | NaN, _ | _, NaN => false
  | Fin x, Fin y => Qleb x y
  | NegInf, _ => true
  | _, PosInf => true
  | PosInf, _ => false
  | Fin _, NegInf => false
  end.

Definition half : float := Fin (1 # 2).

(** ** Integers: Python [int] and numpy [int64] *)

(** [acc = 0] is a Python integer; [acc += np.sum(...)] turns it into a
    numpy scalar, whose arithmetic wraps around at 64 bits and whose division
    by zero yields [nan] or [inf] with a warning instead of raising. *)
Inductive number : Type :=
| PyInt (z : Z)
| NpInt64 (z : Z).

Definition number_val (n : number) : Z :=
  match n with PyInt z | NpInt64 z => z end.

Definition wrap64 (z : Z) : Z := (z + 2 ^ 63) mod 2 ^ 64 - 2 ^ 63.

(** [acc + k] where [k] is a numpy [int64]: the result is a numpy [int64]. *)
Definition np_add (acc : number) (k : Z) : number :=
  NpInt64 (wrap64 (number_val acc + k)).

(** [acc / num] where [num] is a Python integer. *)
Definition true_div (acc : number) (num : Z) : result float :=
  match acc with
  | PyInt a =>
      if num =? 0 then Raise ZeroDivisionError
      else Ok (Fin (inject_Z a / inject_Z num))
  | NpInt64 a =>
      if num =? 0 then
        if a =? 0 then Ok NaN else if 0 <? a then Ok PosInf else Ok NegInf
      else Ok (Fin (inject_Z a / inject_Z num))
  end.

(** ** Dictionaries *)

Definition dict (V : Type) : Type := list (string * V).

Fixpoint dict_get {V} (d : dict V) (key : string) : result V :=
  match d with
  | [] => Raise (KeyError key)
  | (k, v) :: rest => if String.eqb k key then Ok v else dict_get rest key
  end.

(** [d[key] = v]: replaces in place when the key exists, appends otherwise. *)
Fixpoint dict_set {V} (d : dict V) (key : string) (v : V) : dict V :=
  match d with
  | [] => [(key, v)]
  | (k, w) :: rest =>
      if String.eqb k key then (k, v) :: rest else (k, w) :: dict_set rest key v
  end.

Definition keys {V} (d : dict V) : list string := map fst d.

(** ** Arrays: the numpy operations of the accuracy computation *)

(** [np.zeros_like(p, dtype=np.int64)] *)
Definition zeros_like {A} (p : list A) : list Z := map (fun _ => 0) p.

Fixpoint where_from (i : nat) (c : list bool) : list nat :=
  match c with
  | [] => []
  | b :: rest => if b then i :: where_from (S i) rest else where_from (S i) rest
  end.

(** [np.where(c)[0]]: the indices at which a one-dimensional mask holds. *)
Definition np_where (c : list bool) : list nat := where_from 0 c.

Fixpoint set_item (a : list Z) (i : nat) (v : Z) : list Z :=
  match a, i with
  | [], _ => []
  | _ :: rest, O => v :: rest
  | x :: rest, S j => x :: set_item rest j v
  end.

(** [a[idx] = v] for an index array [idx].  The indices come from [np.where]
    on an array of the same length, so they are always in range. *)
Definition put (a : list Z) (idx : list nat) (v : Z) : list Z :=
  fold_left (fun a i => set_item a i v) idx a.

(** Lines 141-143 and 188-190: the predicted labels of a probability array. *)
Definition predict_label (p : list float) : list Z :=
  let pred_label := zeros_like p in
  let pred_label := put pred_label (np_where (map (fun x => float_lt half x) p)) 1 in
  let pred_label := put pred_label (np_where (map (fun x => float_le x half) p)) 0 in
  pred_label.

(** [a == b] on one-dimensional arrays, with numpy's broadcasting of a
    length-one operand; shapes that do not broadcast are refused. *)
Definition np_equal (a b : list Z) : result (list bool) :=
  if Nat.eqb (List.length a) (List.length b) then Ok (map (fun xy => fst xy =? snd xy) (combine a b))
  else match a, b with
       | [x], _ => Ok (map (fun y => x =? y) b)
       | _, [y] => Ok (map (fun x => x =? y) a)
       | _, _ => Raise ValueError
       end.

(** [np.sum] of a boolean array: the number of [True] entries. *)
Definition np_sum (m : list bool) : Z :=
  fold_left (fun s (b : bool) => if b then s + 1 else s) m 0.

Definition len {A} (l : list A) : Z := Z.of_nat (List.length l).

(** Lines 139-145 and 186-192: the loop over the relation types of one
    prediction, which adds the matches to [acc] and the candidates to [num].
    [sigmoid] is torch's. *)
Fixpoint tally (sigmoid : float -> float) (pred : dict (list float))
    (edge_label : dict (list Z)) (acc : number) (num : Z) : result (number * Z) :=
  match pred with
  | [] => Ok (acc, num)
  | (key, score) :: rest =>
      let p := map sigmoid score in
      let pred_label := predict_label p in
      y <~ dict_get edge_label key ;;
      hits <~ np_equal pred_label y ;;
      tally sigmoid rest edge_label (np_add acc (np_sum hits)) (num + len pred_label)
  end.

(** ** Graphs *)

(** A [networkx.MultiDiGraph], as its node table and its edge table, each in
    iteration order.  An edge is identified by its end points and its key. *)
Record MultiDiGraph (N E : Type) : Type := {
  nodes : list (Z * N);
  edges : list ((Z * Z * Z) * E)
}.

Arguments nodes {N E} _.
Arguments edges {N E} _.

(** The value of an [e_label] attribute: a plain Python integer, or a
    zero-dimensional integer tensor. *)
Inductive scalar : Type :=
| PyInteger (z : Z)
| TensorInt (z : Z).

Definition scalar_val (l : scalar) : Z :=
  match l with PyInteger z | TensorInt z => z end.

Record raw_node : Type := { n_id : Z }.
Record raw_edge : Type := { id : Z; e_label : scalar }.

Record node_data : Type := { node_type : string; node_feature : list float }.
Record edge_data : Type := { edge_feature : list float; edge_type : string }.

Definition RawGraph : Type := MultiDiGraph raw_node raw_edge.

(** In the transformed graph a node that [add_edge] had to create carries no
    attribute ([None]). *)
Definition Graph : Type := MultiDiGraph (option node_data) edge_data.

Definition same_edge (a b : Z * Z * Z) : bool :=
  let '(u, v, k) := a in
  let '(u', v', k') := b in
  (u =? u') && (v =? v') && (k =? k').

Definition has_node {N E} (G : MultiDiGraph N E) (n : Z) : bool :=
  existsb (fun x => fst x =? n) (nodes G).

(** [G.nodes[n]] *)
Fixpoint node_lookup {N} (ns : list (Z * N)) (n : Z) : option N :=
  match ns with
  | [] => None
  | (m, a) :: rest => if m =? n then Some a else node_lookup rest n
  end.

(** [G[u][v][key]] *)
Fixpoint edge_lookup {E} (es : list ((Z * Z * Z) * E)) (e : Z * Z * Z) : option E :=
  match es with
  | [] => None
  | (e', a) :: rest => if same_edge e' e then Some a else edge_lookup rest e
  end.

(** The keys of the parallel edges from [u] to [v]. *)
Definition keydict {E} (es : list ((Z * Z * Z) * E)) (u v : Z) : list Z :=
  map (fun x => snd (fst x))
      (filter (fun x => (fst (fst (fst x)) =? u) && (snd (fst (fst x)) =? v)) es).

(** [str(z)] of a Python integer. *)
Definition str (z : Z) : string := NilZero.string_of_int (Z.to_int z).

Fixpoint fold_result {A S} (f : S -> A -> result S) (xs : list A) (s : S) : result S :=
  match xs with
  | [] => Ok s
  | x :: rest => s' <~ f s x ;; fold_result f rest s'
  end.

(** [H.add_node(n, **attr)] *)
Fixpoint set_node {N} (ns : list (Z * N)) (n : Z) (a : N) : list (Z * N) :=
  match ns with
  | [] => [(n, a)]
  | (m, b) :: rest => if m =? n then (m, a) :: rest else (m, b) :: set_node rest n a
  end.

Definition add_node (H : Graph) (n : Z) (a : node_data) : Graph :=
  {| nodes := set_node (nodes H) n (Some a); edges := edges H |}.

(** [while key in keydict: key += 1], which stops within [len(keydict)] rounds. *)
Fixpoint first_free (fuel : nat) (ks : list Z) (key : Z) : Z :=
  match fuel with
  | O => key
  | S fuel' => if existsb (Z.eqb key) ks then first_free fuel' ks (key + 1) else key
  end.

(** The number of keys at or above a bound: what the search for a free key
    consumes. *)
Definition above (ks : list Z) (key : Z) : nat :=
  List.length (filter (fun k => key <=? k) ks).

(** [H.new_edge_key(u, v)] *)
Definition new_edge_key (H : Graph) (u v : Z) : Z :=
  let ks := keydict (edges H) u v in
  first_free (List.length ks) ks (len ks).

Definition touch_node (ns : list (Z * option node_data)) (n : Z) : list (Z * option node_data) :=
  if existsb (fun x => fst x =? n) ns then ns else ns ++ [(n, None)].

Fixpoint set_edge {E} (es : list ((Z * Z * Z) * E)) (e : Z * Z * Z) (a : E)
    : list ((Z * Z * Z) * E) :=
  match es with
  | [] => [(e, a)]
  | (e', b) :: rest =>
      if same_edge e' e then (e', a) :: rest else (e', b) :: set_edge rest e a
  end.

(** [H.add_edge(u, v, **attr)] without a key: the end points are created when
    missing and the edge gets the first free key. *)
Definition add_edge (H : Graph) (u v : Z) (a : edge_data) : Graph :=
  let key := new_edge_key H u v in
  {| nodes := touch_node (touch_node (nodes H) u) v;
     edges := set_edge (edges H) (u, v, key) a |}.

(** [torch.ones(n)] and [torch.zeros(n)] *)
Definition torch_full (x : float) (n : Z) : result (list float) :=
  if n <? 0 then Raise RuntimeError else Ok (repeat x (Z.to_nat n)).

Fixpoint set_float (a : list float) (i : nat) (v : float) : list float :=
  match a, i with
  | [], _ => []
  | _ :: rest, O => v :: rest
  | x :: rest, S j => x :: set_float rest j v
  end.

(** [t[l] = v] for an index that is a machine integer: negative indices
    count from the end. *)
Definition tensor_setitem (t : list float) (l : Z) (v : float) : result (list float) :=
  let n := len t in
  if (- n <=? l) && (l <? n)
  then Ok (set_float t (Z.to_nat (if l <? 0 then l + n else l)) v)
  else Raise IndexError.

(** A Python integer that is a machine integer of 64 bits. *)
Definition fits_int64 (z : Z) : bool := (- 2 ^ 63 <=? z) && (z <? 2 ^ 63).

(** [t[l] = v] for a label.  The value of a tensor is the index.  A plain
    integer is first converted to a machine integer, and torch reports an
    overflow when it does not fit.  No tensor has 2^63 entries, so an index
    within the tensor always fits: the overflow can only show on an index
    outside of it, where the conversion is written here. *)
Definition setitem (t : list float) (l : scalar) (v : float) : result (list float) :=
  match tensor_setitem t (scalar_val l) v with
  | Ok t' => Ok t'
  | Raise e =>
      match l with
      | TensorInt _ => Raise e
      | PyInteger z => if fits_int64 z then Raise e else Raise Overflow
      end
  end.

(** [l.item()]: a plain integer has no such method. *)
Definition item (l : scalar) : result Z :=
  match l with
  | PyInteger _ => Raise AttributeError
  | TensorInt z => Ok z
  end.

(** Lines 66-69: the body of the edge loop. *)
Definition transform_edge (G : RawGraph) (num_edge_types : Z) (H : Graph)
    (e : Z * Z * Z) : result Graph :=
  let '(u, v, edge_key) := e in
  match edge_lookup (edges G) e with
  | None => Raise (KeyError (str edge_key))
  | Some a =>
      let l := e_label a in
      e_feat <~ torch_full (Fin 0) num_edge_types ;;
      e_feat <~ setitem e_feat l (Fin 1) ;;
      z <~ item l ;;
      Ok (add_edge H u v {| edge_feature := e_feat; edge_type := str z |})
  end.

(** Lines 61-70. *)
Definition WN_transform (G : RawGraph) (num_edge_types : Z) (input_dim : Z)
    : result Graph :=
  let H := {| nodes := []; edges := [] |} in
  H <~ fold_result (fun H node =>
         ones <~ torch_full (Fin 1) input_dim ;;
         Ok (add_node H node {| node_type := "n1"; node_feature := ones |}))
       (map fst (nodes G)) H ;;
  fold_result (transform_edge G num_edge_types) (map fst (edges G)) H.

Definition default_input_dim : Z := 5.

(** ** Command line *)

Record Args : Type := {
  device : string;
  data_path : string;
  epochs : Z;
  mode : string;
  model : string;
  edge_message_ratio : float;
  neg_sampling_ratio : float;
  hidden_dim : Z
}.

(** One occurrence of an option on the command line, after [argparse] has
    converted its value to the declared type. *)
Inductive cli_option : Type :=
| opt_device (s : string)
| opt_data_path (s : string)
| opt_epochs (z : Z)
| opt_mode (s : string)
| opt_model (s : string)
| opt_edge_message_ratio (x : float)
| opt_neg_sampling_ratio (x : float)
| opt_hidden_dim (z : Z).

(** Lines 48-57. *)
Definition defaults : Args :=
  {| device := "cuda:0";
     data_path := "data/WN18.gpickle";
     epochs := 500;
     mode := "disjoint";
     model := "MlpMessage";
     edge_message_ratio := Fin (8 # 10);
     neg_sampling_ratio := Fin 1;
     hidden_dim := 16 |}.

Definition store (a : Args) (o : cli_option) : Args :=
  match o with
  | opt_device s =>
      {| device := s; data_path := data_path a; epochs := epochs a; mode := mode a;
         model := model a; edge_message_ratio := edge_message_ratio a;
         neg_sampling_ratio := neg_sampling_ratio a; hidden_dim := hidden_dim a |}
  | opt_data_path s =>
      {| device := device a; data_path := s; epochs := epochs a; mode := mode a;
         model := model a; edge_message_ratio := edge_message_ratio a;
         neg_sampling_ratio := neg_sampling_ratio a; hidden_dim := hidden_dim a |}
  | opt_epochs z =>
      {| device := device a; data_path := data_path a; epochs := z; mode := mode a;
         model := model a; edge_message_ratio := edge_message_ratio a;
         neg_sampling_ratio := neg_sampling_ratio a; hidden_dim := hidden_dim a |}
  | opt_mode s =>
      {| device := device a; data_path := data_path a; epochs := epochs a; mode := s;
         model := model a; edge_message_ratio := edge_message_ratio a;
         neg_sampling_ratio := neg_sampling_ratio a; hidden_dim := hidden_dim a |}
  | opt_model s =>
      {| device := device a; data_path := data_path a; epochs := epochs a; mode := mode a;
         model := s; edge_message_ratio := edge_message_ratio a;
         neg_sampling_ratio := neg_sampling_ratio a; hidden_dim := hidden_dim a |}
  | opt_edge_message_ratio x =>
      {| device := device a; data_path := data_path a; epochs := epochs a; mode := mode a;
         model := model a; edge_message_ratio := x;
         neg_sampling_ratio := neg_sampling_ratio a; hidden_dim := hidden_dim a |}
  | opt_neg_sampling_ratio x =>
      {| device := device a; data_path := data_path a; epochs := epochs a; mode := mode a;
         model := model a; edge_message_ratio := edge_message_ratio a;
         neg_sampling_ratio := x; hidden_dim := hidden_dim a |}
  | opt_hidden_dim z =>
      {| device := device a; data_path := data_path a; epochs := epochs a; mode := mode a;
         model := model a; edge_message_ratio := edge_message_ratio a;
         neg_sampling_ratio := neg_sampling_ratio a; hidden_dim := z |}
  end.

(** Lines 29-58: the defaults, overridden by the options in their order. *)
Definition arg_parse (argv : list cli_option) : Args := fold_left store argv defaults.

(** [range(lo, hi)] *)
Definition range (lo hi : Z) : list Z :=
  map (fun i => lo + Z.of_nat i) (seq 0 (Z.to_nat (hi - lo))).

(** The options that the program parses and never reads again. *)
Definition unused (o : cli_option) : bool :=
  match o with
  | opt_model _ | opt_hidden_dim _ => true
  | _ => false
  end.

(** Two argument records that differ at most in [model] and [hidden_dim]. *)
Definition agree (a b : Args) : Prop :=
  device a = device b /\ data_path a = data_path b /\ epochs a = epochs b /\
  mode a = mode b /\ edge_message_ratio a = edge_message_ratio b /\
  neg_sampling_ratio a = neg_sampling_ratio b.

(** ** The libraries the script runs on *)

(** What the script takes from torch, deepsnap and the file system.  Nothing
    is assumed of these operations beyond their types. *)
Class Library : Type := {
  (** [deepsnap.batch.Batch] *)
  Batch : Type;
  (** [deepsnap.hetero_graph.HeteroGraph] *)
  Hetero : Type;
  (** a [HeteroConv] layer with its weights *)
  Conv : Type;
  (** the state of the Adam optimizer *)
  Optimizer : Type;
  (** the state of the global random generator *)
  Rng : Type;
  edge_label : Batch -> dict (list Z);
  (** per relation type, the candidate edges as (first, second) columns *)
  edge_label_index : Batch -> dict (list (Z * Z));
  (** [batch.to(device)] *)
  batch_to : string -> Batch -> result Batch;
  (** [torch.sigmoid] on one entry *)
  sigmoid : float -> float;
  (** [torch.nn.BCEWithLogitsLoss()] *)
  loss_fn : list float -> list float -> float;
  (** addition of two scalar tensors *)
  tensor_add : float -> float -> float;
  (** [y.type(dtype)] on one entry *)
  cast : Z -> float;
  (** [torch.sum(a * b, dim=-1)] on one row *)
  dot : list float -> list float -> float;
  (** lines 95-100 of [forward]: dropout, activation and convolution, twice;
      the arguments are the dropout rate, the training flag and the layers *)
  convolve : Q -> bool -> Conv -> Conv -> Batch -> Rng ->
             result (dict (list (list float))) * Rng;
  (** [loss.backward(); optimizer.step()]: the new weights and optimizer
      state, from the layers, the batch and the generator state of the
      forward pass *)
  backward_step : Optimizer -> Q -> Conv -> Conv -> Batch -> Rng ->
                  (Conv * Conv) * Optimizer;
  (** [generate_convs(hete, HeteroSAGEConv, hidden_size, task='link_pred')] *)
  generate_convs : Hetero -> Z -> Rng -> result (Conv * Conv) * Rng;
  node_types : Hetero -> list string;
  (** [module.to(device)] on a layer *)
  conv_to : string -> Conv -> result Conv;
  (** [torch.optim.Adam(params, lr, weight_decay)] *)
  Adam : Conv -> Conv -> Q -> Q -> Optimizer;
  (** [nx.read_gpickle(path)] *)
  read_gpickle : string -> result RawGraph;
  (** [HeteroGraph(H)] *)
  HeteroGraph_nx : Graph -> result Hetero;
  (** [HeteroGraph(edge_index=..., edge_feature=..., node_feature=..., directed=...)] *)
  HeteroGraph_tensors : Hetero -> result Hetero;
  (** [GraphDataset([hete], task='link_pred', edge_train_mode=mode)], its
      transductive 80/10/10 split and the batches that a pass over each of
      the three loaders of batch size 1 yields; the dataset is built without
      resampling, so every pass yields the same batches *)
  split_loaders : Hetero -> string -> Rng ->
                  result (list Batch * list Batch * list Batch) * Rng
}.

(** ** The program *)

Section Program.

Context {L : Library}.

(** A model object: lines 74-92.  The per-node-type dropout and activation
    modules are determined by the dropout rate and the node types. *)
Record HeteroNet : Type := {
  conv1 : Conv;
  conv2 : Conv;
  dropout : Q;
  module_keys : list string;
  training : bool
}.

(** Model objects are referred to by their address in the heap; [next] is
    the first address that no model object has been given yet.  The heap
    holds the model objects only, the ones that [train] aliases, copies and
    evaluates.  The optimizer is not in it: [zero_grad] and [step] change it
    in place, and its state is handed from one training step to the next in
    [TrainState].  Nor are the batches: [batch.to] yields the batch that the
    rest of the iteration works on. *)
Definition loc : Type := nat.

Record World : Type := {
  heap : loc -> HeteroNet;
  next : loc;
  rng : Rng
}.

(** What the program prints. *)
Inductive Line : Type :=
| LMode (m : string)
| LNumEdges (n : Z)
| LRawNode (a : raw_node)
| LRawEdges (es : list (Z * raw_edge))
| LNode (n : Z) (a : option node_data)
| LEdge (u v : Z) (a : edge_data)
| LLog (epoch : Z) (loss train_acc val_acc test_acc : float)
| LBest (train_acc val_acc test_acc : float).

(** What a run does that can be observed: the printed lines, the calls of
    [test] with the model and the names of the splits it was given, the deep
    copies of the model, and the constructions of a model with their hidden
    size and dropout rate. *)
Inductive Event : Type :=
| Print (l : Line)
| EvalCall (m : loc) (splits : list string)
| Snapshot (copy : loc)
| Construct (hidden_size : Z) (p : Q).

(** A computation reads and writes the world, may raise, and emits events. *)
Definition M (A : Type) : Type := World -> result A * World * list Event.

Definition ret {A} (a : A) : M A := fun w => (Ok a, w, []).

Definition bind {A B} (c : M A) (k : A -> M B) : M B :=
  fun w =>
    let '(r, w1, e1) := c w in
    match r with
    | Ok a => let '(r2, w2, e2) := k a w1 in (r2, w2, e1 ++ e2)
    | Raise e => (Raise e, w1, e1)
    end.

Definition lift {A} (r : result A) : M A := fun w => (r, w, []).

Definition emit (e : Event) : M unit := fun w => (Ok tt, w, [e]).

Notation "x <- c ;; k" := (bind c (fun x => k))
  (at level 61, c at next level, right associativity).
Notation "' p <- c ;; k" := (bind c (fun x => match x with p => k end))
  (at level 61, p pattern, c at next level, right associativity).
Notation "c ;;; k" := (bind c (fun _ => k))
  (at level 61, right associativity).

Fixpoint foldM {A S} (f : S -> A -> M S) (xs : list A) (s : S) : M S :=
  match xs with
  | [] => ret s
  | x :: rest => s' <- f s x ;; foldM f rest s'
  end.

Definition deref (m : loc) : M HeteroNet :=
  fun w => (Ok (heap w m), w, []).

Definition store_at (h : loc -> HeteroNet) (m : loc) (o : HeteroNet) : loc -> HeteroNet :=
  fun l => if Nat.eqb l m then o else h l.

Definition assign (m : loc) (o : HeteroNet) : M unit :=
  fun w => (Ok tt, {| heap := store_at (heap w) m o; next := next w; rng := rng w |}, []).

Definition alloc (o : HeteroNet) : M loc :=
  fun w => (Ok (next w),
            {| heap := store_at (heap w) (next w) o; next := S (next w); rng := rng w |},
            []).

(** [model.train()] and [model.eval()] *)
Definition set_training (m : loc) (flag : bool) : M unit :=
  o <- deref m ;;
  assign m {| conv1 := conv1 o; conv2 := conv2 o; dropout := dropout o;
              module_keys := module_keys o; training := flag |}.

(** [copy.deepcopy(model)] *)
Definition deepcopy (m : loc) : M loc :=
  o <- deref m ;;
  c <- alloc o ;;
  emit (Snapshot c) ;;;
  ret c.

(** [torch.index_select(x, 0, index)] for one index. *)
Definition index_select (x : list (list float)) (i : Z) : result (list float) :=
  if i <? 0 then Raise IndexError
  else match nth_error x (Z.to_nat i) with
       | Some row => Ok row
       | None => Raise IndexError
       end.

Fixpoint map_result {A B} (f : A -> result B) (xs : list A) : result (list B) :=
  match xs with
  | [] => Ok []
  | x :: rest => y <~ f x ;; ys <~ map_result f rest ;; Ok (y :: ys)
  end.

(** Lines 102-115: one score per candidate edge of every relation type. *)
Definition score_edges (x : dict (list (list float))) (index : dict (list (Z * Z)))
    : result (dict (list float)) :=
  fold_result (fun pred entry =>
      let '(message_type, columns) := entry in
      n1 <~ dict_get x "n1" ;;
      nodes_first <~ map_result (fun c => index_select n1 (fst c)) columns ;;
      nodes_second <~ map_result (fun c => index_select n1 (snd c)) columns ;;
      Ok (dict_set pred message_type
            (map (fun ab => dot (fst ab) (snd ab)) (combine nodes_first nodes_second))))
    index [].

(** Lines 94-115: [model(batch)]. *)
Definition forward (m : loc) (data : Batch) : M (dict (list float)) :=
  self <- deref m ;;
  x <- (fun w =>
          let '(r, g) := convolve (dropout self) (training self)
                                  (conv1 self) (conv2 self) data (rng w) in
          (r, {| heap := heap w; next := next w; rng := g |}, [])) ;;
  lift (score_edges x (edge_label_index data)).

(** The value of the local [loss]: the integer it starts from, or a tensor. *)
Inductive loss_value : Type :=
| LossInt (z : Z)
| LossTensor (x : float).

Definition loss_add (l : loss_value) (x : float) : loss_value :=
  match l with
  | LossInt z => LossTensor (tensor_add (Fin (inject_Z z)) x)
  | LossTensor y => LossTensor (tensor_add y x)
  end.

(** Lines 117-122.  The loss function refuses a target whose size is not the
    size of its input with a value error. *)
Definition loss (pred : dict (list float)) (y : dict (list Z)) : result loss_value :=
  fold_result (fun loss entry =>
      let '(key, score) := entry in
      let p := map sigmoid score in
      label <~ dict_get y key ;;
      if Nat.eqb (List.length label) (List.length p)
      then Ok (loss_add loss (loss_fn p (map cast label)))
      else Raise ValueError)
    pred (LossInt 0).

(** Lines 182-192: the loop over the batches of one split.  [num] is the
    local variable of [test], unbound ([None]) until its first assignment. *)
Definition test_batch (m : loc) (args : Args) (st : number * option Z) (batch : Batch)
    : M (number * option Z) :=
  let acc := fst st in
  let num := 0 in
  batch <- lift (batch_to (device args) batch) ;;
  pred <- forward m batch ;;
  '(acc, num) <- lift (tally sigmoid pred (edge_label batch) acc num) ;;
  ret (acc, Some num).

(** Lines 180-193: the loop over the splits. *)
Definition test_split (m : loc) (args : Args) (st : dict float * option Z)
    (entry : string * list Batch) : M (dict float * option Z) :=
  let '(accs, num) := st in
  let '(mode, dataloader) := entry in
  let acc := PyInt 0 in
  '(acc, num) <- foldM (test_batch m args) dataloader (acc, num) ;;
  match num with
  | None => lift (Raise UnboundLocalError)
  | Some n =>
      r <- lift (true_div acc n) ;;
      ret (dict_set accs mode r, num)
  end.

(** Lines 177-194. *)
Definition test (m : loc) (dataloaders : dict (list Batch)) (args : Args)
    : M (dict float) :=
  emit (EvalCall m (keys dataloaders)) ;;;
  set_training m false ;;;
  '(accs, _) <- foldM (test_split m args) dataloaders ([], None) ;;
  ret accs.

(** The locals of [train] that live across iterations. *)
Record TrainState : Type := {
  val_max : float;
  best_model : loc;
  optimizer : Optimizer;
  t_accu_sum : number;
  t_accu_cnt : Z
}.

(** Lines 168-170. *)
Definition keep_best (m : loc) (st : TrainState) (val_acc : float) : M TrainState :=
  if float_lt (val_max st) val_acc then
    copy <- deepcopy m ;;
    ret {| val_max := val_acc; best_model := copy; optimizer := optimizer st;
           t_accu_sum := t_accu_sum st; t_accu_cnt := t_accu_cnt st |}
  else ret st.

(** [loss.backward(); optimizer.step()] *)
Definition step (m : loc) (opt : Optimizer) (l : loss_value) (batch : Batch) (g : Rng)
    : M Optimizer :=
  match l with
  | LossInt _ => lift (Raise AttributeError)
  | LossTensor _ =>
      self <- deref m ;;
      let '((c1, c2), opt') :=
        backward_step opt (dropout self) (conv1 self) (conv2 self) batch g in
      assign m {| conv1 := c1; conv2 := c2; dropout := dropout self;
                  module_keys := module_keys self; training := training self |} ;;;
      ret opt'
  end.

Definition loss_item (l : loss_value) : float :=
  match l with
  | LossInt z => Fin (inject_Z z)
  | LossTensor x => x
  end.

(** Lines 135-170: the body of the loop over the training batches. *)
Definition train_batch (m : loc) (dataloaders : dict (list Batch)) (args : Args)
    (epoch : Z) (st : TrainState) (batch : Batch) : M TrainState :=
  batch <- lift (batch_to (device args) batch) ;;
  set_training m true ;;;
  g <- (fun w => (Ok (rng w), w, [])) ;;
  pred <- forward m batch ;;
  '(sum, cnt) <- lift (tally sigmoid pred (edge_label batch)
                         (t_accu_sum st) (t_accu_cnt st)) ;;
  l <- lift (loss pred (edge_label batch)) ;;
  opt <- step m (optimizer st) l batch g ;;
  accs <- test m (filter (fun kv => negb (String.eqb (fst kv) "train")) dataloaders) args ;;
  train_acc <- lift (true_div sum cnt) ;;
  let accs := dict_set accs "train" train_acc in
  train_acc <- lift (dict_get accs "train") ;;
  val_acc <- lift (dict_get accs "val") ;;
  test_acc <- lift (dict_get accs "test") ;;
  emit (Print (LLog epoch (loss_item l) train_acc val_acc test_acc)) ;;;
  keep_best m {| val_max := val_max st; best_model := best_model st; optimizer := opt;
                 t_accu_sum := sum; t_accu_cnt := cnt |} val_acc.

(** Lines 131-170: the body of the loop over the epochs. *)
Definition train_epoch (m : loc) (dataloaders : dict (list Batch)) (args : Args)
    (st : TrainState) (epoch : Z) : M TrainState :=
  let st := {| val_max := val_max st; best_model := best_model st;
               optimizer := optimizer st; t_accu_sum := PyInt 0; t_accu_cnt := 0 |} in
  batches <- lift (dict_get dataloaders "train") ;;
  foldM (train_batch m dataloaders args epoch) batches st.

(** Lines 125-174.  The lists [t_accu], [v_accu] and [e_accu] are only
    appended to and are left out. *)
Definition train (m : loc) (dataloaders : dict (list Batch)) (opt : Optimizer)
    (args : Args) : M unit :=
  let st := {| val_max := Fin 0; best_model := m; optimizer := opt;
               t_accu_sum := PyInt 0; t_accu_cnt := 0 |} in
  st <- foldM (train_epoch m dataloaders args) (range 1 (epochs args)) st ;;
  accs <- test (best_model st) dataloaders args ;;
  train_acc <- lift (dict_get accs "train") ;;
  val_acc <- lift (dict_get accs "val") ;;
  test_acc <- lift (dict_get accs "test") ;;
  emit (Print (LBest train_acc val_acc test_acc)).

(** Lines 209-216: the number of distinct edge labels. *)
Definition count_labels (G : RawGraph) : result Z :=
  labels <~ fold_result (fun labels e =>
      match edge_lookup (edges G) e with
      | None => Raise (KeyError (str (snd e)))
      | Some a =>
          let l := e_label a in
          if existsb (fun l' => scalar_val l' =? scalar_val l) labels
          then Ok labels else Ok (labels ++ [l])
      end)
    (map fst (edges G)) [] ;;
  Ok (len labels).

(** [G[u][v]]: the parallel edges from [u] to [v], by key. *)
Definition adjacency (G : RawGraph) (u v : Z) : result (list (Z * raw_edge)) :=
  if has_node G u then
    match filter (fun x => (fst (fst (fst x)) =? u) && (snd (fst (fst x)) =? v)) (edges G) with
    | [] => Raise (KeyError (str v))
    | es => Ok (map (fun x => (snd (fst x), snd x)) es)
    end
  else Raise (KeyError (str u)).

(** Lines 74-92: [HeteroNet(hete, hidden_size, dropout)]. *)
Definition HeteroNet_init (hete : Hetero) (hidden_size : Z) (p : Q) : M HeteroNet :=
  emit (Construct hidden_size p) ;;;
  '(c1, c2) <- (fun w =>
                  let '(r, g) := generate_convs hete hidden_size (rng w) in
                  (r, {| heap := heap w; next := next w; rng := g |}, [])) ;;
  ret {| conv1 := c1; conv2 := c2; dropout := p;
         module_keys := node_types hete; training := true |}.

(** [model.to(device)] *)
Definition HeteroNet_to (dev : string) (net : HeteroNet) : result HeteroNet :=
  c1 <~ conv_to dev (conv1 net) ;;
  c2 <~ conv_to dev (conv2 net) ;;
  Ok {| conv1 := c1; conv2 := c2; dropout := dropout net;
        module_keys := module_keys net; training := training net |}.

(** Lines 200-265: [main] once the arguments are parsed. *)
Definition run (args : Args) : M unit :=
  let edge_train_mode := mode args in
  emit (Print (LMode edge_train_mode)) ;;;
  G <- lift (read_gpickle (data_path args)) ;;
  emit (Print (LNumEdges (len (edges G)))) ;;;
  n0 <- lift (match node_lookup (nodes G) 0 with
              | Some a => Ok a
              | None => Raise (KeyError (str 0))
              end) ;;
  emit (Print (LRawNode n0)) ;;;
  e0 <- lift (adjacency G 0 5871) ;;
  emit (Print (LRawEdges e0)) ;;;
  num_edge_types <- lift (count_labels G) ;;
  H <- lift (WN_transform G num_edge_types default_input_dim) ;;
  match nodes H with
  | (n, a) :: _ => emit (Print (LNode n a))
  | [] => ret tt
  end ;;;
  match edges H with
  | ((u, v, _), a) :: _ => emit (Print (LEdge u v a))
  | [] => ret tt
  end ;;;
  hete <- lift (HeteroGraph_nx H) ;;
  hete <- lift (HeteroGraph_tensors hete) ;;
  '(train_loader, val_loader, test_loader) <-
    (fun w =>
       let '(r, g) := split_loaders hete edge_train_mode (rng w) in
       (r, {| heap := heap w; next := next w; rng := g |}, [])) ;;
  let dataloaders :=
    [("train", train_loader); ("val", val_loader); ("test", test_loader)] in
  let hidden_size := 32 in
  net <- HeteroNet_init hete hidden_size (2 # 10) ;;
  net <- lift (HeteroNet_to (device args) net) ;;
  m <- alloc net ;;
  let opt := Adam (conv1 net) (conv2 net) (1 # 1000) (5 # 10000) in
  train m dataloaders opt args.

(** Lines 197-265. *)
Definition main (argv : list cli_option) : M unit :=
  let args := arg_parse argv in
  run args.

End Program.

Notation "x <- c ;; k" := (bind c (fun x => k))
  (at level 61, c at next level, right associativity).
Notation "' p <- c ;; k" := (bind c (fun x => match x with p => k end))
  (at level 61, p pattern, c at next level, right associativity).
Notation "c ;;; k" := (bind c (fun _ => k))
  (at level 61, right associativity).

(** The larger of two accuracies; a not-a-number never wins. *)
Definition float_max (a b : float) : float := if float_lt a b then b else a.

(** The running maximum of the validation accuracies seen so far, from 0. *)
Definition running_max (seen : list float) : float := fold_left float_max seen (Fin 0).

(** A validation accuracy improves when it strictly exceeds the running
    maximum. *)
Definition improves (seen : list float) (v : float) : bool :=
  float_lt (running_max seen) v.

(** For each validation accuracy, whether the specification takes a copy. *)
Fixpoint expected_copies (seen vs : list float) : list (float * bool) :=
  match vs with
  | [] => []
  | v :: rest => (v, improves seen v) :: expected_copies (seen ++ [v]) rest
  end.

(** ** Reading a trace *)

Section Traces.

Context {L : Library}.

(** The result, the final world and the events of a run. *)
Definition outcome {A} (x : result A * World * list Event) : result A := fst (fst x).
Definition final {A} (x : result A * World * list Event) : World := snd (fst x).
Definition events {A} (x : result A * World * list Event) : list Event := snd x.

(** The schedule of a run: which model was evaluated on which splits, and
    which line was printed for which epoch. *)
Inductive Shape : Type :=
| SEval (m : loc) (splits : list string)
| SLog (epoch : Z)
| SBest.

Definition shape_of (e : Event) : list Shape :=
  match e with
  | EvalCall m splits => [SEval m splits]
  | Print (LLog epoch _ _ _ _) => [SLog epoch]
  | Print (LBest _ _ _) => [SBest]
  | _ => []
  end.

Definition shape (evs : list Event) : list Shape := flat_map shape_of evs.

(** The validation accuracies of the log lines, in order. *)
Definition logged_vals (evs : list Event) : list float :=
  flat_map (fun e => match e with
                     | Print (LLog _ _ _ va _) => [va]
                     | _ => []
                     end) evs.

(** Every logged validation accuracy, with whether a deep copy of the model
    is the event that follows its log line.  ([copy_counts] below counts the
    deep copies wherever they stand.) *)
Fixpoint snapshots (evs : list Event) : list (float * bool) :=
  match evs with
  | [] => []
  | Print (LLog _ _ _ va _) :: rest =>
      (va, match rest with Snapshot _ :: _ => true | _ => false end) :: snapshots rest
  | _ :: rest => snapshots rest
  end.

(** The events do not begin with a deep copy. *)
Definition clean (evs : list Event) : Prop :=
  match evs with
  | Snapshot _ :: _ => False
  | _ => True
  end.

(** The model that [best_model] names after the events: the latest deep
    copy, or the model it named before. *)
Definition last_snapshot (m : loc) (evs : list Event) : loc :=
  fold_left (fun b e => match e with Snapshot c => c | _ => b end) evs m.

Definition is_snapshot (e : Event) : bool :=
  match e with Snapshot _ => true | _ => false end.

(** What a run of a part of the training loop must satisfy, when it starts
    with [val_max] the running maximum of the accuracies [seen] and with
    [best_model] at [b]: a deep copy is taken exactly after the log lines
    whose accuracy improves on the accuracies before, nowhere else, and on
    return [val_max] is the running maximum and [best_model] the latest
    copy. *)
Definition tracked (seen : list float) (b : loc)
    (x : result TrainState * World * list Event) : Prop :=
  clean (events x) /\
  snapshots (events x) = expected_copies seen (logged_vals (events x)) /\
  List.length (filter is_snapshot (events x))
  = List.length (filter (fun f => snd f) (snapshots (events x))) /\
  forall st', outcome x = Ok st' ->
              val_max st' = running_max (seen ++ logged_vals (events x)) /\
              best_model st' = last_snapshot b (events x).


(** The number of deep copies among the events before their first log
    line. *)
Fixpoint copies_before_log (evs : list Event) : nat :=
  match evs with
  | [] => 0%nat
  | Snapshot _ :: rest => S (copies_before_log rest)
  | Print (LLog _ _ _ _ _) :: _ => 0%nat
  | _ :: rest => copies_before_log rest
  end.

(** Every logged validation accuracy, with the number of deep copies taken
    from its log line to the next log line, or to the end.  With the copies
    before the first log line these are all the deep copies of a run. *)
Fixpoint copy_counts (evs : list Event) : list (float * nat) :=
  match evs with
  | [] => []
  | Print (LLog _ _ _ va _) :: rest => (va, copies_before_log rest) :: copy_counts rest
  | _ :: rest => copy_counts rest
  end.

(** For each validation accuracy, the number of copies that the
    specification takes: one when it improves, none otherwise. *)
Definition expected_counts (seen vs : list float) : list (float * nat) :=
  map (fun f : float * bool => (fst f, if snd f then 1%nat else 0%nat))
      (expected_copies seen vs).

(** A run of a part of the training loop, started after the accuracies
    [seen], takes no copy before its first log line and after every log
    line the copies that the specification takes. *)
Definition counted {A} (seen : list float) (x : result A * World * list Event) : Prop :=
  copies_before_log (events x) = 0%nat /\
  copy_counts (events x) = expected_counts seen (logged_vals (events x)).

(** All the events of every run of [c] satisfy [P]. *)
Definition emits {A} (P : Event -> Prop) (c : M A) : Prop :=
  forall w, Forall P (events (c w)).

(** No run of [c] emits an event. *)
Definition silent {A} (c : M A) : Prop := emits (fun _ => False) c.

Definition prefix (a b : list Shape) : Prop := exists rest, b = a ++ rest.

(** Every run of [c] follows the schedule [g]: as far as it goes when it
    raises, to its end when it returns. *)
Definition follows {A} (c : M A) (g : list Shape) : Prop :=
  forall w,
    prefix (shape (events (c w))) g /\
    (forall a, outcome (c w) = Ok a -> shape (events (c w)) = g).

(** The events that are not the construction of a model of another hidden
    size than 32. *)
Definition hidden_32 (e : Event) : Prop :=
  forall h p, e = Construct h p -> h = 32.

End Traces.

(** ** Batches without candidate edges *)

(** A batch that reaches the model without any candidate edge: it moves to
    the device, every relation type of its label index has no candidate and
    no label, and its convolution yields the embeddings of the type ["n1"]. *)
Definition no_candidate {L : Library} (args : Args) (b : Batch) : Prop :=
  exists b',
    batch_to (device args) b = Ok b' /\
    Forall (fun kv => snd kv = [] /\ dict_get (edge_label b') (fst kv) = Ok [])
           (edge_label_index b') /\
    forall p t c1 c2 g,
      exists emb g' n1,
        convolve p t c1 c2 b' g = (Ok emb, g') /\ dict_get emb "n1" = Ok n1.

(** A batch whose label index has no relation type at all, or has one. *)
Definition no_relation {L : Library} (args : Args) (b : Batch) : Prop :=
  forall b', batch_to (device args) b = Ok b' -> edge_label_index b' = [].

Definition some_relation {L : Library} (args : Args) (b : Batch) : Prop :=
  forall b', batch_to (device args) b = Ok b' -> edge_label_index b' <> [].

(** ** The behaviour the specification describes *)

(** The number of candidate edges of a prediction, over its relation types. *)
Fixpoint candidates (pred : dict (list float)) : Z :=
  match pred with
  | [] => 0
  | (_, score) :: rest => len score + candidates rest
  end.

(** A prediction and the labels of its batch have the same shape: every
    relation type has one label per candidate edge. *)
Definition same_shape (pred : dict (list float)) (labels : dict (list Z)) : Prop :=
  Forall (fun kv => exists y, dict_get labels (fst kv) = Ok y /\
                              List.length y = List.length (snd kv)) pred.

(** The threshold rule: label 1 above one half, label 0 otherwise. *)
Definition threshold (p : float) : Z := if float_lt half p then 1 else 0.

(** A vector of width [n] is one-hot at [l]: its entry at index [l] is 1
    and every other entry is 0. *)
Definition is_one_hot (n l : Z) (t : list float) : Prop :=
  len t = n /\
  forall i, 0 <= i < n -> nth (Z.to_nat i) t NaN = if i =? l then Fin 1 else Fin 0.

(** What networkx guarantees of a graph it built: a node and an edge occur
    once, and the end points of an edge are nodes. *)
Definition well_formed (G : RawGraph) : Prop :=
  NoDup (map fst (nodes G)) /\
  NoDup (map fst (edges G)) /\
  forall u v k, In (u, v, k) (map fst (edges G)) ->
                In u (map fst (nodes G)) /\ In v (map fst (nodes G)).

Definition end_points (e : Z * Z * Z) : Z * Z := (fst (fst e), snd (fst e)).

(** The loss of one relation type: the loss function on the sigmoid of the
    scores and on the labels cast to floats. *)
Definition loss_term {L : Library} (y : dict (list Z)) (entry : string * list float)
    : float :=
  loss_fn (map sigmoid (snd entry))
          (map cast (match dict_get y (fst entry) with
                     | Ok label => label
                     | Raise _ => []
                     end)).

(** The sum of a list of tensors as Python's [sum] forms it: from a start
    value and from left to right, with the addition of tensors. *)
Fixpoint sum_from {L : Library} (start : float) (terms : list float) : float :=
  match terms with
  | [] => start
  | t :: rest => sum_from (tensor_add start t) rest
  end.

(** The sum, from 0, of the losses of the relation types. *)
Definition summed_loss {L : Library} (pred : dict (list float)) (y : dict (list Z))
    : float :=
  sum_from (Fin 0) (map (loss_term y) pred).

(** The sum of a list of rationals. *)
Definition Qsum (qs : list Q) : Q := fold_right Qplus 0%Q qs.

(** The addition of tensors is exact on the finite values. *)
Definition exact_addition {L : Library} : Prop :=
  forall a b, tensor_add (Fin a) (Fin b) = Fin (a + b).

(** ** A small instance of the libraries

    Enough of the libraries to run the program on small inputs: weights are
    a step counter, a batch carries the node embeddings its convolution
    yields at every step, and the sigmoid is a rational function with the
    same sign behaviour (one half at 0, above it for positive scores). *)

Module Toy.

Record batch : Type := {
  label : dict (list Z);
  index : dict (list (Z * Z));
  embedding : nat -> list (list float)
}.

Definition add (a b : float) : float :=
  match a, b with
  | Fin x, Fin y => Fin (x + y)
  | _, _ => NaN
  end.

Definition mul (a b : float) : float :=
  match a, b with
  | Fin x, Fin y => Fin (x * y)
  | _, _ => NaN
  end.

Definition squash (x : float) : float :=
  match x with
  | Fin q => Fin ((1 # 2) + q / (2 * (1 + Qabs q)))
  | PosInf => Fin 1
  | NegInf => Fin 0
  | NaN => NaN
  end.

Definition row_dot (a b : list float) : float :=
  fold_left (fun s ab => add s (mul (fst ab) (snd ab))) (combine a b) (Fin 0).

Definition absolute_error (p y : list float) : float :=
  fold_left (fun s py =>
               match fst py, snd py with
               | Fin a, Fin b => add s (Fin (Qabs (a - b)))
               | _, _ => NaN
               end) (combine p y) (Fin 0).

(** A graph with the node 0 and the edge from 0 to 5871 that [main] prints. *)
Definition graph : RawGraph :=
  {| nodes := [(0, {| n_id := 0 |}); (5871, {| n_id := 1 |}); (7, {| n_id := 2 |})];
     edges := [((0, 5871, 0), {| id := 0; e_label := TensorInt 1 |});
               ((0, 5871, 1), {| id := 1; e_label := TensorInt 0 |});
               ((7, 0, 0), {| id := 2; e_label := TensorInt 1 |})] |}.

(** A batch of one relation type ["0"] with the candidates (0, 1), (0, 2),
    ...: at step [t] the first [k t] of them score 1 and the others -1. *)
Definition mk_batch (labels : list Z) (k : nat -> nat) : batch :=
  let n := List.length labels in
  {| label := [("0", labels)];
     index := [("0", map (fun j => (0, Z.of_nat j)) (seq 1 n))];
     embedding := fun t =>
       [Fin 1] :: map (fun j => if (j <=? k t)%nat then [Fin 1] else [Fin (-1)])
                      (seq 1 n) |}.

Definition library : Library := {|
  Batch := batch;
  Hetero := Graph;
  Conv := nat;
  Optimizer := nat;
  Rng := nat;
  edge_label := label;
  edge_label_index := index;
  batch_to := fun _ b => Ok b;
  sigmoid := squash;
  loss_fn := absolute_error;
  tensor_add := add;
  cast := fun z => Fin (inject_Z z);
  dot := row_dot;
  convolve := fun _ _ c1 _ b g => (Ok [("n1", embedding b c1)], g);
  backward_step := fun opt _ c1 c2 _ _ => ((S c1, S c2), S opt);
  generate_convs := fun _ _ g => (Ok (O, O), g);
  node_types := fun _ => ["n1"];
  conv_to := fun _ c => Ok c;
  Adam := fun _ _ _ _ => O;
  read_gpickle := fun _ => Ok graph;
  HeteroGraph_nx := fun H => Ok H;
  HeteroGraph_tensors := fun h => Ok h;
  split_loaders := fun _ _ g =>
    (Ok ([mk_batch [1; 0] (fun _ => 1%nat)],
         [mk_batch [1; 1; 0] (fun _ => 2%nat)],
         [mk_batch [0; 1] (fun _ => 2%nat)]), g)
|}.

#[local] Existing Instance library.

Definition net : @HeteroNet library :=
  {| conv1 := O; conv2 := O; dropout := 2 # 10; module_keys := ["n1"]; training := true |}.

Definition world : @World library := {| heap := fun _ => net; next := 1%nat; rng := O |}.

Definition args (n : Z) : Args :=
  {| device := "cpu"; data_path := "data/WN18.gpickle"; epochs := n; mode := "disjoint";
     model := "MlpMessage"; edge_message_ratio := Fin (8 # 10);
     neg_sampling_ratio := Fin 1; hidden_dim := 16 |}.

(** Ten validation candidates, all true edges: 6 of them are predicted at
    steps 1 and 2 and 7 at step 3. *)
Definition val_batch : @Batch library :=
  mk_batch [1; 1; 1; 1; 1; 1; 1; 1; 1; 1] (fun t => if (t <=? 2)%nat then 6%nat else 7%nat).

Definition loaders : dict (list (@Batch library)) :=
  [("train", [mk_batch [1; 0] (fun _ => 1%nat)]);
   ("val", [val_batch]);
   ("test", [mk_batch [0; 1] (fun _ => 2%nat)])].

(** The same loaders with a validation split that is always predicted
    wrong: its accuracy is 0 at every step. *)
Definition loaders_flat : dict (list (@Batch library)) :=
  [("train", [mk_batch [1; 0] (fun _ => 1%nat)]);
   ("val", [mk_batch [0; 0] (fun _ => 2%nat)]);
   ("test", [mk_batch [0; 1] (fun _ => 2%nat)])].

(** A split of two batches, two candidates each, all predicted right. *)
Definition two_batches : dict (list (@Batch library)) :=
  [("val", [mk_batch [1; 1] (fun _ => 2%nat); mk_batch [1; 1] (fun _ => 2%nat)])].

(** A split of two batches, two candidates each: the first all right, the
    second all wrong. *)
Definition right_then_wrong : dict (list (@Batch library)) :=
  [("val", [mk_batch [1; 1] (fun _ => 2%nat); mk_batch [1; 1] (fun _ => 0%nat)])].

(** A batch whose only relation type has no candidate edge, and a split
    made of it. *)
Definition hollow : @Batch library := mk_batch [] (fun _ => 0%nat).

Definition hollow_split : dict (list (@Batch library)) := [("val", [hollow])].

(** A batch without any relation type. *)
Definition bare : @Batch library :=
  {| label := []; index := []; embedding := fun _ => [] |}.

End Toy.

#[global] Existing Instance Toy.library.

(** ** Further notions *)

(** A multigraph as networkx keeps one, whatever its attributes: a node and
    an edge occur once, and the end points of an edge are nodes. *)
Definition sound {N E} (G : MultiDiGraph N E) : Prop :=
  NoDup (map fst (nodes G)) /\
  NoDup (map fst (edges G)) /\
  forall e, In e (map fst (edges G)) ->
            In (fst (fst e)) (map fst (nodes G)) /\ In (snd (fst e)) (map fst (nodes G)).

(** The values of the edge labels of a graph, in the order of its edges. *)
Definition label_values (G : RawGraph) : list Z :=
  map (fun x => scalar_val (e_label (snd x))) (edges G).

(** A label that is accepted: a tensor from [-n] to [n - 1]. *)
Definition accepted (n : Z) (a : raw_edge) : Prop :=
  exists l, e_label a = TensorInt l /\ - n <= l < n.

(** A prediction has one score per candidate edge of every relation type of
    a label index, in the order of the index. *)
Definition scored (index : dict (list (Z * Z))) (pred : dict (list float)) : Prop :=
  Forall2 (fun ic ps => fst ic = fst ps /\ List.length (snd ps) = List.length (snd ic))
          index pred.

(** Both end points of a candidate edge are rows of the embedding matrix. *)
Definition in_range (n1 : list (list float)) (c : Z * Z) : Prop :=
  0 <= fst c < len n1 /\ 0 <= snd c < len n1.

(** The number of candidate edges of a label index, over its relation
    types. *)
Definition index_size (index : dict (list (Z * Z))) : Z :=
  fold_right (fun ic s => len (snd ic) + s) 0 index.

(** A batch as deepsnap builds one: a relation type occurs once in the label
    index, and has one label per candidate edge. *)
Definition aligned {L : Library} (b : Batch) : Prop :=
  NoDup (keys (edge_label_index b)) /\
  Forall (fun ic => exists y, dict_get (edge_label b) (fst ic) = Ok y /\
                              List.length y = List.length (snd ic))
         (edge_label_index b).

(** The number of candidate edges of a batch once it is on the device. *)
Definition batch_size {L : Library} (args : Args) (b : Batch) : Z :=
  match batch_to (device args) b with
  | Ok b' => index_size (edge_label_index b')
  | Raise _ => 0
  end.

(** A batch that reaches the device aligned and with a candidate edge. *)
Definition countable {L : Library} (args : Args) (b : Batch) : Prop :=
  exists b', batch_to (device args) b = Ok b' /\ aligned b' /\
             0 < index_size (edge_label_index b').

(** An accuracy that is a ratio: a number from 0 to 1. *)
Definition ratio (x : float) : Prop := exists q, x = Fin q /\ (0 <= q <= 1)%Q.

(** The number of candidate edges of the batches of an epoch. *)
Definition epoch_size {L : Library} (args : Args) (batches : list Batch) : Z :=
  fold_right (fun b s => batch_size args b + s) 0 batches.

(** An event that is not a log line, or a log line whose training accuracy
    is a ratio. *)
Definition train_ratio (e : Event) : Prop :=
  forall epoch l tr va te, e = Print (LLog epoch l tr va te) -> ratio tr.

Section Notions.

Context {L : Library}.

(** The body of the loop of lines 102-115 once the embeddings are found. *)
Definition score_type (n1 : list (list float)) (pred : dict (list float))
    (entry : string * list (Z * Z)) : result (dict (list float)) :=
  nodes_first <~ map_result (fun c => index_select n1 (fst c)) (snd entry) ;;
  nodes_second <~ map_result (fun c => index_select n1 (snd c)) (snd entry) ;;
  Ok (dict_set pred (fst entry)
        (map (fun ab => dot (fst ab) (snd ab)) (combine nodes_first nodes_second))).

(** A model object switched to training or to evaluation mode. *)
Definition in_mode (flag : bool) (o : HeteroNet) : HeteroNet :=
  {| conv1 := conv1 o; conv2 := conv2 o; dropout := dropout o;
     module_keys := module_keys o; training := flag |}.

(** No run of [c] changes or creates an object. *)
Definition keeps_heap {A} (c : M A) : Prop :=
  forall w, heap (final (c w)) = heap w /\ next (final (c w)) = next w.

(** No run of [c] changes an object that exists already, except the one at
    [m]; it may create objects. *)
Definition frames {A} (m : loc) (c : M A) : Prop :=
  forall w,
    (next w <= next (final (c w)))%nat /\
    forall l, l <> m -> (l < next w)%nat -> heap (final (c w)) l = heap w l.

(** When [c] returns, the best model is [b] still or an object that [c]
    created. *)
Definition settles (b : loc) (c : M TrainState) : Prop :=
  forall w st',
    outcome (c w) = Ok st' ->
    best_model st' = b \/ (next w <= best_model st' < next (final (c w)))%nat.

(** When [c] returns, the best model is [b] still or an object that [c]
    created and that equals the object at [m], mode and weights, when [c]
    ends. *)
Definition checkpoints (m b : loc) (c : M TrainState) : Prop :=
  forall w st',
    outcome (c w) = Ok st' ->
    best_model st' = b \/
    ((next w <= best_model st' < next (final (c w)))%nat /\
     heap (final (c w)) (best_model st') = heap (final (c w)) m).

(** The addresses of the deep copies among the events, in their order. *)
Definition copies (evs : list Event) : list loc :=
  flat_map (fun e => match e with Snapshot c => [c] | _ => [] end) evs.

(** The model objects that a run of [c] creates are its deep copies and
    nothing else: the copies take the addresses from [next] on, one after
    the other, and no other address is given out. *)
Definition allocates {A} (c : M A) : Prop :=
  forall w, exists n, copies (events (c w)) = seq (next w) n /\
                      next (final (c w)) = (next w + n)%nat.

(** Two worlds with the same object at [m], the same addresses in use and
    the same state of the random generator. *)
Definition same_at (m : loc) (w1 w2 : World) : Prop :=
  heap w1 m = heap w2 m /\ next w1 = next w2 /\ rng w1 = rng w2.

(** Two such worlds, except that the object at [m] may be in training mode
    in one and in evaluation mode in the other. *)
Definition same_but_mode (m : loc) (w1 w2 : World) : Prop :=
  in_mode false (heap w1 m) = in_mode false (heap w2 m) /\
  next w1 = next w2 /\ rng w1 = rng w2.

(** What [c] returns and emits depends on the world through the object at
    [m], the addresses in use and the random generator only, and so does the
    world it leaves. *)
Definition respects {A} (m : loc) (c : M A) : Prop :=
  forall w1 w2,
    same_at m w1 w2 ->
    outcome (c w1) = outcome (c w2) /\ events (c w1) = events (c w2) /\
    same_at m (final (c w1)) (final (c w2)).

(** An event that is not an evaluation, or the evaluation on the
    validation and test splits, or the evaluation on all three splits. *)
Definition known_splits (e : Event) : Prop :=
  forall b splits, e = EvalCall b splits ->
                   splits = ["val"; "test"] \/ splits = ["train"; "val"; "test"].

End Notions.

(** More inputs for the small instance. *)
Module Sample.

(** The small instance reading a given graph from the file. *)
Definition reading (G : RawGraph) : Library := {|
  Batch := Toy.batch;
  Hetero := Graph;
  Conv := nat;
  Optimizer := nat;
  Rng := nat;
  edge_label := Toy.label;
  edge_label_index := Toy.index;
  batch_to := fun _ b => Ok b;
  sigmoid := Toy.squash;
  loss_fn := Toy.absolute_error;
  tensor_add := Toy.add;
  cast := fun z => Fin (inject_Z z);
  dot := Toy.row_dot;
  convolve := fun _ _ c1 _ b g => (Ok [("n1", Toy.embedding b c1)], g);
  backward_step := fun opt _ c1 c2 _ _ => ((S c1, S c2), S opt);
  generate_convs := fun _ _ g => (Ok (O, O), g);
  node_types := fun _ => ["n1"];
  conv_to := fun _ c => Ok c;
  Adam := fun _ _ _ _ => O;
  read_gpickle := fun _ => Ok G;
  HeteroGraph_nx := fun H => Ok H;
  HeteroGraph_tensors := fun h => Ok h;
  split_loaders := fun _ _ g =>
    (Ok ([Toy.mk_batch [1; 0] (fun _ => 1%nat)],
         [Toy.mk_batch [1; 1; 0] (fun _ => 2%nat)],
         [Toy.mk_batch [0; 1] (fun _ => 2%nat)]), g)
|}.

(** A graph without the node 0. *)
Definition no_zero : RawGraph :=
  {| nodes := [(1, {| n_id := 0 |}); (2, {| n_id := 1 |})];
     edges := [((1, 2, 0), {| id := 0; e_label := TensorInt 0 |})] |}.

(** A graph with the node 0 and no edge from 0 to 5871. *)
Definition no_edge : RawGraph :=
  {| nodes := [(0, {| n_id := 0 |}); (2, {| n_id := 1 |})];
     edges := [((0, 2, 0), {| id := 0; e_label := TensorInt 0 |})] |}.

(** A graph whose labels count from the end: -1 and -2 among two types. *)
Definition from_the_end : RawGraph :=
  {| nodes := [(0, {| n_id := 0 |}); (1, {| n_id := 1 |})];
     edges := [((0, 1, 0), {| id := 0; e_label := TensorInt (-1) |});
               ((1, 0, 0), {| id := 1; e_label := TensorInt (-2) |})] |}.

(** A graph whose labels 0 and 2 leave a gap. *)
Definition gap : RawGraph :=
  {| nodes := [(0, {| n_id := 0 |}); (1, {| n_id := 1 |})];
     edges := [((0, 1, 0), {| id := 0; e_label := TensorInt 2 |});
               ((1, 0, 0), {| id := 1; e_label := TensorInt 0 |})] |}.

(** A graph whose second label is a plain integer beyond 64 bits. *)
Definition beyond : RawGraph :=
  {| nodes := [(0, {| n_id := 0 |}); (1, {| n_id := 1 |})];
     edges := [((0, 1, 0), {| id := 0; e_label := TensorInt 1 |});
               ((1, 0, 0), {| id := 1; e_label := PyInteger (2 ^ 63) |})] |}.

(** A batch whose second candidate names a node that has no embedding. *)
Definition out_of_range : @Batch Toy.library :=
  {| Toy.label := [("0", [1; 1])];
     Toy.index := [("0", [(0, 1); (0, 7)])];
     Toy.embedding := fun _ => [[Fin 1]; [Fin 1]] |}.

(** A batch of two relation types. *)
Definition two_types : @Batch Toy.library :=
  {| Toy.label := [("0", [1; 0]); ("1", [1])];
     Toy.index := [("0", [(0, 1); (1, 0)]); ("1", [(1, 1)])];
     Toy.embedding := fun _ => [[Fin 1]; [Fin (-1)]] |}.

(** A world of the instance that reads [G]. *)
Definition world_of (G : RawGraph) : @World (reading G) :=
  @Build_World (reading G)
    (fun _ => @Build_HeteroNet (reading G) O O (2 # 10) ["n1"] true) 1%nat O.

(** Scores of two relation types, and labels of three. *)
Definition scores : dict (list float) := [("0", [Fin 1; Fin (-1)]); ("1", [Fin 1])].

Definition truth : dict (list Z) := [("0", [1; 0]); ("1", [0]); ("2", [1])].

(** A batch of two candidates, both predicted right. *)
Definition all_right : @Batch Toy.library := Toy.mk_batch [1; 1] (fun _ => 2%nat).

(** The locals of [train] before its first epoch. *)
Definition start : @TrainState Toy.library :=
  {| val_max := Fin 0; best_model := 0%nat; optimizer := O;
     t_accu_sum := PyInt 0; t_accu_cnt := 0 |}.

End Sample.

(** * Properties *)

(** ** Floats and counters *)

Lemma Qltb_not_Qleb (a b : Q) : Qltb a b = true -> Qleb b a = false.
Proof.
  unfold Qltb, Qleb. intros H.
  apply Z.ltb_lt in H. apply Z.leb_gt. exact H.
Qed.

Lemma float_lt_not_le (a b : float) : float_lt a b = true -> float_le b a = false.
Proof.
  destruct a, b; simpl; try discriminate; try reflexivity.
  apply Qltb_not_Qleb.
Qed.


(** One half itself is not above one half. *)
Lemma threshold_half : threshold half = 0.
Proof. reflexivity. Qed.

(** ** The predicted labels *)

Lemma where_from_S (c : list bool) :
  forall i, where_from (S i) c = map S (where_from i c).
Proof.
  induction c as [|b c IH]; intros i; simpl.
  - reflexivity.
  - destruct b; simpl; now rewrite IH.
Qed.

Lemma put_map_S (idx : list nat) (v x : Z) :
  forall a, put (x :: a) (map S idx) v = x :: put a idx v.
Proof.
  unfold put. induction idx as [|i idx IH]; intros a; simpl.
  - reflexivity.
  - apply IH.
Qed.

Lemma put_where {A} (f : A -> bool) (g : A -> Z) (v : Z) (p : list A) :
  put (map g p) (np_where (map f p)) v = map (fun x => if f x then v else g x) p.
Proof.
  unfold np_where. induction p as [|x p IH]; simpl.
  - reflexivity.
  - rewrite where_from_S. destruct (f x).
    + change (put (g x :: map g p) (0%nat :: map S (where_from 0 (map f p))) v)
        with (put (v :: map g p) (map S (where_from 0 (map f p))) v).
      rewrite put_map_S. now rewrite IH.
    + rewrite put_map_S. now rewrite IH.
Qed.

(** The three array statements of lines 141-143 and 188-190 compute the
    threshold rule entry by entry: 1 above one half, 0 otherwise, so 0 at
    exactly one half and at a not-a-number. *)
Lemma predict_label_threshold (p : list float) : predict_label p = map threshold p.
Proof.
  unfold predict_label, zeros_like.
  rewrite (put_where (fun x => float_lt half x) (fun _ => 0) 1 p).
  rewrite (put_where (fun x => float_le x half)
             (fun x => if float_lt half x then 1 else 0) 0 p).
  apply map_ext. intros x. unfold threshold.
  destruct (float_lt half x) eqn:Hlt.
  - now rewrite (float_lt_not_le _ _ Hlt).
  - now destruct (float_le x half).
Qed.

Lemma predict_label_length (p : list float) :
  List.length (predict_label p) = List.length p.
Proof. rewrite predict_label_threshold. apply length_map. Qed.

(** ** The graph transformer *)

Lemma same_edge_true (a b : Z * Z * Z) : same_edge a b = true <-> a = b.
Proof.
  destruct a as [[u v] k], b as [[u' v'] k']. simpl.
  rewrite !andb_true_iff, !Z.eqb_eq. split.
  - intros [[-> ->] ->]. reflexivity.
  - intros H. injection H as -> -> ->. auto.
Qed.

Lemma same_edge_refl (a : Z * Z * Z) : same_edge a a = true.
Proof. now apply same_edge_true. Qed.

Lemma edge_lookup_In {E} (es : list ((Z * Z * Z) * E)) (e : Z * Z * Z) (a : E) :
  NoDup (map fst es) -> In (e, a) es -> edge_lookup es e = Some a.
Proof.
  induction es as [|[e' b] es IH]; simpl; intros Hnd Hin.
  - contradiction.
  - inversion Hnd as [|x l Hnotin Hnd']; subst.
    destruct Hin as [Heq | Hin].
    + injection Heq as -> ->. now rewrite same_edge_refl.
    + destruct (same_edge e' e) eqn:Hs.
      * apply same_edge_true in Hs. subst e'.
        exfalso. apply Hnotin. apply (in_map fst) in Hin. exact Hin.
      * now apply IH.
Qed.

Lemma set_node_fresh {N} (ns : list (Z * N)) (n : Z) (a : N) :
  ~ In n (map fst ns) -> set_node ns n a = ns ++ [(n, a)].
Proof.
  induction ns as [|[m b] ns IH]; simpl; intros Hn.
  - reflexivity.
  - destruct (m =? n) eqn:Hm.
    + apply Z.eqb_eq in Hm. exfalso. apply Hn. now left.
    + rewrite IH; [reflexivity | intros H; apply Hn; now right].
Qed.

Lemma touch_node_present (ns : list (Z * option node_data)) (n : Z) :
  In n (map fst ns) -> touch_node ns n = ns.
Proof.
  intros Hin. unfold touch_node.
  replace (existsb (fun x => fst x =? n) ns) with true; [reflexivity|].
  symmetry. apply existsb_exists.
  apply in_map_iff in Hin. destruct Hin as [x [Hx Hin]].
  exists x. split; [exact Hin | now apply Z.eqb_eq].
Qed.

Lemma above_step (ks : list Z) (key : Z) :
  existsb (Z.eqb key) ks = true -> (above ks (key + 1) < above ks key)%nat.
Proof.
  unfold above. induction ks as [|k ks IH]; simpl; intros H.
  - discriminate.
  - apply orb_true_iff in H. destruct H as [H | H].
    + apply Z.eqb_eq in H. subst k.
      replace (key + 1 <=? key) with false by (symmetry; apply Z.leb_gt; lia).
      replace (key <=? key) with true by (symmetry; apply Z.leb_le; lia).
      simpl. apply Nat.lt_succ_r.
      clear IH. induction ks as [|k ks IH]; simpl; [lia|].
      destruct (key + 1 <=? k) eqn:H1.
      * replace (key <=? k) with true by (symmetry; apply Z.leb_le; apply Z.leb_le in H1; lia).
        simpl. lia.
      * destruct (key <=? k); simpl; lia.
    + specialize (IH H).
      destruct (key + 1 <=? k) eqn:H1.
      * replace (key <=? k) with true by (symmetry; apply Z.leb_le; apply Z.leb_le in H1; lia).
        simpl. lia.
      * destruct (key <=? k); simpl; lia.
Qed.

(** The search for a free key ends on a key that is not taken. *)
Lemma first_free_fresh (fuel : nat) (ks : list Z) :
  forall key, (above ks key <= fuel)%nat ->
              existsb (Z.eqb (first_free fuel ks key)) ks = false.
Proof.
  induction fuel as [|fuel IH]; intros key Hle; simpl.
  - destruct (existsb (Z.eqb key) ks) eqn:H; [|reflexivity].
    apply above_step in H. lia.
  - destruct (existsb (Z.eqb key) ks) eqn:H; [|exact H].
    apply IH. apply above_step in H. lia.
Qed.

Lemma new_edge_key_fresh (H : Graph) (u v : Z) :
  existsb (Z.eqb (new_edge_key H u v)) (keydict (edges H) u v) = false.
Proof.
  unfold new_edge_key. apply first_free_fresh.
  unfold above. apply filter_length_le.
Qed.

Lemma set_edge_fresh {E} (es : list ((Z * Z * Z) * E)) (u v k : Z) (a : E) :
  existsb (Z.eqb k) (keydict es u v) = false ->
  set_edge es (u, v, k) a = es ++ [((u, v, k), a)].
Proof.
  unfold keydict. induction es as [|[[[u' v'] k'] b] es IH]; simpl; intros Hk.
  - reflexivity.
  - destruct (u' =? u) eqn:Hu; destruct (v' =? v) eqn:Hv; simpl in *;
      try (rewrite IH by exact Hk; reflexivity).
    apply orb_false_iff in Hk. destruct Hk as [Hk Hrest].
    rewrite Z.eqb_sym in Hk. rewrite Hk.
    now rewrite IH.
Qed.

Lemma add_edge_append (H : Graph) (u v : Z) (a : edge_data) :
  In u (map fst (nodes H)) -> In v (map fst (nodes H)) ->
  exists k, add_edge H u v a =
            {| nodes := nodes H; edges := edges H ++ [((u, v, k), a)] |}.
Proof.
  intros Hu Hv. exists (new_edge_key H u v). unfold add_edge.
  rewrite (touch_node_present _ u Hu), (touch_node_present _ v Hv).
  now rewrite (set_edge_fresh _ _ _ _ _ (new_edge_key_fresh H u v)).
Qed.

Lemma torch_full_ok (x : float) (n : Z) :
  0 <= n -> torch_full x n = Ok (repeat x (Z.to_nat n)).
Proof.
  intros Hn. unfold torch_full.
  now replace (n <? 0) with false by (symmetry; apply Z.ltb_ge; lia).
Qed.

Lemma length_set_float (a : list float) (v : float) :
  forall i, List.length (set_float a i v) = List.length a.
Proof.
  induction a as [|x a IH]; intros [|i]; simpl; auto.
Qed.

Lemma nth_set_float (a : list float) (v d : float) :
  forall i j, (i < List.length a)%nat ->
              nth j (set_float a i v) d = if Nat.eqb j i then v else nth j a d.
Proof.
  induction a as [|x a IH]; intros [|i] [|j] Hi; simpl in *; try lia; auto.
  apply IH. lia.
Qed.

Lemma nth_repeat_lt {A} (x d : A) (n i : nat) : (i < n)%nat -> nth i (repeat x n) d = x.
Proof.
  revert i. induction n as [|n IH]; intros [|i] Hi; simpl; try lia; auto.
  apply IH. lia.
Qed.

(** Lines 67-68 on a label within range build the one-hot vector. *)
Lemma one_hot_built (n l : Z) :
  0 <= l < n ->
  exists t, (e_feat <~ torch_full (Fin 0) n ;; tensor_setitem e_feat l (Fin 1)) = Ok t
            /\ is_one_hot n l t.
Proof.
  intros Hl. rewrite torch_full_ok by lia. simpl.
  unfold tensor_setitem, len. rewrite repeat_length, Z2Nat.id by lia.
  replace ((- n <=? l) && (l <? n)) with true
    by (symmetry; apply andb_true_iff; split; [apply Z.leb_le | apply Z.ltb_lt]; lia).
  replace (l <? 0) with false by (symmetry; apply Z.ltb_ge; lia).
  eexists. split; [reflexivity|].
  split.
  - unfold len. rewrite length_set_float, repeat_length. lia.
  - intros i Hi. rewrite nth_set_float by (rewrite repeat_length; lia).
    destruct (i =? l) eqn:Heq.
    + apply Z.eqb_eq in Heq. subst. now rewrite Nat.eqb_refl.
    + apply Z.eqb_neq in Heq.
      replace (Nat.eqb (Z.to_nat i) (Z.to_nat l)) with false
        by (symmetry; apply Nat.eqb_neq; lia).
      apply nth_repeat_lt. lia.
Qed.

(** The node loop of lines 63-64 copies the nodes in their order. *)
Lemma node_loop (d : node_data) (ids : list Z) :
  forall H : Graph,
    NoDup (map fst (nodes H) ++ ids) ->
    fold_result (fun H node => Ok (add_node H node d)) ids H
    = Ok {| nodes := nodes H ++ map (fun n => (n, Some d)) ids; edges := edges H |}.
Proof.
  induction ids as [|n ids IH]; intros H Hnd.
  - simpl. rewrite app_nil_r. now destruct H.
  - cbn [fold_result rbind]. rewrite IH.
    + unfold add_node. cbn [nodes edges]. rewrite set_node_fresh.
      * rewrite <- app_assoc. reflexivity.
      * apply NoDup_remove_2 in Hnd. intros Hin. apply Hnd.
        apply in_or_app. now left.
    + unfold add_node. cbn [nodes edges]. rewrite set_node_fresh.
      * rewrite map_app. simpl. rewrite <- app_assoc. exact Hnd.
      * apply NoDup_remove_2 in Hnd. intros Hin. apply Hnd.
        apply in_or_app. now left.
Qed.

Lemma node_loop_total (d : node_data) (ids : list Z) :
  forall H : Graph,
    exists H', fold_result (fun H node => Ok (add_node H node d)) ids H = Ok H'.
Proof.
  induction ids as [|n ids IH]; intros H; simpl.
  - now exists H.
  - apply IH.
Qed.

Lemma fold_result_ok_each {A S} (f : S -> A -> result S) (xs : list A) :
  forall s s', fold_result f xs s = Ok s' ->
               forall x, In x xs -> exists s1 s2, f s1 x = Ok s2.
Proof.
  induction xs as [|y xs IH]; intros s s' Hok x Hin; simpl in *.
  - contradiction.
  - destruct (f s y) as [s1|e] eqn:Hf; simpl in Hok; [|discriminate].
    destruct Hin as [-> | Hin].
    + now exists s, s1.
    + eapply IH; eauto.
Qed.

(** The edge loop of lines 65-69 on edges whose labels are tensors within
    range: every edge is appended with its end points, its one-hot feature
    and its stringified label, and the nodes stay. *)
Lemma edge_loop (G : RawGraph) (n : Z) (es : list ((Z * Z * Z) * raw_edge)) :
  forall H : Graph,
    (forall e a, In (e, a) es ->
       edge_lookup (edges G) e = Some a /\
       In (fst (fst e)) (map fst (nodes H)) /\ In (snd (fst e)) (map fst (nodes H)) /\
       exists l, e_label a = TensorInt l /\ 0 <= l < n) ->
    exists new,
      fold_result (transform_edge G n) (map fst es) H
      = Ok {| nodes := nodes H; edges := edges H ++ new |} /\
      Forall2 (fun eG eH =>
                 end_points (fst eG) = end_points (fst eH) /\
                 is_one_hot n (scalar_val (e_label (snd eG))) (edge_feature (snd eH)) /\
                 edge_type (snd eH) = str (scalar_val (e_label (snd eG))))
              es new.
Proof.
  induction es as [|[[[u v] k] a] es IH]; intros H Hall.
  - exists []. simpl. rewrite app_nil_r. split; [now destruct H | constructor].
  - destruct (Hall (u, v, k) a (or_introl eq_refl)) as [Hlk [Hu [Hv [l [Hl Hrange]]]]].
    simpl in Hu, Hv.
    destruct (one_hot_built n l Hrange) as [t [Ht Hhot]].
    destruct (add_edge_append H u v {| edge_feature := t; edge_type := str l |} Hu Hv)
      as [k' Hadd].
    assert (Hstep : transform_edge G n H (u, v, k)
                    = Ok {| nodes := nodes H;
                            edges := edges H ++ [((u, v, k'),
                                       {| edge_feature := t; edge_type := str l |})] |}).
    { unfold transform_edge, setitem. rewrite Hlk, Hl. cbn [scalar_val item].
      destruct (torch_full (Fin 0) n) as [z|e]; cbn [rbind] in Ht |- *; [|discriminate].
      rewrite Ht. cbn [rbind]. now rewrite Hadd. }
    cbn [map fst fold_result]. rewrite Hstep. cbn [rbind].
    destruct (IH {| nodes := nodes H;
                    edges := edges H ++ [((u, v, k'),
                               {| edge_feature := t; edge_type := str l |})] |})
      as [new [Hfold Hrel]].
    { intros e b Hin. apply Hall. now right. }
    exists (((u, v, k'), {| edge_feature := t; edge_type := str l |}) :: new).
    split.
    + rewrite Hfold. cbn [nodes edges]. now rewrite <- app_assoc.
    + constructor; [|exact Hrel].
      cbn [fst snd edge_feature edge_type]. rewrite Hl. cbn [scalar_val].
      repeat split; try exact (proj1 Hhot); try exact (proj2 Hhot).
Qed.

(** C4.  On a graph as networkx builds it, whose edge labels are tensors
    from 0 to [num_edge_types - 1], [WN_transform] returns a graph with the same
    nodes in the same order, every node typed ["n1"] with an all-ones
    feature, and with one edge per edge of the input, in the same order and
    with the same end points: its feature has width [num_edge_types], with a
    1 at the index of the label and 0 elsewhere, and its type is the string
    of the label. *)
Theorem WN_transform_one_hot (G : RawGraph) (num_edge_types input_dim : Z) :
  well_formed G ->
  0 <= input_dim ->
  (forall e a, In (e, a) (edges G) ->
     exists l, e_label a = TensorInt l /\ 0 <= l < num_edge_types) ->
  exists H,
    WN_transform G num_edge_types input_dim = Ok H /\
    nodes H = map (fun n => (n, Some {| node_type := "n1";
                                        node_feature := repeat (Fin 1) (Z.to_nat input_dim) |}))
                  (map fst (nodes G)) /\
    Forall2 (fun eG eH =>
               end_points (fst eG) = end_points (fst eH) /\
               is_one_hot num_edge_types (scalar_val (e_label (snd eG)))
                          (edge_feature (snd eH)) /\
               edge_type (snd eH) = str (scalar_val (e_label (snd eG))))
            (edges G) (edges H).
Proof.
  intros [Hnodes [Hedges Hends]] Hdim Hlabels.
  unfold WN_transform. rewrite torch_full_ok by exact Hdim. cbn [rbind].
  rewrite node_loop by exact Hnodes. cbn [rbind nodes edges app].
  match goal with |- context [fold_result _ _ ?H] => set (H0 := H) end.
  destruct (edge_loop G num_edge_types (edges G) H0) as [new [Hfold Hrel]].
  - intros [[u v] k] a Hin.
    assert (Hid : In (u, v, k) (map fst (edges G))) by (apply (in_map fst) in Hin; exact Hin).
    destruct (Hends u v k Hid) as [Hu Hv].
    split; [now apply edge_lookup_In|].
    assert (Hn : map fst (nodes H0) = map fst (nodes G)).
    { subst H0. simpl. rewrite !map_map. now apply map_ext. }
    cbn [fst snd]. rewrite Hn.
    split; [exact Hu|]. split; [exact Hv|]. exact (Hlabels _ _ Hin).
  - eexists. split; [exact Hfold|]. split; [reflexivity | exact Hrel].
Qed.

(** C4 holds of the small graph: three nodes and three edges labelled 1, 0
    and 1 among two edge types. *)
Lemma WN_transform_one_hot_witness :
  exists H,
    WN_transform Toy.graph 2 5 = Ok H /\
    nodes H = map (fun n => (n, Some {| node_type := "n1";
                                        node_feature := repeat (Fin 1) (Z.to_nat 5) |}))
                  (map fst (nodes Toy.graph)) /\
    Forall2 (fun eG eH =>
               end_points (fst eG) = end_points (fst eH) /\
               is_one_hot 2 (scalar_val (e_label (snd eG))) (edge_feature (snd eH)) /\
               edge_type (snd eH) = str (scalar_val (e_label (snd eG))))
            (edges Toy.graph) (edges H).
Proof.
  apply (WN_transform_one_hot Toy.graph 2 5).
  - unfold well_formed. split; [|split].
    + simpl. repeat constructor; simpl; intuition discriminate.
    + simpl. repeat constructor; simpl; intuition discriminate.
    + simpl. intros u v k [H | [H | [H | []]]]; injection H as <- <- <-; tauto.
  - lia.
  - simpl. intros e a [H | [H | [H | []]]]; injection H as <- <-; simpl; eexists; split;
      try reflexivity; lia.
Defined.

(** The scenario of the specification: two edge labels, an edge labelled 1,
    and the feature [0, 1]. *)
Example WN_transform_scenario :
  option_map (fun H => map (fun e => edge_feature (snd e)) (edges H))
    (match WN_transform
             {| nodes := [(0, {| n_id := 0 |}); (1, {| n_id := 1 |})];
                edges := [((0, 1, 0), {| id := 0; e_label := TensorInt 1 |})] |} 2 5 with
     | Ok H => Some H
     | Raise _ => None
     end)
  = Some [[Fin 0; Fin 1]].
Proof. reflexivity. Qed.

(** C10.  [WN_transform] returns a graph only when the label of every edge
    is a tensor; on a plain integer the call of [item] raises an attribute
    error, so a graph whose labels are plain integers is never transformed
    once it has an edge, and the attribute error is what the call raises as
    soon as the first label is a valid index. *)
Theorem WN_transform_needs_item (G : RawGraph) (num_edge_types input_dim : Z) :
  (forall H, WN_transform G num_edge_types input_dim = Ok H ->
     forall e, In e (map fst (edges G)) ->
       exists a z, edge_lookup (edges G) e = Some a /\ e_label a = TensorInt z) /\
  (forall z, item (PyInteger z) = Raise AttributeError) /\
  ((forall e a, edge_lookup (edges G) e = Some a -> exists z, e_label a = PyInteger z) ->
   edges G <> [] ->
   forall H, WN_transform G num_edge_types input_dim <> Ok H) /\
  (forall e a rest z,
     edges G = (e, a) :: rest -> e_label a = PyInteger z ->
     0 <= input_dim -> - num_edge_types <= z < num_edge_types ->
     WN_transform G num_edge_types input_dim = Raise AttributeError).
Proof.
  assert (Hfirst : forall H, WN_transform G num_edge_types input_dim = Ok H ->
            forall e, In e (map fst (edges G)) ->
              exists a z, edge_lookup (edges G) e = Some a /\ e_label a = TensorInt z).
  { intros H Hok e Hin. unfold WN_transform in Hok.
    destruct (fold_result _ (map fst (nodes G)) _) as [H0|err]; [|discriminate].
    cbn [rbind] in Hok.
    destruct (fold_result_ok_each _ _ _ _ Hok e Hin) as [s1 [s2 Hstep]].
    unfold transform_edge in Hstep. destruct e as [[u v] k].
    destruct (edge_lookup (edges G) (u, v, k)) as [a|]; [|discriminate].
    exists a. destruct (e_label a) as [z|z] eqn:Hl.
    - exfalso. destruct (torch_full (Fin 0) num_edge_types); simpl in Hstep; [|discriminate].
      destruct (setitem _ _ _); simpl in Hstep; discriminate.
    - now exists z. }
  split; [exact Hfirst|]. split; [reflexivity|]. split.
  - intros Hints Hne H Hok.
    destruct (edges G) as [|[e a] rest] eqn:Hes; [now apply Hne|].
    destruct (Hfirst H Hok e) as [b [z [Hlk Hl]]]; [try rewrite Hes; now left|].
    destruct (Hints e b Hlk) as [z' Hz']. congruence.
  - intros e a rest z Hes Hl Hdim Hz.
    unfold WN_transform. rewrite torch_full_ok by exact Hdim. cbn [rbind].
    destruct (node_loop_total {| node_type := "n1";
                                 node_feature := repeat (Fin 1) (Z.to_nat input_dim) |}
                (map fst (nodes G)) {| nodes := []; edges := [] |}) as [H0 HH0].
    rewrite HH0. cbn [rbind]. rewrite Hes. cbn [map fst fold_result].
    unfold transform_edge. rewrite Hes. destruct e as [[u v] k].
    cbn [edge_lookup]. rewrite same_edge_refl, Hl. cbn [scalar_val item].
    rewrite torch_full_ok by lia. cbn [rbind].
    unfold setitem, tensor_setitem, len. cbn [scalar_val].
    rewrite repeat_length, Z2Nat.id by lia.
    replace ((- num_edge_types <=? z) && (z <? num_edge_types)) with true
      by (symmetry; apply andb_true_iff; split; [apply Z.leb_le | apply Z.ltb_lt]; lia).
    reflexivity.
Qed.

(** ** The loss *)

Lemma dict_get_in_keys {V} (d : dict V) (k : string) :
  In k (keys d) -> exists v, dict_get d k = Ok v.
Proof.
  unfold keys. induction d as [|[k' v] d IH]; simpl; intros Hin.
  - contradiction.
  - destruct (String.eqb k' k) eqn:Hk.
    + now exists v.
    + destruct Hin as [Heq | Hin]; [|now apply IH].
      subst. now rewrite String.eqb_refl in Hk.
Qed.

Section Loss.

Context {L : Library}.

(** The loop of lines 119-121 on a prediction that has the shape of the
    labels adds the terms of the relation types to the local [loss]. *)
Lemma loss_loop (y : dict (list Z)) (pred : dict (list float)) :
  same_shape pred y ->
  forall acc,
    fold_result (fun loss entry =>
        let '(key, score) := entry in
        let p := map sigmoid score in
        label <~ dict_get y key ;;
        if Nat.eqb (List.length label) (List.length p)
        then Ok (loss_add loss (loss_fn p (map cast label)))
        else Raise ValueError)
      pred acc
    = Ok (fold_left loss_add (map (loss_term y) pred) acc).
Proof.
  induction 1 as [|[k score] pred [label [Hlabel Hlen]] _ IH]; intros acc.
  - reflexivity.
  - cbn [fold_result map fold_left]. cbn [fst snd] in Hlabel, Hlen.
    unfold loss_term at 2. cbn [fst snd]. rewrite Hlabel. cbn [rbind].
    rewrite length_map, Hlen, Nat.eqb_refl. apply IH.
Qed.

(** The local [loss] after the terms is their sum from what it was. *)
Lemma loss_add_sum (terms : list float) :
  forall acc, loss_item (fold_left loss_add terms acc) = sum_from (loss_item acc) terms.
Proof.
  induction terms as [|t terms IH]; intros acc; cbn [fold_left sum_from]; [reflexivity|].
  rewrite IH. now destruct acc.
Qed.

Lemma loss_add_is_tensor (terms : list float) :
  forall acc, terms <> [] ->
              fold_left loss_add terms acc = LossTensor (sum_from (loss_item acc) terms).
Proof.
  destruct terms as [|t terms]; intros acc Hne; [congruence|]. cbn [fold_left sum_from].
  assert (Htensor : forall x, fold_left loss_add terms (LossTensor x)
                              = LossTensor (sum_from x terms)).
  { clear. induction terms as [|t terms IH]; intros x; cbn [fold_left sum_from loss_add];
      [reflexivity | apply IH]. }
  destruct acc; cbn [loss_add loss_item]; apply Htensor.
Qed.

Lemma sum_from_app (t1 t2 : list float) :
  forall start, sum_from start (t1 ++ t2) = sum_from (sum_from start t1) t2.
Proof.
  induction t1 as [|t t1 IH]; intros start; [reflexivity|].
  rewrite <- app_comm_cons. cbn [sum_from]. apply IH.
Qed.

(** With an exact addition the sum of tensors is the sum of their values. *)
Lemma sum_from_exact (qs : list Q) :
  exact_addition ->
  forall q, exists r, sum_from (Fin q) (map Fin qs) = Fin r /\ (r == q + Qsum qs)%Q.
Proof.
  intros Hadd. induction qs as [|x qs IH]; intros q; cbn [map sum_from Qsum fold_right].
  - exists q. split; [reflexivity|]. now rewrite Qplus_0_r.
  - rewrite Hadd. destruct (IH (q + x)%Q) as [r [Hr Heq]]. exists r. split; [exact Hr|].
    rewrite Heq. unfold Qsum. now rewrite Qplus_assoc.
Qed.

(** C2, as the code has it.  When every relation type of the prediction
    has labels of the size of its scores, [loss] returns the sum over the
    relation types, from 0 and in their order, of the BCE-with-logits
    function applied to the sigmoid of the scores and to the labels cast to
    floats: nothing divides it by their number.  It is a tensor as soon as
    there is a relation type; one more relation type adds exactly its own
    term; and when the addition of tensors is exact, its value is the sum
    of the values of the terms. *)
Theorem loss_is_sum (pred : dict (list float)) (y : dict (list Z)) :
  same_shape pred y ->
  exists l,
    loss pred y = Ok l /\
    loss_item l = summed_loss pred y /\
    (pred <> [] -> l = LossTensor (summed_loss pred y)) /\
    (forall key score label,
       dict_get y key = Ok label -> List.length label = List.length score ->
       loss (pred ++ [(key, score)]) y
       = Ok (LossTensor (tensor_add (summed_loss pred y)
                                    (loss_fn (map sigmoid score) (map cast label))))) /\
    (exact_addition ->
     forall qs, map (loss_term y) pred = map Fin qs ->
                exists q, summed_loss pred y = Fin q /\ (q == Qsum qs)%Q).
Proof.
  intros Hshape. exists (fold_left loss_add (map (loss_term y) pred) (LossInt 0)).
  split; [unfold loss; now apply loss_loop|].
  split; [apply loss_add_sum|]. split; [|split].
  - intros Hne. apply loss_add_is_tensor. destruct pred; [congruence | discriminate].
  - intros key score label Hlabel Hlen. unfold loss. rewrite loss_loop.
    + rewrite loss_add_is_tensor by (destruct pred; discriminate).
      unfold summed_loss. rewrite map_app, sum_from_app. cbn [map sum_from loss_item].
      unfold loss_term at 2. cbn [fst snd]. now rewrite Hlabel.
    + unfold same_shape. apply Forall_app. split; [exact Hshape|].
      constructor; [|constructor]. now exists label.
  - intros Hadd qs Hqs. unfold summed_loss. rewrite Hqs.
    destruct (sum_from_exact qs Hadd 0%Q) as [r [Hr Heq]]. exists r. split; [exact Hr|].
    now rewrite Heq, Qplus_0_l.
Qed.

End Loss.

(** C2 on two relation types, of two candidate edges and of one, with a
    third relation type to add. *)
Lemma loss_is_sum_witness :
  exists l,
    loss (L := Toy.library) Sample.scores Sample.truth = Ok l /\
    loss_item l = summed_loss Sample.scores Sample.truth /\
    (Sample.scores <> [] -> l = LossTensor (summed_loss Sample.scores Sample.truth)) /\
    (forall key score label,
       dict_get Sample.truth key = Ok label -> List.length label = List.length score ->
       loss (L := Toy.library) (Sample.scores ++ [(key, score)]) Sample.truth
       = Ok (LossTensor (tensor_add (summed_loss Sample.scores Sample.truth)
                                    (loss_fn (map sigmoid score) (map cast label))))) /\
    (exact_addition ->
     forall qs, map (loss_term Sample.truth) Sample.scores = map Fin qs ->
                exists q, summed_loss Sample.scores Sample.truth = Fin q /\ (q == Qsum qs)%Q).
Proof.
  apply (loss_is_sum (L := Toy.library) Sample.scores Sample.truth).
  repeat constructor; cbn; eexists; split; reflexivity.
Defined.

(** Labels of another size than the scores, under the same relation type:
    the loss function raises a value error. *)
Lemma loss_size_mismatch :
  keys [("0", [Fin 1; Fin 1])] = keys [("0", [0; 1; 1])] /\
  loss (L := Toy.library) [("0", [Fin 1; Fin 1])] [("0", [0; 1; 1])] = Raise ValueError.
Proof. split; reflexivity. Qed.

(** The sum of the small instance: the terms 1/2 and 3/4 add up to 5/4, and
    not to their mean 5/8. *)
Example loss_sample_value :
  exact_addition (L := Toy.library) /\
  map (loss_term (L := Toy.library) Sample.truth) Sample.scores
  = map Fin [32 # 64; 6 # 8]%Q /\
  exists q, loss (L := Toy.library) Sample.scores Sample.truth = Ok (LossTensor (Fin q)) /\
            (q == 5 # 4)%Q.
Proof.
  split; [intros a b; reflexivity|]. split; [vm_compute; reflexivity|].
  eexists. split; [vm_compute; reflexivity|]. reflexivity.
Qed.

(** Two relation types: the loss is the sum of the two terms, not their mean. *)
Example loss_two_types :
  loss (L := Toy.library) [("0", [Fin 1]); ("1", [Fin 1])] [("0", [0]); ("1", [0])]
  = Ok (LossTensor (Toy.add (Toy.add (Fin 0) (Toy.absolute_error [Toy.squash (Fin 1)] [Fin 0]))
                            (Toy.absolute_error [Toy.squash (Fin 1)] [Fin 0]))).
Proof. reflexivity. Qed.

(** ** Runs *)

Section Runs.

Context {L : Library}.

Lemma bind_run {A B} (c : M A) (k : A -> M B) (w : World) :
  bind c k w = match c w with
               | (Ok a, w1, e1) => let '(r2, w2, e2) := k a w1 in (r2, w2, e1 ++ e2)
               | (Raise e, w1, e1) => (Raise e, w1, e1)
               end.
Proof. unfold bind. destruct (c w) as [[[a|e] w1] e1]; reflexivity. Qed.

Lemma bind_events {A B} (c : M A) (k : A -> M B) (w : World) :
  events (bind c k w)
  = events (c w) ++ match outcome (c w) with
                    | Ok a => events (k a (final (c w)))
                    | Raise _ => []
                    end.
Proof.
  rewrite bind_run. destruct (c w) as [[[a|e] w1] e1]; cbn [events outcome final fst snd].
  - now destruct (k a w1) as [[r2 w2] e2].
  - now rewrite app_nil_r.
Qed.

Lemma bind_outcome {A B} (c : M A) (k : A -> M B) (w : World) :
  outcome (bind c k w)
  = match outcome (c w) with
    | Ok a => outcome (k a (final (c w)))
    | Raise e => Raise e
    end.
Proof.
  rewrite bind_run. destruct (c w) as [[[a|e] w1] e1]; cbn [events outcome final fst snd].
  - now destruct (k a w1) as [[r2 w2] e2].
  - reflexivity.
Qed.

Lemma foldM_app {A S} (f : S -> A -> M S) (xs ys : list A) :
  forall s w, foldM f (xs ++ ys) s w = bind (foldM f xs s) (fun s' => foldM f ys s') w.
Proof.
  induction xs as [|x xs IH]; intros s w.
  - change ([] ++ ys) with ys. cbn [foldM]. rewrite bind_run. unfold ret.
    now destruct (foldM f ys s w) as [[r w'] evs].
  - rewrite <- app_comm_cons. cbn [foldM]. rewrite !bind_run.
    destruct (f s x w) as [[[s1|e] w1] e1]; [|reflexivity].
    rewrite IH, bind_run.
    destruct (foldM f xs s1 w1) as [[[s2|e] w2] e2]; [|reflexivity].
    destruct (foldM f ys s2 w2) as [[r3 w3] e3]. now rewrite app_assoc.
Qed.

Lemma emits_ret {A} (P : Event -> Prop) (a : A) : emits P (ret a).
Proof. intros w. constructor. Qed.

Lemma emits_lift {A} (P : Event -> Prop) (r : result A) : emits P (lift r).
Proof. intros w. constructor. Qed.

Lemma emits_emit (P : Event -> Prop) (e : Event) : P e -> emits P (emit e).
Proof. intros H w. now repeat constructor. Qed.

Lemma emits_bind {A B} (P : Event -> Prop) (c : M A) (k : A -> M B) :
  emits P c -> (forall a, emits P (k a)) -> emits P (bind c k).
Proof.
  intros Hc Hk w. rewrite bind_events. apply Forall_app. split; [apply Hc|].
  destruct (outcome (c w)); [apply Hk | constructor].
Qed.

Lemma emits_foldM {A S} (P : Event -> Prop) (f : S -> A -> M S) (xs : list A) :
  (forall s x, emits P (f s x)) -> forall s, emits P (foldM f xs s).
Proof.
  intros Hf. induction xs as [|x xs IH]; intros s; cbn [foldM].
  - apply emits_ret.
  - apply emits_bind; [apply Hf | exact IH].
Qed.

Lemma emits_deref (P : Event -> Prop) (m : loc) : emits P (deref m).
Proof. intros w. constructor. Qed.

Lemma emits_assign (P : Event -> Prop) (m : loc) (o : HeteroNet) : emits P (assign m o).
Proof. intros w. constructor. Qed.

Lemma emits_alloc (P : Event -> Prop) (o : HeteroNet) : emits P (alloc o).
Proof. intros w. constructor. Qed.

Lemma emits_set_training (P : Event -> Prop) (m : loc) (flag : bool) :
  emits P (set_training m flag).
Proof.
  unfold set_training. apply emits_bind; [apply emits_deref | intros o; apply emits_assign].
Qed.

Lemma emits_forward (P : Event -> Prop) (m : loc) (data : Batch) : emits P (forward m data).
Proof.
  unfold forward. apply emits_bind; [apply emits_deref | intros self].
  apply emits_bind; [|intros x; apply emits_lift].
  intros w. cbn. destruct (convolve _ _ _ _ _ _). constructor.
Qed.

Lemma emits_step (P : Event -> Prop) (m : loc) opt l batch g :
  emits P (step m opt l batch g).
Proof.
  unfold step. destruct l; [apply emits_lift|].
  apply emits_bind; [apply emits_deref | intros self].
  destruct (backward_step _ _ _ _ _ _) as [[c1 c2] opt'].
  apply emits_bind; [apply emits_assign | intros _; apply emits_ret].
Qed.

Lemma emits_test_batch (P : Event -> Prop) (m : loc) (args : Args) st batch :
  emits P (test_batch m args st batch).
Proof.
  unfold test_batch. apply emits_bind; [apply emits_lift | intros b].
  apply emits_bind; [apply emits_forward | intros pred].
  apply emits_bind; [apply emits_lift | intros [acc num]; apply emits_ret].
Qed.

Lemma emits_test_split (P : Event -> Prop) (m : loc) (args : Args) st entry :
  emits P (test_split m args st entry).
Proof.
  unfold test_split. destruct st as [accs num], entry as [mode dataloader].
  apply emits_bind; [apply emits_foldM; intros; apply emits_test_batch|].
  intros [acc [n|]]; [|apply emits_lift].
  apply emits_bind; [apply emits_lift | intros r; apply emits_ret].
Qed.

Lemma silent_nil {A} (c : M A) (w : World) : silent c -> events (c w) = [].
Proof.
  intros H. specialize (H w). destruct (events (c w)) as [|e evs]; [reflexivity|].
  inversion H; contradiction.
Qed.

(** A call of [test] emits its own event and nothing else. *)
Lemma test_events (m : loc) (dataloaders : dict (list Batch)) (args : Args) (w : World) :
  events (test m dataloaders args w) = [EvalCall m (keys dataloaders)].
Proof.
  unfold test. rewrite bind_events. cbn [emit events outcome final fst snd].
  rewrite silent_nil; [reflexivity|].
  apply emits_bind; [apply emits_set_training | intros _].
  apply emits_bind; [apply emits_foldM; intros; apply emits_test_split|].
  intros [accs num]. apply emits_ret.
Qed.

(** What [test] returns is what its loop over the splits returns, run once
    the model is in evaluation mode. *)
Lemma test_outcome (m : loc) (dataloaders : dict (list Batch)) (args : Args) (w : World) :
  outcome (test m dataloaders args w)
  = match outcome (foldM (test_split m args) dataloaders ([], None)
                     (final (set_training m false w))) with
    | Ok st => Ok (fst st)
    | Raise e => Raise e
    end.
Proof.
  unfold test. rewrite bind_outcome. cbn [emit outcome final fst snd].
  rewrite bind_outcome. change (outcome (set_training m false w)) with (@Ok unit tt).
  cbv iota beta. rewrite bind_outcome.
  destruct (outcome (foldM _ dataloaders _ _)) as [[accs num]|e]; reflexivity.
Qed.

End Runs.

(** Discharges the side conditions on the events of a computation. *)
Ltac quiet :=
  repeat match goal with
    | |- emits _ (bind _ _) => apply emits_bind; [|intros ?]
    | |- emits _ (ret _) => apply emits_ret
    | |- emits _ (lift _) => apply emits_lift
    | |- emits _ (foldM _ _ _) => apply emits_foldM; intros ? ?
    | |- emits _ (deref _) => apply emits_deref
    | |- emits _ (assign _ _) => apply emits_assign
    | |- emits _ (alloc _) => apply emits_alloc
    | |- emits _ (set_training _ _) => apply emits_set_training
    | |- emits _ (forward _ _) => apply emits_forward
    | |- emits _ (step _ _ _ _ _) => apply emits_step
    | |- emits _ (emit _) => apply emits_emit
    | |- emits _ (match ?x with _ => _ end) => destruct x
    | |- emits _ (fun w => _) =>
        let w := fresh "w" in
        intros w; cbn;
        repeat match goal with
          | |- context [let '(_, _) := ?x in _] => destruct x
          end;
        constructor
    end.

(** ** The command line *)

Lemma arg_parse_agree (argv : list cli_option) :
  forall a b, agree a b ->
              agree (fold_left store argv a)
                    (fold_left store (filter (fun o => negb (unused o)) argv) b).
Proof.
  induction argv as [|o argv IH]; intros a b Hab; [exact Hab|].
  destruct o; cbn [filter unused negb fold_left]; apply IH;
    unfold agree in *; cbn; tauto.
Qed.

Section Main.

Context {L : Library}.

Lemma emits_test P (m : loc) dataloaders (args : Args) :
  P (EvalCall m (keys dataloaders)) -> emits P (test m dataloaders args).
Proof. intros H w. rewrite test_events. now repeat constructor. Qed.

Lemma train_hidden_32 (m : loc) dataloaders opt (args : Args) :
  emits hidden_32 (train m dataloaders opt args).
Proof.
  unfold train, train_epoch, train_batch, keep_best, step, deepcopy.
  quiet; try (intros h p Heq; discriminate Heq);
    try (apply emits_test; intros h p Heq; discriminate Heq).
Qed.

Lemma run_hidden_32 (args : Args) : emits hidden_32 (run args).
Proof.
  unfold run, HeteroNet_init.
  quiet; try (intros h p Heq; discriminate Heq);
    try apply train_hidden_32.
  intros h p Heq. now injection Heq as <- _.
Qed.

Lemma run_agree (a b : Args) (w : World) : agree a b -> run a w = run b w.
Proof.
  destruct a, b. unfold agree. cbn.
  intros (-> & -> & -> & -> & -> & ->). reflexivity.
Qed.

(** C7.  Without options [hidden_dim] is 16 and [model] is ["MlpMessage"],
    and an option sets them; yet a run is the same, event for event and
    world for world, as the run without the [--model] and [--hidden_dim]
    options, so two command lines that differ only there run alike; and
    every model a run constructs has hidden size 32. *)
Theorem unused_options (argv : list cli_option) (w : World) :
  hidden_dim (arg_parse []) = 16 /\
  model (arg_parse []) = "MlpMessage" /\
  (forall z, hidden_dim (arg_parse (argv ++ [opt_hidden_dim z])) = z) /\
  (forall s, model (arg_parse (argv ++ [opt_model s])) = s) /\
  main argv w = main (filter (fun o => negb (unused o)) argv) w /\
  (forall argv',
     filter (fun o => negb (unused o)) argv' = filter (fun o => negb (unused o)) argv ->
     main argv' w = main argv w) /\
  Forall (fun e => forall h p, e = Construct h p -> h = 32) (events (main argv w)).
Proof.
  assert (Hfilter : forall argv0,
            main argv0 w = main (filter (fun o => negb (unused o)) argv0) w).
  { intros argv0. unfold main. apply run_agree. unfold arg_parse.
    apply arg_parse_agree. unfold agree. tauto. }
  repeat split; try reflexivity.
  - intros z. unfold arg_parse. now rewrite fold_left_app.
  - intros s. unfold arg_parse. now rewrite fold_left_app.
  - apply Hfilter.
  - intros argv' Heq. rewrite (Hfilter argv'), (Hfilter argv). now rewrite Heq.
  - apply (run_hidden_32 (arg_parse argv) w).
Qed.

End Main.

(** The run of the small instance constructs its model once, with hidden
    size 32, whatever [--hidden_dim] says. *)
Example main_constructs_32 :
  filter (fun e => match e with Construct _ _ => true | _ => false end)
         (events (main [opt_hidden_dim 64; opt_epochs 3] Toy.world))
  = [Construct 32 (2 # 10)].
Proof. vm_compute. reflexivity. Qed.

(** ** The schedule of a training run *)

Lemma range_spec (lo hi e : Z) : In e (range lo hi) <-> lo <= e < hi.
Proof.
  unfold range. rewrite in_map_iff. split.
  - intros [i [<- Hi]]. apply in_seq in Hi. lia.
  - intros He. exists (Z.to_nat (e - lo)). split; [lia|]. apply in_seq. lia.
Qed.

Section Schedule.

Context {L : Library}.

Lemma shape_app (a b : list Event) : shape (a ++ b) = shape a ++ shape b.
Proof. apply flat_map_app. Qed.

Lemma follows_eq {A} (c : M A) (g g' : list Shape) : follows c g' -> g' = g -> follows c g.
Proof. now intros H <-. Qed.

Lemma follows_unscheduled {A} (c : M A) :
  emits (fun e => shape_of e = []) c -> follows c [].
Proof.
  intros H w.
  assert (Hnil : shape (events (c w)) = []).
  { specialize (H w). induction H as [|e evs He _ IH]; [reflexivity|].
    unfold shape in *. cbn [flat_map]. now rewrite He, IH. }
  rewrite Hnil. split; [now exists [] | reflexivity].
Qed.

Lemma follows_emit (e : Event) (g : list Shape) : shape_of e = g -> follows (emit e) g.
Proof.
  intros <- w. cbn. rewrite app_nil_r.
  split; [exists []; now rewrite app_nil_r | reflexivity].
Qed.

Lemma follows_bind {A B} (c : M A) (k : A -> M B) (g1 g2 : list Shape) :
  follows c g1 -> (forall a, follows (k a) g2) -> follows (bind c k) (g1 ++ g2).
Proof.
  intros Hc Hk w. destruct (Hc w) as [[r1 Hpre] Hok].
  rewrite bind_events, bind_outcome, shape_app.
  destruct (outcome (c w)) as [a|e] eqn:Hout.
  - rewrite (Hok a eq_refl).
    destruct (Hk a (final (c w))) as [[r2 Hpre2] Hok2]. split.
    + exists r2. rewrite Hpre2 at 1. now rewrite app_assoc.
    + intros b Hb. now rewrite (Hok2 b Hb).
  - cbn [shape flat_map]. rewrite app_nil_r. split.
    + exists (r1 ++ g2). rewrite Hpre at 1. now rewrite app_assoc.
    + discriminate.
Qed.

Lemma follows_lift_ok {A B} (a : A) (k : A -> M B) (g : list Shape) :
  follows (k a) g -> follows (bind (lift (Ok a)) k) g.
Proof.
  intros H w. specialize (H w). unfold bind, lift.
  destruct (k a w) as [[r w'] evs]. exact H.
Qed.

Lemma follows_foldM {A S} (f : S -> A -> M S) (g : A -> list Shape) (xs : list A) :
  (forall s x, follows (f s x) (g x)) ->
  forall s, follows (foldM f xs s) (flat_map g xs).
Proof.
  intros Hf. induction xs as [|x xs IH]; intros s; cbn [foldM flat_map].
  - apply follows_unscheduled. apply emits_ret.
  - apply follows_bind; [apply Hf | exact IH].
Qed.

Lemma follows_test (m : loc) dataloaders (args : Args) :
  follows (test m dataloaders args) [SEval m (keys dataloaders)].
Proof.
  intros w. rewrite test_events. cbn. split; [now exists [] | reflexivity].
Qed.

Ltac scheduled :=
  repeat match goal with
    | |- follows (bind _ _) _ => eapply follows_bind; [|intros ?]
    | |- follows (test _ _ _) _ => apply follows_test
    | |- follows (emit (Print _)) _ => apply follows_emit; cbn [shape_of]; reflexivity
    | |- follows (match ?x with _ => _ end) _ => destruct x
    | |- follows _ _ => apply follows_unscheduled; quiet; try reflexivity
    end.

Lemma follows_train_batch (m : loc) dataloaders (args : Args) (epoch : Z) st batch :
  follows (train_batch m dataloaders args epoch st batch)
    [SEval m (keys (filter (fun kv => negb (String.eqb (fst kv) "train")) dataloaders));
     SLog epoch].
Proof.
  eapply follows_eq.
  - unfold train_batch, keep_best, step, deepcopy. scheduled.
  - reflexivity.
Qed.

Lemma follows_train_epoch (m : loc) dataloaders (args : Args) batches st (epoch : Z) :
  dict_get dataloaders "train" = Ok batches ->
  follows (train_epoch m dataloaders args st epoch)
    (flat_map (fun _ : Batch =>
       [SEval m (keys (filter (fun kv => negb (String.eqb (fst kv) "train")) dataloaders));
        SLog epoch]) batches).
Proof.
  intros Hget. unfold train_epoch. rewrite Hget.
  apply follows_lift_ok. apply follows_foldM. intros s x. apply follows_train_batch.
Qed.

End Schedule.

(** ** One training step *)

Section Step.

Context {L : Library}.

Lemma bind_inv {A B} (c : M A) (k : A -> M B) (w w' : World) r evs :
  bind c k w = (r, w', evs) ->
  (exists e, c w = (Raise e, w', evs) /\ r = Raise e) \/
  (exists a w1 e1 e2, c w = (Ok a, w1, e1) /\ k a w1 = (r, w', e2) /\ evs = e1 ++ e2).
Proof.
  rewrite bind_run. destruct (c w) as [[[a|e] w1] e1].
  - destruct (k a w1) as [[r2 w2] e2] eqn:Hk. intros H. injection H as <- <- <-.
    right. now exists a, w1, e1, e2.
  - intros H. injection H as <- <- <-. left. now exists e.
Qed.

Lemma silent_inv {A} (c : M A) (w w' : World) r evs :
  silent c -> c w = (r, w', evs) -> evs = [].
Proof.
  intros Hs Hc. pose proof (silent_nil c w Hs) as H. now rewrite Hc in H.
Qed.

Lemma test_inv (m : loc) dataloaders (args : Args) (w w' : World) r evs :
  test m dataloaders args w = (r, w', evs) -> evs = [EvalCall m (keys dataloaders)].
Proof.
  intros Hc. pose proof (test_events m dataloaders args w) as H. now rewrite Hc in H.
Qed.

Lemma keep_best_run (m : loc) (st : TrainState) (va : float) (w : World) :
  exists st' w',
    keep_best m st va w
    = (Ok st', w', if float_lt (val_max st) va then [Snapshot (best_model st')] else []) /\
    val_max st' = float_max (val_max st) va /\
    (float_lt (val_max st) va = false -> best_model st' = best_model st).
Proof.
  unfold keep_best, float_max. destruct (float_lt (val_max st) va).
  - exists {| val_max := va; best_model := next w; optimizer := optimizer st;
              t_accu_sum := t_accu_sum st; t_accu_cnt := t_accu_cnt st |}.
    eexists. cbn. split; [reflexivity|]. split; [reflexivity | discriminate].
  - exists st, w. cbn. tauto.
Qed.

End Step.

(** Splits the run of a sequence into the run of its first part and the run
    of the rest, and finds the events of the first part. *)
Ltac events_of Hc :=
  first [ apply test_inv in Hc; subst
        | apply silent_inv in Hc; [subst | unfold silent; solve [quiet]]
        | discriminate Hc
        | inversion Hc; subst; clear Hc ].

Ltac run_bind H :=
  let err := fresh "err" in
  let a := fresh "a" in
  let w1 := fresh "w" in
  let e1 := fresh "ea" in
  let e2 := fresh "eb" in
  let Hc := fresh "Hc" in
  apply bind_inv in H;
  destruct H as [(err & Hc & ->) | (a & w1 & e1 & e2 & Hc & H & ->)];
  [ events_of Hc | events_of Hc; cbn [app] in * ].

Section TrainBatch.

Context {L : Library}.

(** One training batch: the run raises before the log line, having called
    [test] or not, or it returns after the call, the log line and, exactly
    when the validation accuracy exceeds [val_max], a deep copy that becomes
    the best model. *)
Lemma train_batch_run (m : loc) dataloaders (args : Args) (epoch : Z) (st : TrainState)
    (batch : Batch) (w : World) :
  let x := train_batch m dataloaders args epoch st batch w in
  let call :=
    EvalCall m (keys (filter (fun kv => negb (String.eqb (fst kv) "train")) dataloaders)) in
  (exists e, outcome x = Raise e /\ (events x = [] \/ events x = [call])) \/
  (exists st' l tr va te,
     outcome x = Ok st' /\
     events x = [call; Print (LLog epoch l tr va te)]
                ++ (if float_lt (val_max st) va then [Snapshot (best_model st')] else []) /\
     val_max st' = float_max (val_max st) va /\
     (float_lt (val_max st) va = false -> best_model st' = best_model st)).
Proof.
  intros x call. subst x.
  destruct (train_batch m dataloaders args epoch st batch w) as [[r w'] evs] eqn:H.
  cbn [outcome events fst snd]. unfold train_batch in H.
  run_bind H; try solve [left; eexists; split; [reflexivity | left; reflexivity]].
  run_bind H; try solve [left; eexists; split; [reflexivity | left; reflexivity]].
  run_bind H; try solve [left; eexists; split; [reflexivity | left; reflexivity]].
  run_bind H; try solve [left; eexists; split; [reflexivity | left; reflexivity]].
  run_bind H; try solve [left; eexists; split; [reflexivity | left; reflexivity]].
  match type of H with
  | (let (_, _) := ?p in _) _ = _ => destruct p as [sum cnt]
  end.
  run_bind H; try solve [left; eexists; split; [reflexivity | left; reflexivity]].
  run_bind H; try solve [left; eexists; split; [reflexivity | left; reflexivity]].
  run_bind H; try solve [left; eexists; split; [reflexivity | right; reflexivity]].
  fold call in H |- *.
  run_bind H; try solve [left; eexists; split; [reflexivity | right; reflexivity]].
  run_bind H; try solve [left; eexists; split; [reflexivity | right; reflexivity]].
  run_bind H; try solve [left; eexists; split; [reflexivity | right; reflexivity]].
  run_bind H; try solve [left; eexists; split; [reflexivity | right; reflexivity]].
  apply bind_inv in H.
  destruct H as [(err & Hc & ->) | (u & wl & el & ek & Hc & H & ->)];
    [discriminate Hc|].
  injection Hc as _ <- <-.
  match type of H with
  | keep_best _ ?s ?v ?w0 = _ =>
      destruct (keep_best_run m s v w0) as (st' & wk & Hk & Hmax & Hbest)
  end.
  rewrite Hk in H. injection H as <- <- <-.
  right. exists st'. do 4 eexists. split; [reflexivity|].
  split; [reflexivity|]. split; [exact Hmax | exact Hbest].
Qed.

End TrainBatch.

(** ** The best model *)

Lemma running_max_snoc (seen : list float) (v : float) :
  running_max (seen ++ [v]) = float_max (running_max seen) v.
Proof. unfold running_max. now rewrite fold_left_app. Qed.

Lemma expected_copies_app (v1 v2 : list float) :
  forall seen,
    expected_copies seen (v1 ++ v2)
    = expected_copies seen v1 ++ expected_copies (seen ++ v1) v2.
Proof.
  induction v1 as [|v v1 IH]; intros seen; simpl.
  - now rewrite app_nil_r.
  - rewrite IH. now rewrite <- app_assoc.
Qed.


(** Accuracies that never exceed 0 never improve. *)
Lemma no_improvement (vs : list float) :
  forall seen,
    running_max seen = Fin 0 ->
    Forall (fun v => float_lt (Fin 0) v = false) vs ->
    Forall (fun f => snd f = false) (expected_copies seen vs).
Proof.
  induction vs as [|v vs IH]; intros seen Hmax Hall; cbn [expected_copies].
  - constructor.
  - inversion Hall as [|x l Hv Hrest]; subst. constructor.
    + cbn [snd]. unfold improves. now rewrite Hmax.
    + apply IH; [|exact Hrest].
      rewrite running_max_snoc, Hmax. unfold float_max. now rewrite Hv.
Qed.

Section Best.

Context {L : Library}.

Lemma snapshots_app (e1 e2 : list Event) :
  clean e2 -> snapshots (e1 ++ e2) = snapshots e1 ++ snapshots e2.
Proof.
  intros Hclean. induction e1 as [|e e1 IH]; [reflexivity|].
  destruct e as [[| | | | | |epoch l tr va te|]| | |]; try exact IH.
  change (snapshots ((Print (LLog epoch l tr va te) :: e1) ++ e2))
    with ((va, match e1 ++ e2 with Snapshot _ :: _ => true | _ => false end)
          :: snapshots (e1 ++ e2)).
  change (snapshots (Print (LLog epoch l tr va te) :: e1))
    with ((va, match e1 with Snapshot _ :: _ => true | _ => false end) :: snapshots e1).
  cbn [app]. rewrite IH. f_equal. f_equal.
  destruct e1 as [|e' e1]; [|reflexivity].
  cbn [app]. destruct e2 as [|[| | |] e2]; try reflexivity. contradiction.
Qed.

Lemma logged_vals_app (e1 e2 : list Event) :
  logged_vals (e1 ++ e2) = logged_vals e1 ++ logged_vals e2.
Proof. apply flat_map_app. Qed.

Lemma last_snapshot_app (b : loc) (e1 e2 : list Event) :
  last_snapshot b (e1 ++ e2) = last_snapshot (last_snapshot b e1) e2.
Proof. apply fold_left_app. Qed.

Lemma clean_app (e1 e2 : list Event) : clean e1 -> clean e2 -> clean (e1 ++ e2).
Proof. destruct e1 as [|e e1]; [now intros _ | now intros H _]. Qed.

Lemma tracked_ret (seen : list float) (st : TrainState) (w : World) :
  val_max st = running_max seen -> tracked seen (best_model st) (ret st w).
Proof.
  intros Hmax. unfold tracked. cbn.
  split; [exact I|]. split; [reflexivity|]. split; [reflexivity|].
  intros st' H. injection H as <-. now rewrite app_nil_r.
Qed.

(** [tracked] goes through a sequence: the second part starts from what the
    first part has seen and copied. *)
Lemma tracked_bind (seen : list float) (b : loc) (c : M TrainState)
    (k : TrainState -> M TrainState) (w : World) :
  tracked seen b (c w) ->
  (forall st w' seen', val_max st = running_max seen' ->
                       tracked seen' (best_model st) (k st w')) ->
  tracked seen b (bind c k w).
Proof.
  intros (Hclean & Hsnap & Hcount & Hok) Hk. unfold tracked.
  rewrite bind_events, bind_outcome.
  destruct (outcome (c w)) as [st|e] eqn:Hout.
  - destruct (Hok st eq_refl) as [Hmax Hbest].
    destruct (Hk st (final (c w)) _ Hmax) as (Hclean2 & Hsnap2 & Hcount2 & Hok2).
    set (e1 := events (c w)) in *. set (e2 := events (k st (final (c w)))) in *.
    split; [now apply clean_app|]. split; [|split].
    + rewrite snapshots_app by exact Hclean2.
      rewrite logged_vals_app, expected_copies_app. now rewrite Hsnap, Hsnap2.
    + rewrite snapshots_app by exact Hclean2.
      rewrite !filter_app, !length_app. now rewrite Hcount, Hcount2.
    + intros st' Hst'. destruct (Hok2 st' Hst') as [Hmax2 Hbest2].
      rewrite logged_vals_app, last_snapshot_app, app_assoc, <- Hbest. now split.
  - rewrite app_nil_r.
    split; [exact Hclean|]. split; [exact Hsnap|]. split; [exact Hcount|]. discriminate.
Qed.

Lemma tracked_foldM {A} (f : TrainState -> A -> M TrainState) (xs : list A) :
  (forall st x w seen, val_max st = running_max seen ->
                       tracked seen (best_model st) (f st x w)) ->
  forall st w seen, val_max st = running_max seen ->
                    tracked seen (best_model st) (foldM f xs st w).
Proof.
  intros Hf. induction xs as [|x xs IH]; intros st w seen Hmax; cbn [foldM].
  - now apply tracked_ret.
  - apply tracked_bind; [now apply Hf | exact IH].
Qed.

Lemma bind_lift_ok {A B} (a : A) (k : A -> M B) (w : World) :
  bind (lift (Ok a)) k w = k a w.
Proof. unfold bind, lift. now destruct (k a w) as [[r w'] evs]. Qed.

Lemma bind_lift_raise {A B} (e : exn) (k : A -> M B) (w : World) :
  bind (lift (Raise e)) k w = (Raise e, w, []).
Proof. reflexivity. Qed.

Lemma tracked_train_batch (m : loc) dataloaders (args : Args) (epoch : Z)
    (st : TrainState) (batch : Batch) (w : World) (seen : list float) :
  val_max st = running_max seen ->
  tracked seen (best_model st) (train_batch m dataloaders args epoch st batch w).
Proof.
  intros Hmax.
  destruct (train_batch_run m dataloaders args epoch st batch w)
    as [(e & Hout & [Hev | Hev]) | (st' & l & tr & va & te & Hout & Hev & Hvm & Hbm)];
    unfold tracked; rewrite Hev, Hout.
  - cbn. repeat split; discriminate.
  - cbn. repeat split; discriminate.
  - assert (Himp : improves seen va = float_lt (val_max st) va)
      by (unfold improves; now rewrite Hmax).
    destruct (float_lt (val_max st) va) eqn:Hlt; cbn; rewrite Himp.
    + split; [exact I|]. split; [reflexivity|]. split; [reflexivity|].
      intros s H. injection H as <-. split; [|reflexivity].
      now rewrite running_max_snoc, <- Hmax.
    + split; [exact I|]. split; [reflexivity|]. split; [reflexivity|].
      intros s H. injection H as <-. split; [|now apply Hbm].
      now rewrite running_max_snoc, <- Hmax.
Qed.

Lemma tracked_train_epoch (m : loc) dataloaders (args : Args) (st : TrainState)
    (epoch : Z) (w : World) (seen : list float) :
  val_max st = running_max seen ->
  tracked seen (best_model st) (train_epoch m dataloaders args st epoch w).
Proof.
  intros Hmax. unfold train_epoch.
  destruct (dict_get dataloaders "train") as [batches|e].
  - rewrite bind_lift_ok.
    apply (tracked_foldM (train_batch m dataloaders args epoch) batches
             (fun s x w' seen' H => tracked_train_batch m dataloaders args epoch s x w' seen' H)
             {| val_max := val_max st; best_model := best_model st;
                optimizer := optimizer st; t_accu_sum := PyInt 0; t_accu_cnt := 0 |}).
    exact Hmax.
  - rewrite bind_lift_raise. unfold tracked. cbn. repeat split; discriminate.
Qed.

(** Lines 172-174: the last evaluation prints its line, unless it raises
    after the call of [test]. *)
Lemma report_run (b : loc) (dataloaders : dict (list Batch)) (args : Args) (w : World) :
  let y := (accs <- test b dataloaders args ;;
            train_acc <- lift (dict_get accs "train") ;;
            val_acc <- lift (dict_get accs "val") ;;
            test_acc <- lift (dict_get accs "test") ;;
            emit (Print (LBest train_acc val_acc test_acc))) w in
  (events y = [EvalCall b (keys dataloaders)] /\ exists e, outcome y = Raise e) \/
  (exists tr va te,
     events y = [EvalCall b (keys dataloaders); Print (LBest tr va te)] /\
     outcome y = Ok tt).
Proof.
  intros y. subst y.
  match goal with |- context [events (?c w)] => destruct (c w) as [[r w'] evs] eqn:H end.
  cbn [events outcome fst snd].
  run_bind H; try solve [left; split; [reflexivity | eauto]].
  run_bind H; try solve [left; split; [reflexivity | eauto]].
  run_bind H; try solve [left; split; [reflexivity | eauto]].
  run_bind H; try solve [left; split; [reflexivity | eauto]].
  injection H as <- <- <-. right. now eexists _, _, _.
Qed.


Lemma copies_before_log_app (e1 e2 : list Event) :
  copies_before_log e2 = 0%nat -> copies_before_log (e1 ++ e2) = copies_before_log e1.
Proof.
  intros H2. induction e1 as [|e e1 IH]; [exact H2|].
  destruct e as [[| | | | | |epoch l tr va te|]| | |]; simpl; now rewrite ?IH.
Qed.

Lemma copy_counts_app (e1 e2 : list Event) :
  copies_before_log e2 = 0%nat -> copy_counts (e1 ++ e2) = copy_counts e1 ++ copy_counts e2.
Proof.
  intros H2. induction e1 as [|e e1 IH]; [reflexivity|].
  destruct e as [[| | | | | |epoch l tr va te|]| | |]; simpl; try exact IH.
  now rewrite IH, (copies_before_log_app e1 e2 H2).
Qed.

Lemma expected_counts_app (v1 v2 seen : list float) :
  expected_counts seen (v1 ++ v2)
  = expected_counts seen v1 ++ expected_counts (seen ++ v1) v2.
Proof. unfold expected_counts. now rewrite expected_copies_app, map_app. Qed.

Lemma counted_bind (seen : list float) (b : loc) (c : M TrainState)
    (k : TrainState -> M TrainState) (w : World) :
  tracked seen b (c w) -> counted seen (c w) ->
  (forall st w' seen', val_max st = running_max seen' -> counted seen' (k st w')) ->
  counted seen (bind c k w).
Proof.
  intros (_ & _ & _ & Hok) [Hhead Hcount] Hk. unfold counted.
  rewrite bind_events. destruct (outcome (c w)) as [st|e].
  - destruct (Hok st eq_refl) as [Hmax _].
    destruct (Hk st (final (c w)) _ Hmax) as [Hhead2 Hcount2].
    rewrite copies_before_log_app, copy_counts_app by exact Hhead2.
    rewrite logged_vals_app, expected_counts_app. split; [exact Hhead|].
    now rewrite Hcount, Hcount2.
  - rewrite app_nil_r. now split.
Qed.

Lemma counted_foldM {A} (f : TrainState -> A -> M TrainState) (xs : list A) :
  (forall st x w seen, val_max st = running_max seen ->
                       tracked seen (best_model st) (f st x w) /\ counted seen (f st x w)) ->
  forall st w seen, val_max st = running_max seen -> counted seen (foldM f xs st w).
Proof.
  intros Hf. induction xs as [|x xs IH]; intros st w seen Hmax; cbn [foldM].
  - now split.
  - destruct (Hf st x w seen Hmax) as [Ht Hc].
    apply (counted_bind seen (best_model st)); [exact Ht | exact Hc | exact IH].
Qed.

Lemma counted_train_batch (m : loc) dataloaders (args : Args) (epoch : Z)
    (st : TrainState) (batch : Batch) (w : World) (seen : list float) :
  val_max st = running_max seen ->
  counted seen (train_batch m dataloaders args epoch st batch w).
Proof.
  intros Hmax.
  destruct (train_batch_run m dataloaders args epoch st batch w)
    as [(e & Hout & [Hev | Hev]) | (st' & l & tr & va & te & Hout & Hev & Hvm & Hbm)];
    unfold counted; rewrite Hev; try (now split).
  assert (Himp : improves seen va = float_lt (val_max st) va)
    by (unfold improves; now rewrite Hmax).
  destruct (float_lt (val_max st) va) eqn:Hlt; unfold expected_counts; cbn;
    rewrite Himp; now split.
Qed.

Lemma counted_train_epoch (m : loc) dataloaders (args : Args) (st : TrainState)
    (epoch : Z) (w : World) (seen : list float) :
  val_max st = running_max seen ->
  counted seen (train_epoch m dataloaders args st epoch w).
Proof.
  intros Hmax. unfold train_epoch.
  destruct (dict_get dataloaders "train") as [batches|e].
  - rewrite bind_lift_ok.
    apply (counted_foldM (train_batch m dataloaders args epoch) batches
             (fun s x w' seen' H =>
                conj (tracked_train_batch m dataloaders args epoch s x w' seen' H)
                     (counted_train_batch m dataloaders args epoch s x w' seen' H))
             {| val_max := val_max st; best_model := best_model st;
                optimizer := optimizer st; t_accu_sum := PyInt 0; t_accu_cnt := 0 |}).
    exact Hmax.
  - rewrite bind_lift_raise. now split.
Qed.

(** The copies of a run of [train], log line by log line. *)
Lemma train_counted (m : loc) (dataloaders : dict (list Batch)) (opt : Optimizer)
    (args : Args) (w : World) :
  counted [] (train m dataloaders opt args w).
Proof.
  unfold train.
  match goal with
  | |- context [bind (foldM ?f ?xs ?s) ?k] =>
      set (loop := foldM f xs s) in *; set (last := k) in *
  end.
  assert (Hloop : counted [] (loop w)).
  { subst loop.
    apply (counted_foldM (train_epoch m dataloaders args) (range 1 (epochs args))
             (fun s e w' seen' H =>
                conj (tracked_train_epoch m dataloaders args s e w' seen' H)
                     (counted_train_epoch m dataloaders args s e w' seen' H))
             {| val_max := Fin 0; best_model := m; optimizer := opt;
                t_accu_sum := PyInt 0; t_accu_cnt := 0 |} w []).
    reflexivity. }
  destruct Hloop as [Hhead Hcount]. unfold counted. rewrite bind_events.
  destruct (outcome (loop w)) as [st|e]; [|rewrite app_nil_r; now split].
  destruct (report_run (best_model st) dataloaders args (final (loop w)))
    as [[Hev _] | (tr & va & te & Hev & _)]; fold (last st) in Hev; rewrite Hev;
    rewrite copies_before_log_app, copy_counts_app, logged_vals_app by reflexivity;
    cbn [copy_counts logged_vals flat_map app]; rewrite !app_nil_r; now split.
Qed.


End Best.

(** ** The schedule and the best model together *)

Section ScheduleOfTrain.

Context {L : Library}.

(** C6.  The epochs of [train] are the integers from 1 up to, and not
    including, the epoch count.  In every epoch and after every training
    batch the live model is evaluated on the splits other than ["train"] and
    one log line is printed for that epoch; after the last epoch the best
    model so far (the latest deep copy, or the live model when there is
    none) is evaluated once on all the splits and the line of the best
    accuracies is printed.  A run that raises stops somewhere along this
    schedule; a run that returns has gone through all of it. *)
Theorem train_schedule (m : loc) (dataloaders : dict (list Batch)) (opt : Optimizer)
    (args : Args) (batches : list Batch) (w : World) :
  dict_get dataloaders "train" = Ok batches ->
  let others := keys (filter (fun kv => negb (String.eqb (fst kv) "train")) dataloaders) in
  let steps :=
    flat_map (fun epoch => flat_map (fun _ : Batch => [SEval m others; SLog epoch]) batches)
             (range 1 (epochs args)) in
  let run := train m dataloaders opt args w in
  (forall epoch, In epoch (range 1 (epochs args)) <-> 1 <= epoch < epochs args) /\
  (exists best, prefix (shape (events run)) (steps ++ [SEval best (keys dataloaders); SBest])) /\
  (outcome run = Ok tt ->
   shape (events run)
   = steps ++ [SEval (last_snapshot m (events run)) (keys dataloaders); SBest]).
Proof.
  intros Hget others steps run.
  split; [intros epoch; apply range_spec|].
  subst run. unfold train.
  match goal with
  | |- context [bind (foldM ?f ?xs ?s) ?k] =>
      set (loop := foldM f xs s) in *; set (last := k) in *
  end.
  assert (Hshape : follows loop steps).
  { subst loop. apply follows_foldM. intros s epoch. now apply follows_train_epoch. }
  assert (Hbest : tracked [] m (loop w)).
  { subst loop.
    apply (tracked_foldM (train_epoch m dataloaders args) (range 1 (epochs args))
             (fun s e w' seen' H => tracked_train_epoch m dataloaders args s e w' seen' H)
             {| val_max := Fin 0; best_model := m; optimizer := opt;
                t_accu_sum := PyInt 0; t_accu_cnt := 0 |} w []).
    reflexivity. }
  destruct (Hshape w) as [[r1 Hpre] Hok].
  destruct Hbest as (_ & _ & _ & Hlast).
  rewrite bind_events, bind_outcome, shape_app, last_snapshot_app.
  destruct (outcome (loop w)) as [st|e] eqn:Hout.
  - rewrite (Hok st eq_refl). destruct (Hlast st eq_refl) as [_ Hb].
    destruct (report_run (best_model st) dataloaders args (final (loop w)))
      as [[Hev [e He]] | (tr & va & te & Hev & Hdone)];
      fold (last st) in Hev |- *; rewrite Hev; cbn [shape flat_map shape_of app].
    + split.
      * exists (best_model st), [SBest]. now rewrite <- app_assoc.
      * fold (last st) in He. rewrite He. discriminate.
    + split.
      * exists (best_model st), []. now rewrite app_nil_r.
      * intros _. cbn [last_snapshot fold_left]. now rewrite Hb.
  - cbn [shape flat_map]. rewrite app_nil_r. split; [|discriminate].
    exists m, (r1 ++ [SEval m (keys dataloaders); SBest]).
    rewrite Hpre at 1. now rewrite app_assoc.
Qed.

End ScheduleOfTrain.

(** C6 on the small instance: three epochs of one batch. *)
Lemma train_schedule_witness :
  let run := train 0%nat Toy.loaders O (Toy.args 4) Toy.world in
  (forall epoch, In epoch (range 1 4) <-> 1 <= epoch < 4) /\
  (exists best,
     prefix (shape (events run))
       ([SEval 0%nat ["val"; "test"]; SLog 1;
         SEval 0%nat ["val"; "test"]; SLog 2;
         SEval 0%nat ["val"; "test"]; SLog 3]
        ++ [SEval best ["train"; "val"; "test"]; SBest])) /\
  (outcome run = Ok tt ->
   shape (events run)
   = [SEval 0%nat ["val"; "test"]; SLog 1;
      SEval 0%nat ["val"; "test"]; SLog 2;
      SEval 0%nat ["val"; "test"]; SLog 3]
     ++ [SEval (last_snapshot 0%nat (events run)) ["train"; "val"; "test"]; SBest]).
Proof.
  exact (train_schedule 0%nat Toy.loaders O (Toy.args 4)
           [Toy.mk_batch [1; 0] (fun _ => 1%nat)] Toy.world eq_refl).
Defined.

(** The run of the small instance returns, so it goes through the whole
    schedule, and its last evaluation is on the second copy. *)
Example train_small_run :
  outcome (train 0%nat Toy.loaders O (Toy.args 4) Toy.world) = Ok tt /\
  shape (events (train 0%nat Toy.loaders O (Toy.args 4) Toy.world))
  = [SEval 0%nat ["val"; "test"]; SLog 1;
     SEval 0%nat ["val"; "test"]; SLog 2;
     SEval 0%nat ["val"; "test"]; SLog 3;
     SEval 2%nat ["train"; "val"; "test"]; SBest].
Proof. vm_compute. split; reflexivity. Qed.

(** The run of the small instance logs the validation accuracies 0.6, 0.6
    and 0.7. *)
Example small_run_vals :
  logged_vals (events (train 0%nat Toy.loaders O (Toy.args 4) Toy.world))
  = [Fin (6 # 10); Fin (6 # 10); Fin (7 # 10)].
Proof. vm_compute. reflexivity. Qed.


(** ** The alias of the live model *)

Lemma filter_nil_forall {A} (f : A -> bool) (l : list A) :
  List.length (filter f l) = 0%nat -> Forall (fun x => f x = false) l.
Proof.
  induction l as [|x l IH]; cbn [filter]; intros H; [constructor|].
  destruct (f x) eqn:Hf; [discriminate|]. constructor; auto.
Qed.

Lemma forall_filter_nil {A} (f : A -> bool) (l : list A) :
  Forall (fun x => f x = false) l -> List.length (filter f l) = 0%nat.
Proof.
  induction 1 as [|x l Hx _ IH]; cbn [filter]; [reflexivity|]. now rewrite Hx.
Qed.

Section Alias.

Context {L : Library}.

Lemma last_snapshot_none (b : loc) (evs : list Event) :
  Forall (fun e => is_snapshot e = false) evs -> last_snapshot b evs = b.
Proof.
  unfold last_snapshot. induction 1 as [|e evs He _ IH]; [reflexivity|].
  cbn [fold_left]. destruct e; try discriminate; exact IH.
Qed.

(** The evaluations of the training loop are on the live model. *)
Lemma loop_evals_live (m : loc) dataloaders (args : Args) xs st :
  emits (fun e => match e with EvalCall b _ => b = m | _ => True end)
        (foldM (train_epoch m dataloaders args) xs st).
Proof.
  apply emits_foldM. intros s epoch. unfold train_epoch, train_batch, keep_best, deepcopy.
  quiet; try exact I.
  intros w. rewrite test_events. now repeat constructor.
Qed.

(** C9.  [best_model] starts as the live model itself.  In a run whose
    logged validation accuracies never exceed 0, no deep copy is ever taken
    and every evaluation, the last one included, is on the live model, the
    object that the optimizer has been updating: a run that returns ends
    with the evaluation of the live model on all the splits and the line of
    the best accuracies. *)
Theorem best_model_alias (m : loc) (dataloaders : dict (list Batch)) (opt : Optimizer)
    (args : Args) (w : World) :
  let x := train m dataloaders opt args w in
  Forall (fun v => float_lt (Fin 0) v = false) (logged_vals (events x)) ->
  Forall (fun e => match e with
                   | Snapshot _ => False
                   | EvalCall b _ => b = m
                   | _ => True
                   end) (events x) /\
  (outcome x = Ok tt ->
   exists pre tr va te,
     events x = pre ++ [EvalCall m (keys dataloaders); Print (LBest tr va te)]).
Proof.
  intros x. subst x. unfold train.
  match goal with
  | |- context [bind (foldM ?f ?xs ?s) ?k] =>
      set (loop := foldM f xs s) in *; set (last := k) in *
  end.
  assert (Hloop : tracked [] m (loop w)).
  { subst loop.
    apply (tracked_foldM (train_epoch m dataloaders args) (range 1 (epochs args))
             (fun s e w' seen' H => tracked_train_epoch m dataloaders args s e w' seen' H)
             {| val_max := Fin 0; best_model := m; optimizer := opt;
                t_accu_sum := PyInt 0; t_accu_cnt := 0 |} w []).
    reflexivity. }
  destruct Hloop as (Hclean & Hsnap & Hcount & Hok).
  pose proof (loop_evals_live m dataloaders args (range 1 (epochs args))
                {| val_max := Fin 0; best_model := m; optimizer := opt;
                   t_accu_sum := PyInt 0; t_accu_cnt := 0 |} w) as Hlive.
  fold loop in Hlive.
  rewrite bind_events, bind_outcome. intros Hvals.
  rewrite logged_vals_app in Hvals. apply Forall_app in Hvals. destruct Hvals as [Hvals _].
  assert (Hnone : Forall (fun e => is_snapshot e = false) (events (loop w))).
  { apply filter_nil_forall. rewrite Hcount, Hsnap. apply forall_filter_nil.
    now apply no_improvement. }
  assert (Hboth : Forall (fun e => match e with
                                   | Snapshot _ => False
                                   | EvalCall b _ => b = m
                                   | _ => True
                                   end) (events (loop w))).
  { rewrite Forall_forall in *. intros e Hin.
    specialize (Hnone e Hin). specialize (Hlive e Hin).
    destruct e; try exact I; [exact Hlive | discriminate]. }
  destruct (outcome (loop w)) as [st|e].
  - destruct (Hok st eq_refl) as [_ Hbest].
    rewrite (last_snapshot_none m _ Hnone) in Hbest.
    destruct (report_run (best_model st) dataloaders args (final (loop w)))
      as [[Hev [e He]] | (tr & va & te & Hev & Hout)];
      fold (last st) in Hev |- *; rewrite Hev, Hbest.
    + split.
      * apply Forall_app. split; [exact Hboth | now repeat constructor].
      * fold (last st) in He. rewrite He. discriminate.
    + split.
      * apply Forall_app. split; [exact Hboth | now repeat constructor].
      * intros _. now exists (events (loop w)), tr, va, te.
  - rewrite app_nil_r. split; [exact Hboth | discriminate].
Qed.

End Alias.

(** ** Evaluation without candidate edges *)

Lemma dict_set_Forall {V} (P : string * V -> Prop) (d : dict V) (k : string) (v : V) :
  Forall P d -> P (k, v) -> (forall w, P (k, w) -> P (k, v)) ->
  (forall k' w, String.eqb k' k = true -> P (k', w) -> P (k', v)) ->
  Forall P (dict_set d k v).
Proof.
  intros Hd Hkv _ Hsame. induction d as [|[k' w] d IH]; cbn [dict_set].
  - now repeat constructor.
  - inversion Hd as [|x l Hx Hrest]; subst.
    destruct (String.eqb k' k) eqn:Hk.
    + constructor; [|exact Hrest]. now apply (Hsame k' w).
    + constructor; [exact Hx | now apply IH].
Qed.

Lemma dict_set_not_nil {V} (d : dict V) (k : string) (v : V) : dict_set d k v <> [].
Proof. destruct d as [|[k' w] d]; cbn; [discriminate|]. destruct (String.eqb k' k); discriminate. Qed.

Section NoCandidate.

Context {L : Library}.

(** Scores of a label index without candidates: every relation type gets
    the empty score tensor. *)
Lemma score_edges_empty (emb : dict (list (list float))) (labels : dict (list Z))
    (idx : dict (list (Z * Z))) (n1 : list (list float)) :
  dict_get emb "n1" = Ok n1 ->
  Forall (fun kv => snd kv = [] /\ dict_get labels (fst kv) = Ok []) idx ->
  exists pred,
    score_edges emb idx = Ok pred /\
    Forall (fun kv => snd kv = [] /\ dict_get labels (fst kv) = Ok []) pred /\
    (idx = [] -> pred = []) /\ (idx <> [] -> pred <> []).
Proof.
  intros Hn1 Hidx. unfold score_edges. rewrite Hn1.
  match goal with |- context [fold_result ?f idx []] => set (body := f) end.
  assert (Hgen : forall acc,
            Forall (fun kv => snd kv = [] /\ dict_get labels (fst kv) = Ok []) acc ->
            exists pred,
              fold_result body idx acc = Ok pred /\
              Forall (fun kv => snd kv = [] /\ dict_get labels (fst kv) = Ok []) pred /\
              (idx = [] -> pred = acc) /\ (idx <> [] -> pred <> [])).
  { induction Hidx as [|[k cols] idx [Hcols Hlab] _ IH]; intros acc Hacc.
    - exists acc. cbn. repeat split; auto; congruence.
    - cbn [fold_result]. cbn in Hcols, Hlab. subst cols.
      unfold body at 1. cbn [rbind map_result map combine].
      destruct (IH (dict_set acc k [])) as (pred & Hfold & Hall & Hnil & Hcons).
      + apply dict_set_Forall; auto.
        intros k' w Hk' [_ Hw]. cbn [fst snd] in *. split; [reflexivity | exact Hw].
      + exists pred. split; [exact Hfold|]. split; [exact Hall|]. split; [discriminate|].
        intros _. destruct idx as [|e idx'].
        * rewrite (Hnil eq_refl). apply dict_set_not_nil.
        * apply Hcons. discriminate. }
  destruct (Hgen [] (Forall_nil _)) as (pred & Hfold & Hall & Hnil & Hcons).
  exists pred. repeat split; auto.
Qed.

(** Counting over a prediction without candidates: the count of candidates
    stays, and the count of matches becomes a numpy zero as soon as there is
    a relation type. *)
Lemma tally_empty (labels : dict (list Z)) (pred : dict (list float)) :
  Forall (fun kv => snd kv = [] /\ dict_get labels (fst kv) = Ok []) pred ->
  forall acc num,
    number_val acc = 0 ->
    tally sigmoid pred labels acc num
    = Ok (match pred with [] => acc | _ => NpInt64 0 end, num).
Proof.
  induction 1 as [|[k score] pred [Hs Hl] _ IH]; intros acc num Hacc.
  - reflexivity.
  - cbn in Hs, Hl. subst score.
    replace (tally sigmoid ((k, []) :: pred) labels acc num)
      with (tally sigmoid pred labels (np_add acc 0) (num + 0))
      by (cbn [tally]; rewrite Hl; reflexivity).
    unfold np_add. rewrite Hacc. change (wrap64 (0 + 0)) with 0.
    rewrite IH by reflexivity. rewrite Z.add_0_r.
    now destruct pred.
Qed.

Lemma test_batch_empty (m : loc) (args : Args) (acc : number) (num : option Z)
    (batch : Batch) (w : World) :
  no_candidate args batch ->
  number_val acc = 0 ->
  exists acc' w',
    test_batch m args (acc, num) batch w = (Ok (acc', Some 0), w', []) /\
    number_val acc' = 0 /\
    (acc' = acc \/ acc' = NpInt64 0) /\
    (no_relation args batch -> acc' = acc) /\
    (some_relation args batch -> acc' = NpInt64 0).
Proof.
  intros (b' & Hto & Hidx & Hconv) Hacc.
  unfold test_batch. rewrite Hto, bind_lift_ok.
  unfold forward, deref. rewrite !bind_run. cbn [fst].
  destruct (Hconv (dropout (heap w m)) (training (heap w m))
              (conv1 (heap w m)) (conv2 (heap w m)) (rng w)) as (emb & g' & n1 & Hc & Hn1).
  rewrite Hc.
  destruct (score_edges_empty emb (edge_label b') (edge_label_index b') n1 Hn1 Hidx)
    as (pred & Hscore & Hpred & Hnil & Hcons).
  rewrite Hscore. cbn [lift app].
  rewrite (tally_empty (edge_label b') pred Hpred acc 0 Hacc). cbn.
  eexists _, _. split; [reflexivity|].
  destruct (edge_label_index b') as [|e idx] eqn:Hindex.
  - rewrite (Hnil eq_refl). repeat split; auto.
    intros Hsome. exfalso. now apply (Hsome b' Hto).
  - assert (Hne : pred <> []) by (apply Hcons; discriminate).
    destruct pred as [|x pred]; [now exfalso|]. repeat split; auto.
    intros Hno. specialize (Hno b' Hto). congruence.
Qed.

Lemma test_batches_empty (m : loc) (args : Args) (batches : list Batch) :
  Forall (no_candidate args) batches ->
  forall acc num w,
    number_val acc = 0 ->
    exists acc' num' w',
      foldM (test_batch m args) batches (acc, num) w = (Ok (acc', num'), w', []) /\
      number_val acc' = 0 /\
      (acc' = acc \/ acc' = NpInt64 0) /\
      (batches <> [] -> num' = Some 0) /\
      (Forall (no_relation args) batches -> acc' = acc) /\
      (Exists (some_relation args) batches -> acc' = NpInt64 0).
Proof.
  induction 1 as [|b batches Hb _ IH]; intros acc num w Hacc.
  - exists acc, num, w. cbn. repeat split; auto.
    + congruence.
    + intros H. inversion H.
  - destruct (test_batch_empty m args acc num b w Hb Hacc)
      as (acc1 & w1 & Hrun & Hval & Hor & Hno & Hsome).
    destruct (IH acc1 (Some 0) w1 Hval)
      as (acc2 & num2 & w2 & Hrun2 & Hval2 & Hor2 & Hnum2 & Hno2 & Hsome2).
    exists acc2, num2, w2. cbn [foldM]. rewrite bind_run, Hrun, Hrun2. cbn [app].
    split; [reflexivity|]. split; [exact Hval2|].
    split; [|split; [|split]].
    + destruct Hor as [-> | ->], Hor2 as [-> | ->]; auto.
    + intros _. destruct batches as [|b2 batches].
      * cbn in Hrun2. now injection Hrun2 as _ <- _.
      * apply Hnum2. discriminate.
    + intros Hall. inversion Hall as [|x l Hx Hrest]; subst.
      rewrite (Hno2 Hrest). now apply Hno.
    + intros Hex. inversion Hex as [x l Hx | x l Hrest]; subst.
      * rewrite (Hsome Hx) in Hor2. now destruct Hor2.
      * now apply Hsome2.
Qed.

(** C8, as the code has it.  On a split that is not empty and whose batches
    carry no candidate edge, wherever the split stands among the splits and
    whatever the splits before it have left in [num]: when no batch has a
    relation type, forming the ratio raises a division by zero, [test]
    raises it as soon as the splits before have been evaluated, and nothing
    that follows the call can recover from it; when some batch has a
    relation type the ratio is a numpy division, the accuracy of the split
    is a not-a-number instead of an exception, and the evaluation goes on. *)
Theorem test_without_candidates (m : loc) (args : Args) (mode : string)
    (batches : list Batch) :
  batches <> [] ->
  Forall (no_candidate args) batches ->
  (Forall (no_relation args) batches ->
   (forall accs num w,
      outcome (test_split m args (accs, num) (mode, batches) w) = Raise ZeroDivisionError) /\
   (forall before rest w accs,
      outcome (test m before args w) = Ok accs ->
      outcome (test m (before ++ (mode, batches) :: rest) args w) = Raise ZeroDivisionError /\
      forall (A : Type) (k : dict float -> M A),
        outcome (bind (test m (before ++ (mode, batches) :: rest) args) k w)
        = Raise ZeroDivisionError)) /\
  (Exists (some_relation args) batches ->
   (forall accs num w,
      outcome (test_split m args (accs, num) (mode, batches) w)
      = Ok (dict_set accs mode NaN, Some 0) /\
      events (test_split m args (accs, num) (mode, batches) w) = []) /\
   (forall before w accs,
      outcome (test m before args w) = Ok accs ->
      outcome (test m (before ++ [(mode, batches)]) args w) = Ok (dict_set accs mode NaN))).
Proof.
  intros Hne Hall.
  assert (Hsplit : forall num w0,
            exists acc' w',
              foldM (test_batch m args) batches (PyInt 0, num) w0
              = (Ok (acc', Some 0), w', []) /\
              (Forall (no_relation args) batches -> acc' = PyInt 0) /\
              (Exists (some_relation args) batches -> acc' = NpInt64 0)).
  { intros num w0.
    destruct (test_batches_empty m args batches Hall (PyInt 0) num w0 eq_refl)
      as (acc' & num' & w' & Hrun & _ & _ & Hnum & Hno & Hsome).
    rewrite (Hnum Hne) in Hrun. now exists acc', w'. }
  assert (Hbefore : forall before later w accs,
            outcome (test m before args w) = Ok accs ->
            exists num w1,
              outcome (test m (before ++ later) args w)
              = match outcome (foldM (test_split m args) later (accs, num) w1) with
                | Ok st => Ok (fst st)
                | Raise e => Raise e
                end).
  { intros before later w accs Hok. rewrite test_outcome in Hok |- *.
    rewrite foldM_app, bind_outcome.
    destruct (outcome (foldM (test_split m args) before _ _)) as [[accs' num]|e];
      [|discriminate].
    cbn [fst] in Hok. injection Hok as ->. now eexists _, _. }
  split.
  - intros Hno.
    assert (Hraise : forall accs num w,
              outcome (test_split m args (accs, num) (mode, batches) w)
              = Raise ZeroDivisionError).
    { intros accs num w. unfold test_split. rewrite bind_outcome.
      destruct (Hsplit num w) as (acc' & w' & Hrun & Hacc & _).
      rewrite Hrun. cbn [outcome fst snd]. rewrite (Hacc Hno). reflexivity. }
    split; [exact Hraise|].
    intros before rest w accs Hok.
    assert (Htest : outcome (test m (before ++ (mode, batches) :: rest) args w)
                    = Raise ZeroDivisionError).
    { destruct (Hbefore before ((mode, batches) :: rest) w accs Hok) as (num & w1 & ->).
      cbn [foldM]. rewrite bind_outcome. now rewrite Hraise. }
    split; [exact Htest|].
    intros A k. rewrite bind_outcome. now rewrite Htest.
  - intros Hsome.
    assert (Hnan : forall accs num w,
              exists w', test_split m args (accs, num) (mode, batches) w
                         = (Ok (dict_set accs mode NaN, Some 0), w', [])).
    { intros accs num w. unfold test_split. rewrite bind_run.
      destruct (Hsplit num w) as (acc' & w' & Hrun & _ & Hacc).
      rewrite Hrun, (Hacc Hsome). now eexists. }
    split.
    + intros accs num w. destruct (Hnan accs num w) as [w' ->]. now split.
    + intros before w accs Hok.
      destruct (Hbefore before [(mode, batches)] w accs Hok) as (num & w1 & ->).
      cbn [foldM]. rewrite bind_outcome.
      destruct (Hnan accs num w1) as [w' ->]. reflexivity.
Qed.

End NoCandidate.

(** C8 on a test split that follows a validation split of two candidate
    edges: its only batch has no relation type, or one relation type
    without candidate edge. *)
Lemma test_without_candidates_witness :
  outcome (test 0%nat ([("val", [Sample.all_right])] ++ [("test", [Toy.bare])])
             (Toy.args 4) Toy.world) = Raise ZeroDivisionError /\
  outcome (test 0%nat ([("val", [Sample.all_right])] ++ [("test", [Toy.hollow])])
             (Toy.args 4) Toy.world)
  = Ok (dict_set [("val", Fin (2 # 2))] "test" NaN).
Proof.
  split.
  - apply (test_without_candidates 0%nat (Toy.args 4) "test" [Toy.bare])
      with (accs := [("val", Fin (2 # 2))]).
    + discriminate.
    + repeat constructor. eexists. split; [reflexivity|]. split; [constructor|].
      intros p t c1 c2 g. now eexists _, _, _.
    + repeat constructor. intros b' Hb. now injection Hb as <-.
    + vm_compute. reflexivity.
  - apply (test_without_candidates 0%nat (Toy.args 4) "test" [Toy.hollow]).
    + discriminate.
    + repeat constructor. eexists. split; [reflexivity|]. split.
      * repeat constructor.
      * intros p t c1 c2 g. now eexists _, _, _.
    + apply Exists_cons_hd. intros b' Hb. injection Hb as <-. discriminate.
    + vm_compute. reflexivity.
Defined.

(** A split whose only batch has a relation type and no candidate edge is
    evaluated without any exception: its accuracy is a not-a-number. *)
Lemma zero_candidates_no_exception :
  Forall (fun b : Batch => Forall (fun kv => snd kv = []) (edge_label_index b))
         [Toy.hollow] /\
  outcome (test 0%nat Toy.hollow_split (Toy.args 4) Toy.world) = Ok [("val", NaN)] /\
  outcome (test 0%nat Toy.hollow_split (Toy.args 4) Toy.world) <> Raise ZeroDivisionError.
Proof. vm_compute. repeat split; try discriminate. repeat constructor. Qed.

(** An empty split that comes first leaves [num] unbound. *)
Example empty_split_unbound :
  outcome (test 0%nat [("val", [])] (Toy.args 4) Toy.world) = Raise UnboundLocalError.
Proof. reflexivity. Qed.

(** An empty split that comes second is divided by the candidates of the
    split before it. *)
Example empty_split_stale :
  outcome (test 0%nat [("val", [Toy.mk_batch [1; 1] (fun _ => 2%nat)]); ("test", [])]
             (Toy.args 4) Toy.world)
  = Ok [("val", Fin (2 # 2)); ("test", Fin (0 # 2))].
Proof. vm_compute. reflexivity. Qed.

(** ** Accuracy over several batches *)

Lemma wrap64_small (z : Z) : - 2 ^ 63 <= z < 2 ^ 63 -> wrap64 z = z.
Proof.
  intros H. unfold wrap64. rewrite Z.mod_small; lia.
Qed.

Lemma np_sum_bounds (hits : list bool) : 0 <= np_sum hits <= len hits.
Proof.
  unfold np_sum, len.
  assert (H : forall s, s <= fold_left (fun s (b : bool) => if b then s + 1 else s) hits s
                        <= s + Z.of_nat (List.length hits)).
  { induction hits as [|b hits IH]; intros s; cbn [fold_left List.length].
    - lia.
    - destruct b; specialize (IH (s + 1)) as H1; specialize (IH s) as H2; lia. }
  specialize (H 0). lia.
Qed.

Lemma np_equal_same_length (a b : list Z) :
  List.length a = List.length b ->
  exists hits, np_equal a b = Ok hits /\ List.length hits = List.length a.
Proof.
  intros H. unfold np_equal. rewrite H, Nat.eqb_refl.
  eexists. split; [reflexivity|].
  rewrite length_map, length_combine, H. apply Nat.min_id.
Qed.

(** The counting loop of lines 139-145 and 186-192 on a prediction and
    labels of the same shape: the candidates of all the relation types are
    added to [num], and at most as many matches are added to [acc]. *)
Lemma tally_bounds {L : Library} (labels : dict (list Z)) (pred : dict (list float)) :
  same_shape pred labels ->
  forall acc num,
    0 <= number_val acc ->
    number_val acc + candidates pred < 2 ^ 63 ->
    exists acc',
      tally sigmoid pred labels acc num = Ok (acc', num + candidates pred) /\
      number_val acc <= number_val acc' <= number_val acc + candidates pred.
Proof.
  induction 1 as [|[k score] pred [y [Hy Hlen]] _ IH]; intros acc num Hacc Hmax.
  - exists acc. cbn. rewrite Z.add_0_r. split; [reflexivity | lia].
  - cbn [fst snd] in Hy, Hlen. cbn [candidates] in Hmax |- *.
    assert (Hcand : 0 <= candidates pred).
    { clear. induction pred as [|[k s] pred IH]; cbn [candidates]; unfold len in *; lia. }
    cbn [tally]. rewrite Hy. cbn [rbind].
    destruct (np_equal_same_length (predict_label (map sigmoid score)) y)
      as [hits [Heq Hhits]].
    { now rewrite predict_label_length, length_map. }
    rewrite Heq. cbn [rbind].
    rewrite predict_label_length, length_map in Hhits.
    pose proof (np_sum_bounds hits) as Hsum. unfold len in Hsum. rewrite Hhits in Hsum.
    assert (Hlen' : len (predict_label (map sigmoid score)) = len score).
    { unfold len. now rewrite predict_label_length, length_map. }
    rewrite Hlen'. unfold len in *.
    destruct (IH (np_add acc (np_sum hits)) (num + Z.of_nat (List.length score)))
      as [acc' [Hrun Hbound]].
    + unfold np_add. cbn [number_val]. rewrite wrap64_small; lia.
    + unfold np_add. cbn [number_val]. rewrite wrap64_small; lia.
    + exists acc'. split.
      * rewrite Hrun. f_equal. f_equal. lia.
      * unfold np_add in Hbound. cbn [number_val] in Hbound.
        rewrite wrap64_small in Hbound; lia.
Qed.

(** The ratio of a count of matches to a positive count of candidates that
    bounds it lies between 0 and 1. *)
Lemma true_div_unit (acc : number) (num : Z) :
  0 <= number_val acc <= num -> 0 < num ->
  exists q, true_div acc num = Ok (Fin q) /\ (0 <= q <= 1)%Q.
Proof.
  intros Hacc Hnum.
  exists (inject_Z (number_val acc) / inject_Z num)%Q. split.
  - unfold true_div.
    destruct acc as [a|a]; cbn [number_val];
      replace (num =? 0) with false by (symmetry; apply Z.eqb_neq; lia); reflexivity.
  - assert (Hpos : (0 < inject_Z num)%Q) by (change 0%Q with (inject_Z 0); rewrite <- Zlt_Qlt; lia).
    split.
    + apply Qle_shift_div_l; [exact Hpos|]. rewrite Qmult_0_l.
      change 0%Q with (inject_Z 0). rewrite <- Zle_Qle. lia.
    + apply Qle_shift_div_r; [exact Hpos|]. rewrite Qmult_1_l.
      rewrite <- Zle_Qle. lia.
Qed.

(** The accuracy of one batch that has a candidate edge, counted from zero
    as both loops do for their first batch, lies between 0 and 1. *)
Lemma batch_accuracy_unit {L : Library} (labels : dict (list Z)) (pred : dict (list float)) :
  same_shape pred labels ->
  0 < candidates pred < 2 ^ 63 ->
  exists acc q,
    tally sigmoid pred labels (PyInt 0) 0 = Ok (acc, candidates pred) /\
    true_div acc (candidates pred) = Ok (Fin q) /\
    (0 <= q <= 1)%Q.
Proof.
  intros Hshape Hcand.
  destruct (tally_bounds labels pred Hshape (PyInt 0) 0) as [acc [Hrun Hbound]];
    cbn [number_val]; try lia.
  cbn [number_val] in Hbound. rewrite Z.add_0_l in Hrun, Hbound.
  destruct (true_div_unit acc (candidates pred)) as [q [Hq Hunit]]; try lia.
  now exists acc, q.
Qed.

(** The counts of the batches of [Toy.two_batches], step by step: two
    matches and two candidates in each batch, then four matches over two. *)
Example two_batches_counts :
  tally Toy.squash [("0", [Fin 1; Fin 1])] [("0", [1; 1])] (PyInt 0) 0 = Ok (NpInt64 2, 2) /\
  tally Toy.squash [("0", [Fin 1; Fin 1])] [("0", [1; 1])] (NpInt64 2) 0 = Ok (NpInt64 4, 2) /\
  true_div (NpInt64 4) 2 = Ok (Fin (4 # 2)).
Proof. repeat split; reflexivity. Qed.

(** C1 on the code.  The counts of one batch with a candidate edge give a
    ratio between 0 and 1.  But a batch of [test] counts its candidates from
    0 whatever the batches before it have counted, while its matches add to
    theirs: at a split of two batches, two candidates each, all four
    predicted right, [test] divides the four matches by the two candidates
    of the last batch and reports the accuracy 2, outside the unit interval. *)
Theorem test_two_batches_reports_2 :
  (forall (L : Library) labels pred,
     same_shape pred labels -> 0 < candidates pred < 2 ^ 63 ->
     exists acc q,
       tally sigmoid pred labels (PyInt 0) 0 = Ok (acc, candidates pred) /\
       true_div acc (candidates pred) = Ok (Fin q) /\ (0 <= q <= 1)%Q) /\
  (forall (L : Library) (m : loc) (args : Args) acc n1 n2 (b : Batch) (w : World),
     test_batch m args (acc, n1) b w = test_batch m args (acc, n2) b w) /\
  outcome (test 0%nat Toy.two_batches (Toy.args 4) Toy.world) = Ok [("val", Fin (4 # 2))] /\
  ~ (4 # 2 <= 1)%Q.
Proof.
  split; [intros L; exact (@batch_accuracy_unit L)|].
  split; [reflexivity|].
  split; [vm_compute; reflexivity | intros H; now apply Qle_bool_iff in H].
Qed.

(** C5 on the code.  The predicted labels follow the threshold rule, with
    the label 0 at exactly one half.  At a split of two batches, two
    candidates each, the first alone has accuracy 1 and the second alone has
    accuracy 0, so two of the four candidates match; [test] on both reports
    2 / 2 and not 2 / 4. *)
Theorem test_right_then_wrong_reports_1 :
  (forall p, predict_label p = map threshold p) /\
  threshold half = 0 /\
  outcome (test 0%nat [("val", [Toy.mk_batch [1; 1] (fun _ => 2%nat)])]
             (Toy.args 4) Toy.world) = Ok [("val", Fin (2 # 2))] /\
  outcome (test 0%nat [("val", [Toy.mk_batch [1; 1] (fun _ => 0%nat)])]
             (Toy.args 4) Toy.world) = Ok [("val", Fin (0 # 2))] /\
  outcome (test 0%nat Toy.right_then_wrong (Toy.args 4) Toy.world)
  = Ok [("val", Fin (2 # 2))] /\
  ~ (2 # 2 == 2 # 4)%Q.
Proof.
  split; [exact predict_label_threshold|].
  split; [exact threshold_half|].
  repeat split; try (vm_compute; reflexivity). intros H. discriminate H.
Qed.

(** The scenario of the specification: the probabilities 0.9, 0.2, 0.4 and
    0.6 against the labels 1, 0, 1, 0 give the labels 1, 0, 0, 1 and two
    matches out of four. *)
Example accuracy_scenario :
  predict_label [Fin (9 # 10); Fin (2 # 10); Fin (4 # 10); Fin (6 # 10)] = [1; 0; 0; 1] /\
  option_map np_sum
    (match np_equal [1; 0; 0; 1] [1; 0; 1; 0] with Ok h => Some h | Raise _ => None end)
  = Some 2.
Proof. split; reflexivity. Qed.

(** C9 on the small instance with a validation split that is always
    predicted wrong. *)
Lemma best_model_alias_witness :
  Forall (fun v => float_lt (Fin 0) v = false)
         (logged_vals (events (train 0%nat Toy.loaders_flat O (Toy.args 4) Toy.world))) /\
  (Forall (fun e => match e with
                    | Snapshot _ => False
                    | EvalCall b _ => b = 0%nat
                    | _ => True
                    end)
          (events (train 0%nat Toy.loaders_flat O (Toy.args 4) Toy.world)) /\
   (outcome (train 0%nat Toy.loaders_flat O (Toy.args 4) Toy.world) = Ok tt ->
    exists pre tr va te,
      events (train 0%nat Toy.loaders_flat O (Toy.args 4) Toy.world)
      = pre ++ [EvalCall 0%nat (keys Toy.loaders_flat); Print (LBest tr va te)])).
Proof.
  assert (H : Forall (fun v => float_lt (Fin 0) v = false)
                (logged_vals (events (train 0%nat Toy.loaders_flat O (Toy.args 4)
                                        Toy.world)))).
  { vm_compute. repeat constructor. }
  split; [exact H|].
  exact (best_model_alias 0%nat Toy.loaders_flat O (Toy.args 4) Toy.world H).
Defined.

(** * Further properties *)

(** ** The transformed graph is a graph *)

Lemma fold_result_inv {A S} (P : S -> Prop) (f : S -> A -> result S) (xs : list A) :
  (forall s x s', P s -> f s x = Ok s' -> P s') ->
  forall s s', P s -> fold_result f xs s = Ok s' -> P s'.
Proof.
  intros Hstep. induction xs as [|x xs IH]; intros s s' Hs Hrun; cbn [fold_result] in Hrun.
  - now injection Hrun as <-.
  - destruct (f s x) as [s1|e] eqn:Hf; cbn [rbind] in Hrun; [|discriminate].
    eapply IH; [eapply Hstep; eauto | exact Hrun].
Qed.

Lemma set_node_ids {N} (ns : list (Z * N)) (n : Z) (a : N) :
  map fst (set_node ns n a) = map fst ns \/
  (~ In n (map fst ns) /\ map fst (set_node ns n a) = map fst ns ++ [n]).
Proof.
  induction ns as [|[m b] ns IH]; cbn [set_node map fst].
  - right. split; [intros [] | reflexivity].
  - destruct (m =? n) eqn:Hm.
    + now left.
    + apply Z.eqb_neq in Hm. cbn [map fst].
      destruct IH as [-> | [Hnot ->]]; [now left|].
      right. split; [|reflexivity]. intros [H | H]; [now apply Hm | now apply Hnot].
Qed.

Lemma set_node_has {N} (ns : list (Z * N)) (n : Z) (a : N) :
  In n (map fst (set_node ns n a)).
Proof.
  induction ns as [|[m b] ns IH]; cbn [set_node map fst].
  - now left.
  - destruct (m =? n) eqn:Hm; cbn [map fst].
    + left. now apply Z.eqb_eq.
    + now right.
Qed.

Lemma touch_node_ids (ns : list (Z * option node_data)) (n : Z) :
  map fst (touch_node ns n) = map fst ns \/
  (~ In n (map fst ns) /\ map fst (touch_node ns n) = map fst ns ++ [n]).
Proof.
  unfold touch_node. destruct (existsb (fun x => fst x =? n) ns) eqn:Hex.
  - now left.
  - right. split.
    + intros Hin. apply in_map_iff in Hin. destruct Hin as [x [Hx Hin]].
      assert (Ht : existsb (fun x => fst x =? n) ns = true).
      { apply existsb_exists. exists x. split; [exact Hin | now apply Z.eqb_eq]. }
      congruence.
    + now rewrite map_app.
Qed.

Lemma touch_node_has (ns : list (Z * option node_data)) (n : Z) :
  In n (map fst (touch_node ns n)).
Proof.
  unfold touch_node. destruct (existsb (fun x => fst x =? n) ns) eqn:Hex.
  - apply existsb_exists in Hex. destruct Hex as [x [Hin Hx]].
    apply Z.eqb_eq in Hx. subst n. now apply in_map.
  - rewrite map_app. apply in_or_app. right. now left.
Qed.

Lemma ids_grow (old new : list Z) (n : Z) :
  new = old \/ (~ In n old /\ new = old ++ [n]) ->
  (NoDup old -> NoDup new) /\ (forall x, In x old -> In x new).
Proof.
  intros [-> | [Hnot ->]]; [tauto|]. split.
  - intros Hnd. apply NoDup_app; [exact Hnd | repeat constructor; intros [] |].
    intros x Hin [<- | []]. now apply Hnot.
  - intros x Hin. apply in_or_app. now left.
Qed.

Lemma keydict_has {E} (es : list ((Z * Z * Z) * E)) (u v k : Z) :
  In (u, v, k) (map fst es) -> existsb (Z.eqb k) (keydict es u v) = true.
Proof.
  intros Hin. apply in_map_iff in Hin. destruct Hin as [[e a] [He Hin]].
  cbn [fst] in He. subst e. apply existsb_exists. exists k. split; [|apply Z.eqb_refl].
  unfold keydict. apply in_map_iff. exists ((u, v, k), a). split; [reflexivity|].
  apply filter_In. split; [exact Hin|]. cbn. now rewrite !Z.eqb_refl.
Qed.

Lemma add_node_sound (H : Graph) (n : Z) (a : node_data) : sound H -> sound (add_node H n a).
Proof.
  intros (Hn & He & Hends). unfold sound, add_node. cbn [nodes edges].
  destruct (ids_grow _ _ n (set_node_ids (nodes H) n (Some a))) as [Hnd Hin].
  split; [now apply Hnd|]. split; [exact He|].
  intros e Hine. destruct (Hends e Hine). split; now apply Hin.
Qed.

Lemma add_edge_sound (H : Graph) (u v : Z) (a : edge_data) : sound H -> sound (add_edge H u v a).
Proof.
  intros (Hn & He & Hends). unfold sound, add_edge. cbn [nodes edges].
  pose proof (new_edge_key_fresh H u v) as Hfresh.
  rewrite (set_edge_fresh _ _ _ _ a Hfresh).
  destruct (ids_grow _ _ u (touch_node_ids (nodes H) u)) as [Hnd1 Hin1].
  destruct (ids_grow _ _ v (touch_node_ids (touch_node (nodes H) u) v)) as [Hnd2 Hin2].
  split; [auto|]. split.
  - rewrite map_app. cbn [map fst]. apply NoDup_app; [exact He | repeat constructor; intros [] |].
    intros e Hin [<- | []]. apply keydict_has in Hin. congruence.
  - intros e Hin. rewrite map_app in Hin. apply in_app_or in Hin.
    destruct Hin as [Hin | [<- | []]].
    + destruct (Hends e Hin). split; auto.
    + cbn [fst snd]. split; [apply Hin2, touch_node_has | apply touch_node_has].
Qed.

(** X1.  Whatever the input, a graph that [WN_transform] returns is a graph
    as networkx keeps one: its nodes are distinct, its edges are distinct
    by end points and key, and the end points of its edges are among its
    nodes. *)
Theorem WN_transform_sound (G : RawGraph) (num_edge_types input_dim : Z) (H : Graph) :
  WN_transform G num_edge_types input_dim = Ok H -> sound H.
Proof.
  unfold WN_transform. intros Hrun.
  destruct (fold_result _ (map fst (nodes G)) _) as [H0|e] eqn:Hnodes;
    cbn [rbind] in Hrun; [|discriminate].
  assert (H0ok : sound H0).
  { eapply fold_result_inv; [| |exact Hnodes].
    - intros s x s' Hs Hstep. destruct (torch_full (Fin 1) input_dim); cbn [rbind] in Hstep;
        [|discriminate]. injection Hstep as <-. now apply add_node_sound.
    - unfold sound. cbn. repeat split; try constructor; contradiction. }
  eapply fold_result_inv; [| exact H0ok | exact Hrun].
  intros s [[u v] k] s' Hs Hstep. unfold transform_edge in Hstep.
  destruct (edge_lookup (edges G) (u, v, k)); [|discriminate].
  destruct (torch_full (Fin 0) num_edge_types); cbn [rbind] in Hstep; [|discriminate].
  destruct (setitem _ _ _); cbn [rbind] in Hstep; [|discriminate].
  destruct (item _); cbn [rbind] in Hstep; [|discriminate].
  injection Hstep as <-. now apply add_edge_sound.
Qed.

(** X1 on the small graph. *)
Lemma WN_transform_sound_witness :
  exists H, WN_transform Toy.graph 2 5 = Ok H /\ sound H.
Proof.
  eexists. split; [reflexivity|].
  apply (WN_transform_sound Toy.graph 2 5). reflexivity.
Defined.

(** ** Which labels the transformation accepts *)

Lemma fold_result_app {A S} (f : S -> A -> result S) (xs ys : list A) :
  forall s, fold_result f (xs ++ ys) s = (s' <~ fold_result f xs s ;; fold_result f ys s').
Proof.
  induction xs as [|x xs IH]; intros s; simpl.
  - reflexivity.
  - destruct (f s x) as [s1|e]; simpl; [apply IH | reflexivity].
Qed.

(** Lines 67-68 on a label from [-n] to [n - 1]: the 1 is written at the
    label counted from the end when it is negative. *)
Lemma one_hot_wraps (n l : Z) :
  - n <= l < n ->
  exists t, (e_feat <~ torch_full (Fin 0) n ;; tensor_setitem e_feat l (Fin 1)) = Ok t
            /\ is_one_hot n (l mod n) t.
Proof.
  intros Hl. rewrite torch_full_ok by lia. cbn [rbind].
  unfold tensor_setitem, len. rewrite repeat_length, Z2Nat.id by lia.
  replace ((- n <=? l) && (l <? n)) with true
    by (symmetry; apply andb_true_iff; split; [apply Z.leb_le | apply Z.ltb_lt]; lia).
  eexists. split; [reflexivity|].
  assert (Hidx : (if l <? 0 then l + n else l) = l mod n).
  { destruct (l <? 0) eqn:Hneg.
    - apply Z.ltb_lt in Hneg. apply Z.mod_unique with (q := -1); lia.
    - apply Z.ltb_ge in Hneg. symmetry. apply Z.mod_small. lia. }
  rewrite Hidx.
  assert (Hm : 0 <= l mod n < n) by (apply Z.mod_pos_bound; lia).
  split.
  - unfold len. rewrite length_set_float, repeat_length. lia.
  - intros i Hi. rewrite nth_set_float by (rewrite repeat_length; lia).
    destruct (i =? l mod n) eqn:Heq.
    + apply Z.eqb_eq in Heq. rewrite Heq. now rewrite Nat.eqb_refl.
    + apply Z.eqb_neq in Heq.
      replace (Nat.eqb (Z.to_nat i) (Z.to_nat (l mod n))) with false
        by (symmetry; apply Nat.eqb_neq; lia).
      apply nth_repeat_lt. lia.
Qed.

(** The edge loop of lines 65-69 on accepted labels, whatever the nodes of
    the graph under construction. *)
Lemma edge_loop_wraps (G : RawGraph) (n : Z) (es : list ((Z * Z * Z) * raw_edge)) :
  forall H : Graph,
    (forall e a, In (e, a) es -> edge_lookup (edges G) e = Some a /\ accepted n a) ->
    exists H' new,
      fold_result (transform_edge G n) (map fst es) H = Ok H' /\
      edges H' = edges H ++ new /\
      Forall2 (fun eG eH =>
                 end_points (fst eG) = end_points (fst eH) /\
                 is_one_hot n (scalar_val (e_label (snd eG)) mod n) (edge_feature (snd eH)) /\
                 edge_type (snd eH) = str (scalar_val (e_label (snd eG))))
              es new.
Proof.
  induction es as [|[[[u v] k] a] es IH]; intros H Hall.
  - exists H, []. cbn [map fold_result]. rewrite app_nil_r. repeat split. constructor.
  - destruct (Hall (u, v, k) a (or_introl eq_refl)) as [Hlk [l [Hl Hrange]]].
    destruct (one_hot_wraps n l Hrange) as [t [Ht Hhot]].
    set (d := {| edge_feature := t; edge_type := str l |}).
    assert (Hstep : transform_edge G n H (u, v, k) = Ok (add_edge H u v d)).
    { unfold transform_edge, setitem. rewrite Hlk, Hl. cbn [scalar_val item].
      destruct (torch_full (Fin 0) n) as [z|e]; cbn [rbind] in Ht |- *; [|discriminate].
      rewrite Ht. reflexivity. }
    cbn [map fst fold_result]. rewrite Hstep. cbn [rbind].
    destruct (IH (add_edge H u v d)) as [H' [new [Hfold [Hedges Hrel]]]].
    { intros e b Hin. apply Hall. now right. }
    exists H', (((u, v, new_edge_key H u v), d) :: new).
    split; [exact Hfold|]. split.
    + rewrite Hedges. unfold add_edge. cbn [edges].
      rewrite (set_edge_fresh _ _ _ _ d (new_edge_key_fresh H u v)).
      now rewrite <- app_assoc.
    + constructor; [|exact Hrel].
      cbn [fst snd]. subst d. cbn [edge_feature edge_type]. rewrite Hl. cbn [scalar_val].
      repeat split; try exact (proj1 Hhot); try exact (proj2 Hhot).
Qed.

Lemma node_loop_runs (input_dim : Z) (ids : list Z) (H : Graph) :
  0 <= input_dim ->
  exists H', fold_result (fun H node =>
               ones <~ torch_full (Fin 1) input_dim ;;
               Ok (add_node H node {| node_type := "n1"; node_feature := ones |}))
             ids H = Ok H'.
Proof.
  intros Hdim. revert H.
  match goal with |- forall H, exists H', fold_result ?f _ _ = _ => set (body := f) end.
  induction ids as [|n ids IH]; intros H; cbn [fold_result].
  - now exists H.
  - assert (Hb : body H n = Ok (add_node H n {| node_type := "n1";
                   node_feature := repeat (Fin 1) (Z.to_nat input_dim) |})).
    { unfold body. now rewrite torch_full_ok by exact Hdim. }
    rewrite Hb. cbn [rbind]. apply IH.
Qed.

(** What the edge loop does to one edge that it finds in the graph. *)
Lemma transform_edge_accepts (G : RawGraph) (n : Z) (H H' : Graph) (e : Z * Z * Z)
    (a : raw_edge) :
  edge_lookup (edges G) e = Some a ->
  transform_edge G n H e = Ok H' -> accepted n a.
Proof.
  intros Hlk Hstep. destruct e as [[u v] k]. unfold transform_edge in Hstep.
  rewrite Hlk in Hstep. unfold torch_full in Hstep.
  destruct (n <? 0) eqn:Hn; cbn [rbind] in Hstep; [discriminate|].
  apply Z.ltb_ge in Hn. unfold setitem, tensor_setitem, len in Hstep.
  rewrite repeat_length, Z2Nat.id in Hstep by exact Hn.
  destruct ((- n <=? scalar_val (e_label a)) && (scalar_val (e_label a) <? n)) eqn:Hr;
    [|destruct (e_label a) as [z|z]; [destruct (fits_int64 z)|]; discriminate].
  cbn [rbind] in Hstep.
  apply andb_true_iff in Hr. destruct Hr as [Hlo Hhi].
  apply Z.leb_le in Hlo. apply Z.ltb_lt in Hhi.
  unfold accepted.
  destruct (e_label a) as [z|z]; cbn [item rbind scalar_val] in *; [discriminate|].
  exists z. split; [reflexivity | lia].
Qed.

(** X2.  On a graph whose edges are distinct, and with a feature width that
    is not negative, [WN_transform] returns a graph exactly when the label
    of every edge is a tensor from [- num_edge_types] to
    [num_edge_types - 1]: negative labels down to [- num_edge_types] are
    accepted, and no other label is. *)
Theorem WN_transform_succeeds_iff (G : RawGraph) (num_edge_types input_dim : Z) :
  NoDup (map fst (edges G)) ->
  0 <= input_dim ->
  (exists H, WN_transform G num_edge_types input_dim = Ok H) <->
  Forall (fun x => accepted num_edge_types (snd x)) (edges G).
Proof.
  intros Hnd Hdim. unfold WN_transform.
  destruct (node_loop_runs input_dim (map fst (nodes G)) {| nodes := []; edges := [] |} Hdim)
    as [H0 HH0].
  rewrite HH0. cbn [rbind]. split.
  - intros [H Hok]. apply Forall_forall. intros [e a] Hin. cbn [snd].
    destruct (fold_result_ok_each _ _ _ _ Hok e) as [s1 [s2 Hstep]].
    { apply (in_map fst) in Hin. exact Hin. }
    eapply transform_edge_accepts; [|exact Hstep]. now apply edge_lookup_In.
  - intros Hall.
    destruct (edge_loop_wraps G num_edge_types (edges G) H0) as [H [new [Hfold _]]].
    + intros e a Hin. split; [now apply edge_lookup_In|].
      rewrite Forall_forall in Hall. exact (Hall _ Hin).
    + now exists H.
Qed.

(** X2 on the graph whose labels are -1 and -2 among two types. *)
Lemma WN_transform_succeeds_iff_witness :
  (exists H, WN_transform Sample.from_the_end 2 5 = Ok H) <->
  Forall (fun x => accepted 2 (snd x)) (edges Sample.from_the_end).
Proof.
  apply (WN_transform_succeeds_iff Sample.from_the_end 2 5).
  - cbn. repeat constructor; cbn; intuition discriminate.
  - lia.
Defined.

(** X3.  On a graph whose edges are distinct and whose labels are tensors
    from [- num_edge_types] to [num_edge_types - 1], [WN_transform] returns
    a graph with one edge per edge of the input, in the same order and with
    the same end points: the feature of an edge is one-hot at its label
    modulo [num_edge_types], so that a negative label counts from the end,
    and its type is the string of the label itself. *)
Theorem WN_transform_wraps (G : RawGraph) (num_edge_types input_dim : Z) :
  NoDup (map fst (edges G)) ->
  0 <= input_dim ->
  Forall (fun x => accepted num_edge_types (snd x)) (edges G) ->
  exists H,
    WN_transform G num_edge_types input_dim = Ok H /\
    Forall2 (fun eG eH =>
               end_points (fst eG) = end_points (fst eH) /\
               is_one_hot num_edge_types
                 (scalar_val (e_label (snd eG)) mod num_edge_types)
                 (edge_feature (snd eH)) /\
               edge_type (snd eH) = str (scalar_val (e_label (snd eG))))
            (edges G) (edges H).
Proof.
  intros Hnd Hdim Hall. unfold WN_transform.
  destruct (node_loop_runs input_dim (map fst (nodes G)) {| nodes := []; edges := [] |} Hdim)
    as [H0 HH0].
  assert (Hnone : edges H0 = []).
  { eapply (fold_result_inv (fun H : Graph => edges H = [])); [| |exact HH0]; [|reflexivity].
    intros s x s' Hs Hstep.
    destruct (torch_full (Fin 1) input_dim); cbn [rbind] in Hstep; [|discriminate].
    injection Hstep as <-. exact Hs. }
  rewrite HH0. cbn [rbind].
  destruct (edge_loop_wraps G num_edge_types (edges G) H0) as [H [new [Hfold [Hedges Hrel]]]].
  - intros e a Hin. split; [now apply edge_lookup_In|].
    rewrite Forall_forall in Hall. exact (Hall _ Hin).
  - exists H. split; [exact Hfold|]. rewrite Hedges, Hnone. exact Hrel.
Qed.

(** X3 on the graph whose labels are -1 and -2 among two types: the
    features are [0, 1] and [1, 0], the types ["-1"] and ["-2"]. *)
Lemma WN_transform_wraps_witness :
  (exists H,
     WN_transform Sample.from_the_end 2 5 = Ok H /\
     Forall2 (fun eG eH =>
                end_points (fst eG) = end_points (fst eH) /\
                is_one_hot 2 (scalar_val (e_label (snd eG)) mod 2) (edge_feature (snd eH)) /\
                edge_type (snd eH) = str (scalar_val (e_label (snd eG))))
             (edges Sample.from_the_end) (edges H)) /\
  option_map (fun H => map (fun e => (edge_feature (snd e), edge_type (snd e))) (edges H))
    (match WN_transform Sample.from_the_end 2 5 with
     | Ok H => Some H
     | Raise _ => None
     end)
  = Some [([Fin 0; Fin 1], "-1"); ([Fin 1; Fin 0], "-2")].
Proof.
  split; [|reflexivity].
  apply (WN_transform_wraps Sample.from_the_end 2 5).
  - cbn. repeat constructor; cbn; intuition discriminate.
  - lia.
  - repeat constructor; cbn; eexists; (split; [reflexivity | lia]).
Defined.

(** X4.  On a graph whose edges are distinct, and with widths that are not
    negative, the first edge whose label lies outside [- num_edge_types] to
    [num_edge_types - 1], after edges whose labels are accepted, makes
    [WN_transform] raise: an index error when the label is a tensor or a
    plain integer of 64 bits, since the assignment into the feature precedes
    the call of [item], and the overflow that torch reports when the label
    is a plain integer beyond 64 bits. *)
Theorem WN_transform_index_error (G : RawGraph) (num_edge_types input_dim : Z)
    (before rest : list ((Z * Z * Z) * raw_edge)) (e : Z * Z * Z) (a : raw_edge) :
  NoDup (map fst (edges G)) ->
  0 <= input_dim ->
  0 <= num_edge_types ->
  edges G = before ++ (e, a) :: rest ->
  Forall (fun x => accepted num_edge_types (snd x)) before ->
  ~ (- num_edge_types <= scalar_val (e_label a) < num_edge_types) ->
  WN_transform G num_edge_types input_dim
  = Raise (match e_label a with
           | TensorInt _ => IndexError
           | PyInteger z => if fits_int64 z then IndexError else Overflow
           end).
Proof.
  intros Hnd Hdim Hn Hes Hall Hout. unfold WN_transform.
  destruct (node_loop_runs input_dim (map fst (nodes G)) {| nodes := []; edges := [] |} Hdim)
    as [H0 HH0].
  rewrite HH0. cbn [rbind].
  assert (Hfind : forall e' a', In (e', a') (edges G) -> edge_lookup (edges G) e' = Some a').
  { intros e' a' Hin. now apply edge_lookup_In. }
  rewrite Hes, map_app, fold_result_app. cbn [map fst].
  destruct (edge_loop_wraps G num_edge_types before H0) as [H1 [new [Hfold _]]].
  - intros e' a' Hin. split.
    + apply Hfind. rewrite Hes. apply in_or_app. now left.
    + rewrite Forall_forall in Hall. exact (Hall _ Hin).
  - rewrite Hfold. cbn [rbind fold_result].
    assert (Hstep : transform_edge G num_edge_types H1 e
                    = Raise (match e_label a with
                             | TensorInt _ => IndexError
                             | PyInteger z => if fits_int64 z then IndexError else Overflow
                             end)).
    { destruct e as [[u v] k]. unfold transform_edge.
      rewrite (Hfind (u, v, k) a) by (rewrite Hes; apply in_or_app; right; now left).
      rewrite torch_full_ok by exact Hn. cbn [rbind].
      unfold setitem, tensor_setitem, len. rewrite repeat_length, Z2Nat.id by exact Hn.
      replace ((- num_edge_types <=? scalar_val (e_label a))
               && (scalar_val (e_label a) <? num_edge_types)) with false.
      - destruct (e_label a) as [z|z]; [destruct (fits_int64 z)|]; reflexivity.
      - symmetry. apply andb_false_iff.
        destruct (Z.leb_spec (- num_edge_types) (scalar_val (e_label a)));
          destruct (Z.ltb_spec (scalar_val (e_label a)) num_edge_types); auto.
        exfalso. apply Hout. lia. }
    now rewrite Hstep.
Qed.

(** X4 on the graph whose first label is the tensor 2 among two types, and
    on the graph whose second label is the plain integer 2^63. *)
Lemma WN_transform_index_error_witness :
  WN_transform Sample.gap 2 5 = Raise IndexError /\
  WN_transform Sample.beyond 2 5 = Raise Overflow.
Proof.
  split.
  - apply (WN_transform_index_error Sample.gap 2 5 []
             [((1, 0, 0), {| id := 1; e_label := TensorInt 0 |})]
             (0, 1, 0) {| id := 0; e_label := TensorInt 2 |}).
    + cbn. repeat constructor; cbn; intuition discriminate.
    + lia.
    + lia.
    + reflexivity.
    + constructor.
    + cbn. lia.
  - apply (WN_transform_index_error Sample.beyond 2 5
             [((0, 1, 0), {| id := 0; e_label := TensorInt 1 |})] []
             (1, 0, 0) {| id := 1; e_label := PyInteger (2 ^ 63) |}).
    + cbn. repeat constructor; cbn; intuition discriminate.
    + lia.
    + lia.
    + reflexivity.
    + repeat constructor. exists 1. split; [reflexivity | lia].
    + cbn. lia.
Defined.

(** ** The scores of the candidate edges *)

Lemma dict_set_fresh {V} (d : dict V) (k : string) (v : V) :
  ~ In k (keys d) -> dict_set d k v = d ++ [(k, v)].
Proof.
  unfold keys. induction d as [|[k' w] d IH]; cbn [dict_set map fst app In]; intros Hk.
  - reflexivity.
  - destruct (String.eqb k' k) eqn:Heq.
    + apply String.eqb_eq in Heq. exfalso. apply Hk. now left.
    + rewrite IH; [reflexivity | intros Hin; apply Hk; now right].
Qed.

Lemma dict_get_missing {V} (d : dict V) (k : string) :
  ~ In k (keys d) -> dict_get d k = Raise (KeyError k).
Proof.
  unfold keys. induction d as [|[k' w] d IH]; cbn [dict_get map fst In]; intros Hk.
  - reflexivity.
  - destruct (String.eqb k' k) eqn:Heq.
    + apply String.eqb_eq in Heq. exfalso. apply Hk. now left.
    + apply IH. intros Hin. apply Hk. now right.
Qed.

Lemma map_result_length {A B} (f : A -> result B) (xs : list A) :
  forall ys, map_result f xs = Ok ys -> List.length ys = List.length xs.
Proof.
  induction xs as [|x xs IH]; intros ys Hok; cbn [map_result] in Hok.
  - now injection Hok as <-.
  - destruct (f x) as [y|e]; cbn [rbind] in Hok; [|discriminate].
    destruct (map_result f xs) as [ys'|e]; cbn [rbind] in Hok; [|discriminate].
    injection Hok as <-. cbn [List.length]. now rewrite (IH ys').
Qed.

Lemma map_result_each {A B} (f : A -> result B) (xs : list A) :
  forall ys, map_result f xs = Ok ys -> Forall (fun x => exists y, f x = Ok y) xs.
Proof.
  induction xs as [|x xs IH]; intros ys Hok; cbn [map_result] in Hok; constructor.
  - destruct (f x) as [y|e]; [now exists y | discriminate].
  - destruct (f x) as [y|e]; cbn [rbind] in Hok; [|discriminate].
    destruct (map_result f xs) as [ys'|e]; cbn [rbind] in Hok; [|discriminate].
    now apply (IH ys').
Qed.

Lemma map_result_raises {A B} (f : A -> result B) (err : exn) (xs : list A) :
  (forall x e, f x = Raise e -> e = err) ->
  forall e, map_result f xs = Raise e -> e = err.
Proof.
  intros Hf. induction xs as [|x xs IH]; intros e Hr; cbn [map_result] in Hr.
  - discriminate.
  - destruct (f x) as [y|e'] eqn:Hx; cbn [rbind] in Hr.
    + destruct (map_result f xs) as [ys'|e'']; cbn [rbind] in Hr; [discriminate|].
      injection Hr as <-. now apply IH.
    + injection Hr as <-. now apply (Hf x).
Qed.

Lemma map_result_total {A B} (f : A -> result B) (xs : list A) :
  Forall (fun x => exists y, f x = Ok y) xs -> exists ys, map_result f xs = Ok ys.
Proof.
  induction 1 as [|x xs [y Hy] _ [ys IH]]; cbn [map_result].
  - now exists [].
  - rewrite Hy, IH. cbn [rbind]. now eexists.
Qed.

Lemma index_select_ok (x : list (list float)) (i : Z) :
  (exists row, index_select x i = Ok row) <-> 0 <= i < len x.
Proof.
  unfold index_select, len. destruct (i <? 0) eqn:Hneg.
  - apply Z.ltb_lt in Hneg. split; [intros [row H]; discriminate | lia].
  - apply Z.ltb_ge in Hneg. destruct (nth_error x (Z.to_nat i)) as [row|] eqn:Hnth.
    + split; [intros _ | now exists row].
      assert (Hlt : (Z.to_nat i < List.length x)%nat)
        by (apply nth_error_Some; congruence).
      lia.
    + split; [intros [row H]; discriminate|].
      apply nth_error_None in Hnth. lia.
Qed.

Lemma index_select_raises (x : list (list float)) (i : Z) (e : exn) :
  index_select x i = Raise e -> e = IndexError.
Proof.
  unfold index_select. destruct (i <? 0); [congruence|].
  destruct (nth_error x (Z.to_nat i)); congruence.
Qed.

Lemma scored_keys (index : dict (list (Z * Z))) (pred : dict (list float)) :
  scored index pred -> keys pred = keys index.
Proof.
  unfold keys. induction 1 as [|ic ps index pred [Hk _] _ IH]; cbn [map]; [reflexivity|].
  now rewrite IH, Hk.
Qed.

Section Forward.

Context {L : Library}.

Lemma score_edges_found (x : dict (list (list float))) (n1 : list (list float))
    (index : dict (list (Z * Z))) :
  dict_get x "n1" = Ok n1 ->
  score_edges x index = fold_result (score_type n1) index [].
Proof.
  intros Hn1. unfold score_edges. generalize (@nil (string * list float)).
  match goal with |- forall acc, fold_result ?f _ _ = _ => set (body := f) end.
  induction index as [|[k cols] index IH]; intros acc; cbn [fold_result]; [reflexivity|].
  unfold body at 1. rewrite Hn1. cbn [rbind]. unfold score_type at 1. cbn [fst snd].
  destruct (map_result (fun c => index_select n1 (fst c)) cols); cbn [rbind]; [|reflexivity].
  destruct (map_result (fun c => index_select n1 (snd c)) cols); cbn [rbind]; [|reflexivity].
  apply IH.
Qed.

Lemma score_type_shape (n1 : list (list float)) (done : dict (list (Z * Z)))
    (acc pred : dict (list float)) (entry : string * list (Z * Z)) :
  scored done acc -> ~ In (fst entry) (keys done) ->
  score_type n1 acc entry = Ok pred -> scored (done ++ [entry]) pred.
Proof.
  intros Hacc Hfresh Hrun. unfold score_type in Hrun.
  destruct (map_result _ (snd entry)) as [nf|e] eqn:Hf; cbn [rbind] in Hrun; [|discriminate].
  destruct (map_result (fun c => index_select n1 (snd c)) (snd entry)) as [ns|e] eqn:Hs;
    cbn [rbind] in Hrun; [|discriminate].
  injection Hrun as <-.
  rewrite dict_set_fresh by (rewrite (scored_keys _ _ Hacc); exact Hfresh).
  apply Forall2_app; [exact Hacc|]. constructor; [|constructor].
  cbn [fst snd]. split; [reflexivity|].
  rewrite length_map, length_combine.
  rewrite (map_result_length _ _ _ Hf), (map_result_length _ _ _ Hs). apply Nat.min_id.
Qed.

Lemma score_loop_shape (n1 : list (list float)) (todo : dict (list (Z * Z))) :
  forall done acc pred,
    scored done acc -> NoDup (keys (done ++ todo)) ->
    fold_result (score_type n1) todo acc = Ok pred -> scored (done ++ todo) pred.
Proof.
  induction todo as [|entry todo IH]; intros done acc pred Hacc Hnd Hrun;
    cbn [fold_result] in Hrun.
  - injection Hrun as <-. now rewrite app_nil_r.
  - destruct (score_type n1 acc entry) as [acc'|e] eqn:Hstep; cbn [rbind] in Hrun;
      [|discriminate].
    replace (done ++ entry :: todo) with ((done ++ [entry]) ++ todo) in Hnd |- *
      by (now rewrite <- app_assoc).
    apply (IH _ acc'); [|exact Hnd | exact Hrun].
    eapply score_type_shape; [exact Hacc | | exact Hstep].
    unfold keys in Hnd. rewrite !map_app in Hnd. cbn [map] in Hnd.
    rewrite <- app_assoc in Hnd. cbn [app] in Hnd.
    apply NoDup_remove_2 in Hnd. intros Hin. apply Hnd. apply in_or_app. now left.
Qed.

(** What a call of the model returns is the scores of some embeddings. *)
Lemma forward_inv (m : loc) (data : Batch) (w : World) (pred : dict (list float)) :
  outcome (forward m data w) = Ok pred ->
  exists x, score_edges x (edge_label_index data) = Ok pred.
Proof.
  unfold forward, bind, deref, lift.
  destruct (convolve _ _ _ _ data (rng w)) as [[x|e] g]; cbn [outcome fst]; [|discriminate].
  intros H. now exists x.
Qed.

Lemma score_edges_shape (x : dict (list (list float))) (index : dict (list (Z * Z)))
    (pred : dict (list float)) :
  NoDup (keys index) -> score_edges x index = Ok pred -> scored index pred.
Proof.
  intros Hnd Hx. destruct index as [|entry index].
  - cbn in Hx. injection Hx as <-. constructor.
  - destruct (dict_get x "n1") as [n1|e] eqn:Hn1.
    + rewrite (score_edges_found x n1 _ Hn1) in Hx.
      apply (score_loop_shape n1 (entry :: index) [] [] pred); [constructor | exact Hnd | exact Hx].
    + unfold score_edges in Hx. cbn [fold_result] in Hx. destruct entry as [k cols].
      rewrite Hn1 in Hx. discriminate.
Qed.

(** X5.  When a call of the model returns on a batch whose label index
    has every relation type once, the prediction has the relation types of
    the label index, in their order, and for each of them one score per
    candidate edge; the call has changed no object and printed nothing. *)
Theorem forward_shape (m : loc) (data : Batch) (w : World) (pred : dict (list float)) :
  NoDup (keys (edge_label_index data)) ->
  outcome (forward m data w) = Ok pred ->
  scored (edge_label_index data) pred /\
  heap (final (forward m data w)) = heap w /\
  events (forward m data w) = [].
Proof.
  intros Hnd Hrun. destruct (forward_inv m data w pred Hrun) as [x Hx].
  split; [now apply (score_edges_shape x)|].
  unfold forward, bind, deref, lift.
  destruct (convolve _ _ _ _ data (rng w)) as [[x'|e] g]; now split.
Qed.

(** X6.  The scores are computed from the embeddings of the node type
    ["n1"] alone.  Without them a label index that has a relation type
    raises a key error for ["n1"], whatever other node types have
    embeddings.  With them the scores are computed when both end points of
    every candidate edge are rows of the embedding matrix, and one end point
    outside, negative ones included, raises an index error. *)
Theorem score_edges_outcomes (x : dict (list (list float))) (index : dict (list (Z * Z))) :
  (~ In "n1" (keys x) -> index <> [] -> score_edges x index = Raise (KeyError "n1")) /\
  (forall n1,
     dict_get x "n1" = Ok n1 ->
     (Forall (fun ic => Forall (in_range n1) (snd ic)) index ->
      exists pred, score_edges x index = Ok pred) /\
     (Exists (fun ic => Exists (fun c => ~ in_range n1 c) (snd ic)) index ->
      score_edges x index = Raise IndexError)).
Proof.
  split.
  { intros Hmiss Hidx. destruct index as [|[k cols] index]; [congruence|].
    unfold score_edges. cbn [fold_result]. now rewrite (dict_get_missing x "n1" Hmiss). }
  intros n1 Hn1. rewrite (score_edges_found x n1 index Hn1).
  generalize (@nil (string * list float)).
  assert (Hstep : forall acc entry,
            (Forall (in_range n1) (snd entry) /\ exists acc', score_type n1 acc entry = Ok acc')
            \/ (~ Forall (in_range n1) (snd entry) /\ score_type n1 acc entry = Raise IndexError)).
  { intros acc entry. unfold score_type.
    destruct (map_result (fun c => index_select n1 (fst c)) (snd entry)) as [nf|e] eqn:Hf.
    - destruct (map_result (fun c => index_select n1 (snd c)) (snd entry)) as [ns|e] eqn:Hs.
      + left. split; [|cbn [rbind]; now eexists].
        pose proof (map_result_each _ _ _ Hf) as H1.
        pose proof (map_result_each _ _ _ Hs) as H2.
        rewrite Forall_forall in *. intros c Hc. split.
        * apply index_select_ok, H1, Hc.
        * apply index_select_ok, H2, Hc.
      + right. cbn [rbind]. split.
        * intros Hall.
          destruct (map_result_total (fun c => index_select n1 (snd c)) (snd entry))
            as [ys Hys]; [|congruence].
          eapply Forall_impl; [|exact Hall]. intros c [_ Hc]. now apply index_select_ok.
        * f_equal. eapply map_result_raises; [|exact Hs].
          intros c e'. apply index_select_raises.
    - right. cbn [rbind]. split.
      + intros Hall.
        destruct (map_result_total (fun c => index_select n1 (fst c)) (snd entry))
          as [ys Hys]; [|congruence].
        eapply Forall_impl; [|exact Hall]. intros c [Hc _]. now apply index_select_ok.
      + f_equal. eapply map_result_raises; [|exact Hf].
        intros c e'. apply index_select_raises. }
  induction index as [|entry index IH]; intros acc.
  - split; [intros _; now exists acc | intros H; inversion H].
  - cbn [fold_result].
    destruct (Hstep acc entry) as [[Hin [acc' Hacc']] | [Hout Hraise]].
    + rewrite Hacc'. cbn [rbind]. split.
      * intros Hall. inversion Hall; subst. now apply IH.
      * intros Hex. inversion Hex as [? ? Hbad | ? ? Hlater]; subst.
        -- exfalso. apply Exists_exists in Hbad. destruct Hbad as [c [Hc Hnot]].
           rewrite Forall_forall in Hin. exact (Hnot (Hin c Hc)).
        -- now apply IH.
    + rewrite Hraise. cbn [rbind]. split.
      * intros Hall. inversion Hall; subst. contradiction.
      * reflexivity.
Qed.

End Forward.

(** X5 on a batch of two relation types, of two candidates and of one. *)
Lemma forward_shape_witness :
  exists pred,
    outcome (forward 0%nat Sample.two_types Toy.world) = Ok pred /\
    scored (edge_label_index Sample.two_types) pred /\
    heap (final (forward 0%nat Sample.two_types Toy.world)) = heap Toy.world /\
    events (forward 0%nat Sample.two_types Toy.world) = [].
Proof.
  eexists. split; [reflexivity|].
  apply (forward_shape 0%nat Sample.two_types Toy.world).
  - cbn. repeat constructor; cbn; intuition discriminate.
  - reflexivity.
Defined.

(** X6 on two embedding rows: the candidates of the batch of two relation
    types are within range, the candidate from 0 to 7 is not, and
    embeddings of another node type are of no use. *)
Lemma score_edges_outcomes_witness :
  (exists pred, score_edges [("n1", [[Fin 1]; [Fin (-1)]])]
                  (edge_label_index Sample.two_types) = Ok pred) /\
  score_edges [("n1", [[Fin 1]; [Fin (-1)]])] (edge_label_index Sample.out_of_range)
  = Raise IndexError /\
  score_edges [("n2", [[Fin 1]])] [("0", [(0, 0)])] = Raise (KeyError "n1").
Proof.
  split; [|split].
  - apply (score_edges_outcomes [("n1", [[Fin 1]; [Fin (-1)]])]
             (edge_label_index Sample.two_types)) with (n1 := [[Fin 1]; [Fin (-1)]]).
    + reflexivity.
    + repeat constructor; cbn; lia.
  - apply (score_edges_outcomes [("n1", [[Fin 1]; [Fin (-1)]])]
             (edge_label_index Sample.out_of_range)) with (n1 := [[Fin 1]; [Fin (-1)]]).
    + reflexivity.
    + apply Exists_cons_hd. apply Exists_cons_tl. apply Exists_cons_hd.
      unfold in_range. cbn. lia.
  - apply (score_edges_outcomes [("n2", [[Fin 1]])] [("0", [(0, 0)])]).
    + cbn. intuition discriminate.
    + discriminate.
Defined.

(** ** What an evaluation changes *)

Section Evaluation.

Context {L : Library}.

Lemma bind_final {A B} (c : M A) (k : A -> M B) (w : World) :
  final (bind c k w)
  = match outcome (c w) with
    | Ok a => final (k a (final (c w)))
    | Raise _ => final (c w)
    end.
Proof.
  rewrite bind_run. destruct (c w) as [[[a|e] w1] e1]; cbn [events outcome final fst snd].
  - now destruct (k a w1) as [[r2 w2] e2].
  - reflexivity.
Qed.

Lemma keeps_heap_ret {A} (a : A) : keeps_heap (ret a).
Proof. intros w. now split. Qed.

Lemma keeps_heap_lift {A} (r : result A) : keeps_heap (lift r).
Proof. intros w. now split. Qed.

Lemma keeps_heap_emit (e : Event) : keeps_heap (emit e).
Proof. intros w. now split. Qed.

Lemma keeps_heap_deref (m : loc) : keeps_heap (deref m).
Proof. intros w. now split. Qed.

Lemma keeps_heap_bind {A B} (c : M A) (k : A -> M B) :
  keeps_heap c -> (forall a, keeps_heap (k a)) -> keeps_heap (bind c k).
Proof.
  intros Hc Hk w. rewrite bind_final. destruct (outcome (c w)) as [a|e].
  - destruct (Hk a (final (c w))) as [H1 H2]. destruct (Hc w) as [H3 H4].
    split; congruence.
  - apply Hc.
Qed.

Lemma keeps_heap_foldM {A S} (f : S -> A -> M S) (xs : list A) :
  (forall s x, keeps_heap (f s x)) -> forall s, keeps_heap (foldM f xs s).
Proof.
  intros Hf. induction xs as [|x xs IH]; intros s; cbn [foldM].
  - apply keeps_heap_ret.
  - apply keeps_heap_bind; [apply Hf | intros s'; apply IH].
Qed.

Lemma keeps_heap_forward (m : loc) (data : Batch) : keeps_heap (forward m data).
Proof.
  unfold forward. apply keeps_heap_bind; [apply keeps_heap_deref | intros self].
  apply keeps_heap_bind; [|intros x; apply keeps_heap_lift].
  intros w. cbn. destruct (convolve _ _ _ _ data (rng w)) as [r g]. now split.
Qed.

Lemma keeps_heap_test_batch (m : loc) (args : Args) st batch :
  keeps_heap (test_batch m args st batch).
Proof.
  unfold test_batch. apply keeps_heap_bind; [apply keeps_heap_lift | intros b].
  apply keeps_heap_bind; [apply keeps_heap_forward | intros pred].
  apply keeps_heap_bind; [apply keeps_heap_lift | intros [acc num]].
  apply keeps_heap_ret.
Qed.

Lemma keeps_heap_test_split (m : loc) (args : Args) st entry :
  keeps_heap (test_split m args st entry).
Proof.
  unfold test_split. destruct st as [accs num], entry as [mode dataloader].
  apply keeps_heap_bind; [apply keeps_heap_foldM; intros; apply keeps_heap_test_batch|].
  intros [acc [n|]]; [|apply keeps_heap_lift].
  apply keeps_heap_bind; [apply keeps_heap_lift | intros r; apply keeps_heap_ret].
Qed.

(** The world after a call of [test]. *)
Lemma test_final (m : loc) (dataloaders : dict (list Batch)) (args : Args) (w : World) :
  heap (final (test m dataloaders args w)) = store_at (heap w) m (in_mode false (heap w m)) /\
  next (final (test m dataloaders args w)) = next w.
Proof.
  unfold test. rewrite bind_final. cbn [emit outcome final fst snd].
  rewrite bind_final.
  assert (Hset : set_training m false w
                 = (Ok tt, {| heap := store_at (heap w) m (in_mode false (heap w m));
                              next := next w; rng := rng w |}, [])) by reflexivity.
  rewrite Hset. cbn [outcome final fst snd].
  match goal with |- context [final (?c ?w1)] =>
    assert (Hk : keeps_heap c); [|destruct (Hk w1) as [H1 H2]; now rewrite H1, H2]
  end.
  apply keeps_heap_bind; [apply keeps_heap_foldM; intros; apply keeps_heap_test_split|].
  intros [accs num]. apply keeps_heap_ret.
Qed.

(** X7.  Whatever a call of [test] returns or raises, it leaves every
    model object as it was, the weights of the evaluated model included,
    except that the evaluated model is in evaluation mode afterwards; it
    creates no model object and takes no deep copy.  (The batches, which
    line 184 moves to the device, are no objects of the heap.) *)
Theorem test_frame (m : loc) (dataloaders : dict (list Batch)) (args : Args) (w : World) :
  let x := test m dataloaders args w in
  conv1 (heap (final x) m) = conv1 (heap w m) /\
  conv2 (heap (final x) m) = conv2 (heap w m) /\
  dropout (heap (final x) m) = dropout (heap w m) /\
  module_keys (heap (final x) m) = module_keys (heap w m) /\
  training (heap (final x) m) = false /\
  (forall l, l <> m -> heap (final x) l = heap w l) /\
  next (final x) = next w /\
  copies (events x) = [].
Proof.
  cbv zeta. destruct (test_final m dataloaders args w) as [Hheap Hnext].
  rewrite Hheap, Hnext, test_events. unfold store_at. rewrite Nat.eqb_refl. cbn.
  repeat split; try reflexivity.
  intros l Hl. now replace (Nat.eqb l m) with false by (symmetry; now apply Nat.eqb_neq).
Qed.

(** X8.  A split without batches is not skipped.  When it is the first
    split, [test] raises an unbound-local error for [num], whatever splits
    follow; after a split that counted [n] candidates in its last batch, its
    accuracy is reported as 0 divided by [n], and a division by zero is
    raised when [n] is 0. *)
Theorem test_empty_split (m : loc) (args : Args) (mode : string) (w : World) :
  (forall rest, outcome (test m ((mode, []) :: rest) args w) = Raise UnboundLocalError) /\
  (forall accs n,
     n <> 0 ->
     exists q, outcome (test_split m args (accs, Some n) (mode, []) w)
               = Ok (dict_set accs mode (Fin q), Some n) /\ (q == 0)%Q) /\
  (forall accs,
     outcome (test_split m args (accs, Some 0) (mode, []) w) = Raise ZeroDivisionError).
Proof.
  split; [reflexivity|]. split; [|reflexivity].
  intros accs n Hn. exists (inject_Z 0 / inject_Z n)%Q. split.
  - cbn. replace (n =? 0) with false by (symmetry; now apply Z.eqb_neq). reflexivity.
  - unfold Qdiv. apply Qmult_0_l.
Qed.

(** What a split adds to the accuracies when its loop returns. *)
Lemma test_split_inv (m : loc) (args : Args) accs num mode dataloader (w : World) accs' num' :
  outcome (test_split m args (accs, num) (mode, dataloader) w) = Ok (accs', num') ->
  exists r, accs' = dict_set accs mode r.
Proof.
  unfold test_split. rewrite bind_outcome.
  destruct (outcome (foldM _ dataloader _ w)) as [[acc [n|]]|e]; try discriminate.
  rewrite bind_outcome. cbn [lift outcome fst final snd].
  destruct (true_div acc n) as [r|e]; [|discriminate].
  cbn. intros H. injection H as <- _. now exists r.
Qed.

Lemma test_loop_keys (m : loc) (args : Args) (todo : dict (list Batch)) :
  forall accs num w accs' num',
    NoDup (keys accs ++ keys todo) ->
    outcome (foldM (test_split m args) todo (accs, num) w) = Ok (accs', num') ->
    keys accs' = keys accs ++ keys todo.
Proof.
  induction todo as [|[mode dl] todo IH]; intros accs num w accs' num' Hnd Hrun;
    cbn [foldM] in Hrun.
  - cbn in Hrun. injection Hrun as <- _. cbn. now rewrite app_nil_r.
  - rewrite bind_outcome in Hrun.
    destruct (outcome (test_split m args (accs, num) (mode, dl) w)) as [[a1 n1]|e] eqn:Hstep;
      [|discriminate].
    apply test_split_inv in Hstep. destruct Hstep as [r ->].
    cbn [keys map fst] in Hnd |- *. fold (keys todo) in Hnd |- *. fold (keys accs) in Hnd |- *.
    assert (Hfresh : ~ In mode (keys accs)).
    { apply NoDup_remove_2 in Hnd. intros Hin. apply Hnd. apply in_or_app. now left. }
    rewrite (dict_set_fresh accs mode r Hfresh) in Hrun.
    apply IH in Hrun.
    + rewrite Hrun. unfold keys. rewrite map_app. cbn [map fst]. now rewrite <- app_assoc.
    + unfold keys. rewrite map_app. cbn [map fst]. rewrite <- app_assoc. exact Hnd.
Qed.

(** X9.  When [test] returns, the accuracies it returns have one entry
    per split, under the name of the split and in the order of the splits. *)
Theorem test_keys (m : loc) (dataloaders : dict (list Batch)) (args : Args) (w : World)
    (accs : dict float) :
  NoDup (keys dataloaders) ->
  outcome (test m dataloaders args w) = Ok accs ->
  keys accs = keys dataloaders.
Proof.
  intros Hnd Hrun. unfold test in Hrun.
  rewrite bind_outcome in Hrun. cbn [emit outcome final fst snd] in Hrun.
  rewrite bind_outcome in Hrun.
  destruct (outcome (set_training m false w)); [|discriminate].
  rewrite bind_outcome in Hrun.
  match type of Hrun with
  | match outcome (foldM ?f ?xs ?s ?w1) with _ => _ end = _ =>
      destruct (outcome (foldM f xs s w1)) as [[accs' num]|e] eqn:Hloop; [|discriminate]
  end.
  cbn in Hrun. injection Hrun as <-.
  apply test_loop_keys in Hloop; [exact Hloop | exact Hnd].
Qed.

End Evaluation.

(** X9 on the three splits of the small instance. *)
Lemma test_keys_witness :
  exists accs,
    outcome (test 0%nat Toy.loaders (Toy.args 4) Toy.world) = Ok accs /\
    keys accs = keys Toy.loaders.
Proof.
  eexists. split; [vm_compute; reflexivity|].
  apply (test_keys 0%nat Toy.loaders (Toy.args 4) Toy.world).
  - cbn. repeat constructor; cbn; intuition discriminate.
  - vm_compute. reflexivity.
Defined.

(** ** Training: its edge cases *)

Section Training.

Context {L : Library}.

Lemma forward_run (m : loc) (data : Batch) (w : World) :
  forward m data w
  = let '(r, g) := convolve (dropout (heap w m)) (training (heap w m))
                            (conv1 (heap w m)) (conv2 (heap w m)) data (rng w) in
    (match r with
     | Ok x => score_edges x (edge_label_index data)
     | Raise e => Raise e
     end, {| heap := heap w; next := next w; rng := g |}, []).
Proof.
  unfold forward, bind, deref, lift.
  now destruct (convolve _ _ _ _ data (rng w)) as [[x|e] g].
Qed.

Lemma store_at_same (h : loc -> HeteroNet) (m : loc) (o : HeteroNet) : store_at h m o m = o.
Proof. unfold store_at. now rewrite Nat.eqb_refl. Qed.

Lemma store_at_other (h : loc -> HeteroNet) (m l : loc) (o : HeteroNet) :
  l <> m -> store_at h m o l = h l.
Proof.
  intros H. unfold store_at. now replace (Nat.eqb l m) with false by (symmetry; now apply Nat.eqb_neq).
Qed.

Lemma range_empty (lo hi : Z) : hi <= lo -> range lo hi = [].
Proof.
  intros H. unfold range. now replace (Z.to_nat (hi - lo)) with 0%nat by lia.
Qed.

Lemma range_first (lo hi : Z) : lo < hi -> range lo hi = lo :: range (lo + 1) hi.
Proof.
  intros H. unfold range.
  replace (Z.to_nat (hi - lo)) with (S (Z.to_nat (hi - (lo + 1)))) by lia.
  cbn [seq map]. rewrite <- seq_shift, map_map. f_equal; [lia|].
  apply map_ext. intros i. lia.
Qed.

(** What follows a computation that keeps the heap leaves it as the
    computation left it. *)
Lemma bind_keeps_after {A B} (c : M A) (k : A -> M B) (w : World) :
  (forall a, keeps_heap (k a)) ->
  heap (final (bind c k w)) = heap (final (c w)) /\
  next (final (bind c k w)) = next (final (c w)).
Proof.
  intros Hk. rewrite bind_final. destruct (outcome (c w)) as [a|e]; [apply Hk | now split].
Qed.

(** X10.  With an epoch count of 1 or less nothing is trained: the untrained
    model is evaluated once on all the splits, no log line is printed, no
    copy is taken and no object is created, and the weights of the model are
    what they were. *)
Theorem train_no_epoch (m : loc) (dataloaders : dict (list Batch)) (opt : Optimizer)
    (args : Args) (w : World) :
  epochs args <= 1 ->
  let x := train m dataloaders opt args w in
  (events x = [EvalCall m (keys dataloaders)] \/
   exists tr va te, events x = [EvalCall m (keys dataloaders); Print (LBest tr va te)]) /\
  conv1 (heap (final x) m) = conv1 (heap w m) /\
  conv2 (heap (final x) m) = conv2 (heap w m) /\
  next (final x) = next w.
Proof.
  intros He x. subst x. unfold train. rewrite (range_empty 1 (epochs args) He).
  cbn [foldM]. change (@ret L TrainState) with (fun a : TrainState => @lift L TrainState (Ok a)).
  cbv beta. rewrite bind_lift_ok. cbn [best_model].
  split.
  - destruct (report_run m dataloaders args w) as [[Hev _] | (tr & va & te & Hev & _)].
    + left. exact Hev.
    + right. now exists tr, va, te.
  - match goal with |- context [final (bind ?c ?k w)] =>
      destruct (bind_keeps_after c k w) as [Hheap Hnext]
    end.
    { intros accs. repeat (apply keeps_heap_bind; [apply keeps_heap_lift | intros ?]).
      apply keeps_heap_emit. }
    rewrite Hheap, Hnext.
    destruct (test_final m dataloaders args w) as [Hh Hn]. rewrite Hh, Hn.
    unfold store_at. rewrite Nat.eqb_refl. cbn. repeat split.
Qed.

(** X11.  With an epoch count above 1 and no split named ["train"], [train]
    raises a key error for ["train"] before anything is evaluated, printed
    or changed. *)
Theorem train_needs_train_split (m : loc) (dataloaders : dict (list Batch)) (opt : Optimizer)
    (args : Args) (w : World) :
  1 < epochs args ->
  ~ In "train" (keys dataloaders) ->
  train m dataloaders opt args w = (Raise (KeyError "train"), w, []).
Proof.
  intros He Hmiss. unfold train. rewrite (range_first 1 (epochs args) He).
  cbn [foldM]. unfold train_epoch at 1.
  rewrite (dict_get_missing dataloaders "train" Hmiss).
  reflexivity.
Qed.

(** X12.  A training batch whose label index has no relation type never
    completes its step, and nothing is evaluated or printed: when the
    convolutions succeed the prediction is empty, the loss is still the
    integer 0 it started from, and the call of [backward] on it raises an
    attribute error. *)
Theorem train_batch_needs_relation (m : loc) (dataloaders : dict (list Batch)) (args : Args)
    (epoch : Z) (st : TrainState) (batch b' : Batch) (w : World) :
  batch_to (device args) batch = Ok b' ->
  edge_label_index b' = [] ->
  let x := train_batch m dataloaders args epoch st batch w in
  events x = [] /\
  (forall st', outcome x <> Ok st') /\
  (forall emb g,
     convolve (dropout (heap w m)) true (conv1 (heap w m)) (conv2 (heap w m)) b' (rng w)
     = (Ok emb, g) ->
     outcome x = Raise AttributeError).
Proof.
  intros Hto Hidx x. subst x. unfold train_batch. rewrite Hto, bind_lift_ok.
  rewrite bind_run.
  assert (Hset : set_training m true w
                 = (Ok tt, {| heap := store_at (heap w) m (in_mode true (heap w m));
                              next := next w; rng := rng w |}, [])) by reflexivity.
  rewrite Hset. rewrite bind_run. cbn [app]. rewrite bind_run, forward_run.
  cbn [heap next rng]. rewrite !store_at_same.
  cbn [in_mode dropout training conv1 conv2].
  destruct (convolve (dropout (heap w m)) true (conv1 (heap w m)) (conv2 (heap w m)) b' (rng w))
    as [[emb|e] g] eqn:Hconv.
  - rewrite Hidx. cbn. split; [reflexivity|]. split; [discriminate | reflexivity].
  - cbn. split; [reflexivity|]. split; [discriminate|]. intros emb' g' H. discriminate.
Qed.

End Training.

(** X10 on the small instance with the epoch count 1. *)
Lemma train_no_epoch_witness :
  let x := train 0%nat Toy.loaders O (Toy.args 1) Toy.world in
  (events x = [EvalCall 0%nat (keys Toy.loaders)] \/
   exists tr va te, events x = [EvalCall 0%nat (keys Toy.loaders); Print (LBest tr va te)]) /\
  conv1 (heap (final x) 0%nat) = conv1 (heap Toy.world 0%nat) /\
  conv2 (heap (final x) 0%nat) = conv2 (heap Toy.world 0%nat) /\
  next (final x) = next Toy.world.
Proof.
  apply (train_no_epoch 0%nat Toy.loaders O (Toy.args 1) Toy.world). cbn. lia.
Defined.

(** X11 on loaders without a training split. *)
Lemma train_needs_train_split_witness :
  train 0%nat Toy.hollow_split O (Toy.args 4) Toy.world
  = (Raise (KeyError "train"), Toy.world, []).
Proof.
  apply (train_needs_train_split 0%nat Toy.hollow_split O (Toy.args 4) Toy.world).
  - cbn. lia.
  - cbn. intuition discriminate.
Defined.

(** X12 on the batch without any relation type. *)
Lemma train_batch_needs_relation_witness :
  let x := train_batch 0%nat Toy.loaders (Toy.args 4) 1 Sample.start Toy.bare Toy.world in
  events x = [] /\ outcome x = Raise AttributeError.
Proof.
  destruct (train_batch_needs_relation 0%nat Toy.loaders (Toy.args 4) 1 Sample.start
              Toy.bare Toy.bare Toy.world eq_refl eq_refl) as (Hev & _ & Hraise).
  split; [exact Hev|]. eapply Hraise. reflexivity.
Defined.

(** ** Training: which objects it changes *)

Section Objects.

Context {L : Library}.

Lemma frames_keeps {A} (m : loc) (c : M A) : keeps_heap c -> frames m c.
Proof.
  intros Hc w. destruct (Hc w) as [Hh Hn]. rewrite Hh, Hn. split; [lia | reflexivity].
Qed.

Lemma frames_bind {A B} (m : loc) (c : M A) (k : A -> M B) :
  frames m c -> (forall a, frames m (k a)) -> frames m (bind c k).
Proof.
  intros Hc Hk w. rewrite bind_final. destruct (Hc w) as [Hn Hh].
  destruct (outcome (c w)) as [a|e]; [|now split].
  destruct (Hk a (final (c w))) as [Hn2 Hh2]. split; [lia|].
  intros l Hl Hlt. rewrite Hh2 by (auto; lia). now apply Hh.
Qed.

Lemma frames_foldM {A S} (m : loc) (f : S -> A -> M S) (xs : list A) :
  (forall s x, frames m (f s x)) -> forall s, frames m (foldM f xs s).
Proof.
  intros Hf. induction xs as [|x xs IH]; intros s; cbn [foldM].
  - apply frames_keeps, keeps_heap_ret.
  - apply frames_bind; [apply Hf | intros s'; apply IH].
Qed.

Lemma frames_assign (m : loc) (o : HeteroNet) : frames m (assign m o).
Proof.
  intros w. cbn. split; [lia|]. intros l Hl _. now apply store_at_other.
Qed.

Lemma frames_set_training (m : loc) (flag : bool) : frames m (set_training m flag).
Proof.
  unfold set_training. apply frames_bind; [apply frames_keeps, keeps_heap_deref|].
  intros o. apply frames_assign.
Qed.

Lemma frames_deepcopy (m b : loc) : frames m (deepcopy b).
Proof.
  intros w. cbn. split; [lia|]. intros l _ Hlt. apply store_at_other. lia.
Qed.

Lemma frames_step (m : loc) opt l batch g : frames m (step m opt l batch g).
Proof.
  unfold step. destruct l; [apply frames_keeps, keeps_heap_lift|].
  apply frames_bind; [apply frames_keeps, keeps_heap_deref | intros self].
  destruct (backward_step _ _ _ _ _ _) as [[c1 c2] opt'].
  apply frames_bind; [apply frames_assign | intros _; apply frames_keeps, keeps_heap_ret].
Qed.

Lemma frames_test (m : loc) dataloaders (args : Args) : frames m (test m dataloaders args).
Proof.
  intros w. destruct (test_final m dataloaders args w) as [Hh Hn]. rewrite Hh, Hn.
  split; [lia|]. intros l Hl _. now apply store_at_other.
Qed.

Lemma frames_keep_best (m : loc) (st : TrainState) (va : float) :
  frames m (keep_best m st va).
Proof.
  unfold keep_best. destruct (float_lt (val_max st) va); [|apply frames_keeps, keeps_heap_ret].
  apply frames_bind; [apply frames_deepcopy | intros c; apply frames_keeps, keeps_heap_ret].
Qed.

End Objects.

(** Discharges the frame conditions of a sequence. *)
Ltac framed :=
  repeat match goal with
    | |- frames _ (bind _ _) => apply frames_bind; [|intros ?]
    | |- frames _ (foldM _ _ _) => apply frames_foldM; intros ? ?
    | |- frames _ (set_training _ _) => apply frames_set_training
    | |- frames _ (step _ _ _ _ _) => apply frames_step
    | |- frames _ (test _ _ _) => apply frames_test
    | |- frames _ (keep_best _ _ _) => apply frames_keep_best
    | |- frames _ (assign _ _) => apply frames_assign
    | |- frames _ (forward _ _) => apply frames_keeps, keeps_heap_forward
    | |- frames _ (lift _) => apply frames_keeps, keeps_heap_lift
    | |- frames _ (ret _) => apply frames_keeps, keeps_heap_ret
    | |- frames _ (emit _) => apply frames_keeps, keeps_heap_emit
    | |- frames _ (match ?x with _ => _ end) => destruct x
    | |- frames _ (fun w => (Ok (rng w), w, [])) =>
        apply frames_keeps; intros ?; now split
    end.

Section Checkpoints.

Context {L : Library}.

Lemma frames_train_batch (m : loc) dataloaders (args : Args) (epoch : Z) st batch :
  frames m (train_batch m dataloaders args epoch st batch).
Proof. unfold train_batch. framed. Qed.

Lemma frames_train_epoch (m : loc) dataloaders (args : Args) st (epoch : Z) :
  frames m (train_epoch m dataloaders args st epoch).
Proof. unfold train_epoch. framed. apply frames_train_batch. Qed.

Lemma checkpoints_keep_best (m : loc) (st : TrainState) (va : float) :
  checkpoints m (best_model st) (keep_best m st va).
Proof.
  intros w st'. unfold keep_best. destruct (float_lt (val_max st) va).
  - cbn. intros H. injection H as <-. cbn [best_model]. right.
    split; [lia|]. rewrite store_at_same. unfold store_at. now destruct (Nat.eqb m (next w)).
  - cbn. intros H. injection H as <-. now left.
Qed.

Lemma checkpoints_bind {A} (m b : loc) (c : M A) (k : A -> M TrainState) :
  frames m c -> (forall a, checkpoints m b (k a)) -> checkpoints m b (bind c k).
Proof.
  intros Hc Hk w st'. rewrite bind_outcome, bind_final. destruct (Hc w) as [Hn _].
  destruct (outcome (c w)) as [a|e]; [|discriminate].
  intros Hout. destruct (Hk a (final (c w)) st' Hout) as [Hb | [Hr Hh]]; [now left|].
  right. split; [lia | exact Hh].
Qed.

Lemma checkpoints_train_batch (m : loc) dataloaders (args : Args) (epoch : Z) st batch :
  checkpoints m (best_model st) (train_batch m dataloaders args epoch st batch).
Proof.
  unfold train_batch.
  repeat (apply checkpoints_bind; [solve [framed] | intros ?]).
  match goal with |- checkpoints _ _ (match ?x with _ => _ end) => destruct x end.
  repeat (apply checkpoints_bind; [solve [framed] | intros ?]).
  apply (checkpoints_keep_best m {| val_max := val_max st; best_model := best_model st;
                                    optimizer := _; t_accu_sum := _; t_accu_cnt := _ |}).
Qed.

Lemma settles_foldM {A} (m : loc) (f : TrainState -> A -> M TrainState) (xs : list A) :
  (forall s x, frames m (f s x)) ->
  (forall s x, settles (best_model s) (f s x)) ->
  forall s, settles (best_model s) (foldM f xs s).
Proof.
  intros Hfr Hf. induction xs as [|x xs IH]; intros s w st'; cbn [foldM].
  - cbn. intros H. injection H as <-. now left.
  - rewrite bind_outcome, bind_final.
    destruct (outcome (f s x w)) as [s1|e] eqn:Hout; [|discriminate].
    intros Hrest.
    destruct (Hf s x w s1 Hout) as [Hb1 | Hr1];
      destruct (IH s1 (final (f s x w)) st' Hrest) as [Hb2 | Hr2];
      destruct (Hfr s x w) as [Hn1 _];
      destruct (frames_foldM m f xs Hfr s1 (final (f s x w))) as [Hn2 _].
    + left. congruence.
    + right. lia.
    + right. rewrite Hb2. lia.
    + right. lia.
Qed.

Lemma settles_train_epoch (m : loc) dataloaders (args : Args) st (epoch : Z) :
  settles (best_model st) (train_epoch m dataloaders args st epoch).
Proof.
  unfold train_epoch. destruct (dict_get dataloaders "train") as [batches|e].
  - intros w st'. rewrite bind_lift_ok.
    apply (settles_foldM m (train_batch m dataloaders args epoch) batches
             (frames_train_batch m dataloaders args epoch)
             (fun s x w0 s' H =>
                match checkpoints_train_batch m dataloaders args epoch s x w0 s' H with
                | or_introl Hb => or_introl Hb
                | or_intror (conj Hr _) => or_intror Hr
                end)
             {| val_max := val_max st; best_model := best_model st;
                optimizer := optimizer st; t_accu_sum := PyInt 0; t_accu_cnt := 0 |}).
  - intros w st'. rewrite bind_lift_raise. discriminate.
Qed.

Lemma copies_none (evs : list Event) :
  Forall (fun e => is_snapshot e = false) evs -> copies evs = [].
Proof.
  induction 1 as [|e evs He _ IH]; [reflexivity|].
  unfold copies in *. cbn [flat_map]. rewrite IH. now destruct e.
Qed.

Lemma allocates_keeps {A} (c : M A) :
  keeps_heap c -> emits (fun e => is_snapshot e = false) c -> allocates c.
Proof.
  intros Hk He w. exists 0%nat. rewrite (copies_none _ (He w)).
  destruct (Hk w) as [_ ->]. split; [reflexivity | lia].
Qed.

Lemma allocates_bind {A B} (c : M A) (k : A -> M B) :
  allocates c -> (forall a, allocates (k a)) -> allocates (bind c k).
Proof.
  intros Hc Hk w. rewrite bind_events, bind_final.
  destruct (Hc w) as (n1 & Hc1 & Hn1).
  destruct (outcome (c w)) as [a|e].
  - destruct (Hk a (final (c w))) as (n2 & Hc2 & Hn2). exists (n1 + n2)%nat.
    unfold copies in *. rewrite flat_map_app, Hc1, Hc2, Hn1, Hn2, seq_app.
    split; [reflexivity | lia].
  - exists n1. rewrite app_nil_r. now split.
Qed.

Lemma allocates_foldM {A S} (f : S -> A -> M S) (xs : list A) :
  (forall s x, allocates (f s x)) -> forall s, allocates (foldM f xs s).
Proof.
  intros Hf. induction xs as [|x xs IH]; intros s; cbn [foldM].
  - intros w. exists 0%nat. cbn. split; [reflexivity | lia].
  - apply allocates_bind; [apply Hf | intros s'; apply IH].
Qed.

Lemma allocates_set_training (m : loc) (flag : bool) : allocates (set_training m flag).
Proof. intros w. exists 0%nat. cbn. split; [reflexivity | lia]. Qed.

Lemma allocates_deepcopy (m : loc) : allocates (deepcopy m).
Proof. intros w. exists 1%nat. cbn. split; [reflexivity | lia]. Qed.

Lemma allocates_step (m : loc) opt l batch g : allocates (step m opt l batch g).
Proof.
  intros w. exists 0%nat. unfold step. destruct l; [cbn; split; [reflexivity | lia]|].
  rewrite bind_events, bind_final. cbn [deref outcome final events fst snd].
  destruct (backward_step _ _ _ _ _ _) as [[c1 c2] opt']. cbn. split; [reflexivity | lia].
Qed.

Lemma allocates_test (m : loc) dataloaders (args : Args) :
  allocates (test m dataloaders args).
Proof.
  intros w. exists 0%nat. destruct (test_final m dataloaders args w) as [_ ->].
  rewrite (copies_none _ (emits_test _ m dataloaders args eq_refl w)).
  split; [reflexivity | lia].
Qed.

Lemma allocates_keep_best (m : loc) (st : TrainState) (va : float) :
  allocates (keep_best m st va).
Proof.
  unfold keep_best. destruct (float_lt (val_max st) va).
  - apply allocates_bind; [apply allocates_deepcopy|].
    intros c w. exists 0%nat. cbn. split; [reflexivity | lia].
  - intros w. exists 0%nat. cbn. split; [reflexivity | lia].
Qed.

Lemma allocates_train_batch (m : loc) dataloaders (args : Args) (epoch : Z) st batch :
  allocates (train_batch m dataloaders args epoch st batch).
Proof.
  unfold train_batch.
  repeat match goal with
    | |- allocates (bind _ _) => apply allocates_bind; [|intros ?]
    | |- allocates (set_training _ _) => apply allocates_set_training
    | |- allocates (step _ _ _ _ _) => apply allocates_step
    | |- allocates (test _ _ _) => apply allocates_test
    | |- allocates (keep_best _ _ _) => apply allocates_keep_best
    | |- allocates (forward _ _) =>
        apply allocates_keeps; [apply keeps_heap_forward | apply emits_forward]
    | |- allocates (lift _) =>
        apply allocates_keeps; [apply keeps_heap_lift | apply emits_lift]
    | |- allocates (emit _) =>
        apply allocates_keeps; [apply keeps_heap_emit | now apply emits_emit]
    | |- allocates (match ?x with _ => _ end) => destruct x
    | |- allocates (fun w => (Ok (rng w), w, [])) =>
        intros ?; exists 0%nat; cbn; split; [reflexivity | lia]
    end.
Qed.

Lemma allocates_train_epoch (m : loc) dataloaders (args : Args) st (epoch : Z) :
  allocates (train_epoch m dataloaders args st epoch).
Proof.
  unfold train_epoch. apply allocates_bind.
  - apply allocates_keeps; [apply keeps_heap_lift | apply emits_lift].
  - intros batches. apply allocates_foldM. intros s x. apply allocates_train_batch.
Qed.

Lemma allocates_train (m : loc) dataloaders opt (args : Args) :
  allocates (train m dataloaders opt args).
Proof.
  unfold train. apply allocates_bind.
  - apply allocates_foldM. intros s e. apply allocates_train_epoch.
  - intros st. apply allocates_bind; [apply allocates_test | intros accs].
    repeat (apply allocates_bind;
            [apply allocates_keeps; [apply keeps_heap_lift | apply emits_lift] | intros ?]).
    apply allocates_keeps; [apply keeps_heap_emit | now apply emits_emit].
Qed.

(** X13.  A run of [train], whatever it returns or raises, changes no model
    object that existed before it except the model it trains, and the model
    objects it creates are its deep copies and nothing else: the copies take
    the addresses from the first free one on, in their order, and no other
    address is given out.  (The optimizer is no object of the heap: the
    training steps hand it on from one to the next.) *)
Theorem train_frame (m : loc) (dataloaders : dict (list Batch)) (opt : Optimizer)
    (args : Args) (w : World) :
  let x := train m dataloaders opt args w in
  (forall l, l <> m -> (l < next w)%nat -> heap (final x) l = heap w l) /\
  (exists n, copies (events x) = seq (next w) n /\ next (final x) = (next w + n)%nat) /\
  List.length (copies (events x)) = List.length (filter is_snapshot (events x)).
Proof.
  intros x. subst x. split; [|split; [apply allocates_train|]].
  2:{ generalize (events (train m dataloaders opt args w)). intros evs.
      induction evs as [|e evs IH]; [reflexivity|].
      unfold copies in *. cbn [flat_map filter].
      destruct e; cbn [is_snapshot]; simpl; now rewrite ?IH. }
  unfold train.
  match goal with
  | |- context [bind (foldM ?f ?xs ?s) ?k] =>
      set (loop := foldM f xs s) in *; set (last := k) in *
  end.
  assert (Hfr : frames m loop).
  { subst loop. apply frames_foldM. intros s e. apply frames_train_epoch. }
  assert (Hst : settles m loop).
  { subst loop.
    apply (settles_foldM m (train_epoch m dataloaders args) (range 1 (epochs args))
             (frames_train_epoch m dataloaders args)
             (settles_train_epoch m dataloaders args)
             {| val_max := Fin 0; best_model := m; optimizer := opt;
                t_accu_sum := PyInt 0; t_accu_cnt := 0 |}). }
  rewrite bind_final. destruct (Hfr w) as [Hn Hh].
  destruct (outcome (loop w)) as [st|e] eqn:Hout; [|exact Hh].
  subst last. cbv beta.
  match goal with |- context [final (bind ?c ?k ?w1)] =>
    destruct (bind_keeps_after c k w1) as [Hheap Hnext]
  end.
  { intros accs. repeat (apply keeps_heap_bind; [apply keeps_heap_lift | intros ?]).
    apply keeps_heap_emit. }
  rewrite Hheap.
  destruct (test_final (best_model st) dataloaders args (final (loop w))) as [Hh2 Hn2].
  rewrite Hh2.
  intros l Hl Hlt. rewrite store_at_other; [now apply Hh|].
  destruct (Hst w st Hout) as [Hb | Hr]; [congruence | lia].
Qed.

(** X14.  When a training step returns, the best model is the one it was,
    or a new object that equals the live model as the step leaves it: the
    copy is taken after the update of the weights and after the evaluation,
    so it is the model that was validated.  A best model that is another
    object than the live model is not changed by the step. *)
Theorem checkpoint_is_validated (m : loc) (dataloaders : dict (list Batch)) (args : Args)
    (epoch : Z) (st : TrainState) (batch : Batch) (w : World) :
  let x := train_batch m dataloaders args epoch st batch w in
  (forall st', outcome x = Ok st' ->
     best_model st' = best_model st \/
     ((next w <= best_model st' < next (final x))%nat /\
      heap (final x) (best_model st') = heap (final x) m)) /\
  (best_model st <> m -> (best_model st < next w)%nat ->
   heap (final x) (best_model st) = heap w (best_model st)).
Proof.
  cbv zeta. split.
  - intros st'. apply checkpoints_train_batch.
  - intros Hb Hlt. now apply frames_train_batch.
Qed.

End Checkpoints.

(** ** Which accuracies make a best model *)

Lemma float_le_lt_trans (a b c : float) :
  float_le a b = true -> float_lt b c = true -> float_lt a c = true.
Proof.
  destruct a as [x| | |], b as [y| | |], c as [z| | |]; cbn; try congruence.
  unfold Qleb, Qltb. rewrite Z.leb_le, !Z.ltb_lt.
  intros Hxy Hyz. exact (Qle_lt_trans x y z Hxy Hyz).
Qed.

Lemma float_le_max (a b c : float) :
  float_le a b = true -> float_le a (float_max b c) = true.
Proof.
  intros Hab. unfold float_max. destruct (float_lt b c) eqn:Hbc; [|exact Hab].
  pose proof (float_le_lt_trans a b c Hab Hbc) as Hac.
  destruct a as [x| | |], c as [z| | |]; cbn in *; try congruence.
  unfold Qleb, Qltb in *. apply Z.leb_le. apply Z.ltb_lt in Hac. lia.
Qed.

(** The running maximum never falls below the 0 it starts from. *)
Lemma running_max_from_0 (seen : list float) : float_le (Fin 0) (running_max seen) = true.
Proof.
  unfold running_max.
  assert (H : forall a, float_le (Fin 0) a = true ->
                        float_le (Fin 0) (fold_left float_max seen a) = true).
  { induction seen as [|v seen IH]; intros a Ha; cbn [fold_left].
    - exact Ha.
    - apply IH. now apply float_le_max. }
  now apply H.
Qed.

Lemma copies_above_0 (vs : list float) :
  forall seen,
    Forall (fun f => snd f <> 0%nat -> float_lt (Fin 0) (fst f) = true)
           (expected_counts seen vs).
Proof.
  unfold expected_counts.
  induction vs as [|v vs IH]; intros seen; cbn [expected_copies map]; constructor.
  - cbn [fst snd]. unfold improves. destruct (float_lt (running_max seen) v) eqn:Hlt.
    + intros _. exact (float_le_lt_trans _ _ _ (running_max_from_0 seen) Hlt).
    + intros H. now exfalso.
  - apply IH.
Qed.

Lemma float_lt_nan (a : float) : float_lt a NaN = false.
Proof. now destruct a. Qed.

Section Above.

Context {L : Library}.

(** X15.  In every run of [train] no deep copy is taken before the first
    log line, and a deep copy is only taken after a log line whose
    validation accuracy is above 0: an accuracy of 0 and a not-a-number
    never make a best model.  A training step that logs a not-a-number as
    validation accuracy leaves [val_max] and [best_model] as they are and
    takes no copy. *)
Theorem copies_only_above_0 (m : loc) (dataloaders : dict (list Batch)) (opt : Optimizer)
    (args : Args) (w : World) :
  copies_before_log (events (train m dataloaders opt args w)) = 0%nat /\
  Forall (fun f => snd f <> 0%nat -> float_lt (Fin 0) (fst f) = true /\ fst f <> NaN)
         (copy_counts (events (train m dataloaders opt args w))) /\
  (forall epoch st batch w0 st' l tr te,
     outcome (train_batch m dataloaders args epoch st batch w0) = Ok st' ->
     In (Print (LLog epoch l tr NaN te))
        (events (train_batch m dataloaders args epoch st batch w0)) ->
     val_max st' = val_max st /\ best_model st' = best_model st /\
     filter is_snapshot (events (train_batch m dataloaders args epoch st batch w0)) = []).
Proof.
  destruct (train_counted m dataloaders opt args w) as [Hhead Hcount].
  split; [exact Hhead|]. split.
  - rewrite Hcount. eapply Forall_impl; [|apply copies_above_0].
    intros [v n] Habove Hn. cbn [fst snd] in *.
    specialize (Habove Hn). split; [exact Habove|].
    intros ->. discriminate.
  - intros epoch st batch w0 st' l tr te Hout Hin.
    destruct (train_batch_run m dataloaders args epoch st batch w0)
      as [(e & Hraise & _) | (st1 & l1 & tr1 & va & te1 & Hok & Hev & Hvm & Hbm)].
    + rewrite Hraise in Hout. discriminate.
    + rewrite Hok in Hout. injection Hout as <-. rewrite Hev in Hin |- *.
      assert (Hva : va = NaN).
      { destruct Hin as [Hin | [Hin | Hin]]; [discriminate | now injection Hin |].
        destruct (float_lt (val_max st) va); [|contradiction].
        destruct Hin as [Hin | []]. discriminate. }
      subst va. rewrite float_lt_nan in *. cbn.
      split; [|split; [now apply Hbm | reflexivity]].
      rewrite Hvm. unfold float_max. now rewrite float_lt_nan.
Qed.

End Above.

(** ** Accuracies that are ratios *)

Lemma dict_get_set {V} (d : dict V) (k : string) (v : V) : dict_get (dict_set d k v) k = Ok v.
Proof.
  induction d as [|[k' w] d IH]; cbn [dict_set dict_get].
  - now rewrite String.eqb_refl.
  - destruct (String.eqb k' k) eqn:Hk; cbn [dict_get]; now rewrite Hk.
Qed.

Lemma index_size_nonneg (index : dict (list (Z * Z))) : 0 <= index_size index.
Proof.
  induction index as [|ic index IH]; cbn [index_size fold_right]; [lia|].
  fold (index_size index). unfold len. lia.
Qed.

Section Ratios.

Context {L : Library}.

(** The scores of an aligned batch have the shape of its labels. *)
Lemma scored_same_shape (labels : dict (list Z)) (index : dict (list (Z * Z)))
    (pred : dict (list float)) :
  scored index pred ->
  Forall (fun ic => exists y, dict_get labels (fst ic) = Ok y /\
                              List.length y = List.length (snd ic)) index ->
  same_shape pred labels /\ candidates pred = index_size index.
Proof.
  unfold same_shape. induction 1 as [|ic ps index pred [Hk Hlen] _ IH]; intros Hall.
  - split; [constructor | reflexivity].
  - inversion Hall as [|? ? [y [Hy Hly]] Hrest]; subst.
    destruct (IH Hrest) as [Hshape Hcount]. split.
    + constructor; [|exact Hshape]. exists y. rewrite <- Hk. split; [exact Hy | congruence].
    + destruct ps as [k score]. cbn [candidates index_size fold_right snd] in *.
      fold (index_size index). rewrite Hcount. unfold len. now rewrite Hlen.
Qed.

(** The counting loop on the prediction of an aligned batch. *)
Lemma forward_tally (m : loc) (b : Batch) (w : World) (pred : dict (list float))
    (acc : number) (num : Z) :
  aligned b ->
  outcome (forward m b w) = Ok pred ->
  0 <= number_val acc ->
  number_val acc + index_size (edge_label_index b) < 2 ^ 63 ->
  exists acc',
    tally sigmoid pred (edge_label b) acc num
    = Ok (acc', num + index_size (edge_label_index b)) /\
    number_val acc <= number_val acc' <= number_val acc + index_size (edge_label_index b).
Proof.
  intros [Hnd Hlab] Hrun Hacc Hmax.
  destruct (forward_inv m b w pred Hrun) as [x Hx].
  pose proof (score_edges_shape x _ pred Hnd Hx) as Hscored.
  destruct (scored_same_shape (edge_label b) _ pred Hscored Hlab) as [Hshape Hcount].
  rewrite <- Hcount in *. now apply tally_bounds.
Qed.

(** One batch of [test] on a countable batch. *)
Lemma test_batch_counts (m : loc) (args : Args) (acc : number) (num : option Z)
    (b b' : Batch) (w : World) acc' num' :
  batch_to (device args) b = Ok b' -> aligned b' ->
  0 <= number_val acc ->
  number_val acc + index_size (edge_label_index b') < 2 ^ 63 ->
  outcome (test_batch m args (acc, num) b w) = Ok (acc', num') ->
  num' = Some (index_size (edge_label_index b')) /\
  number_val acc <= number_val acc' <= number_val acc + index_size (edge_label_index b').
Proof.
  intros Hto Hal Hacc Hmax. unfold test_batch. rewrite Hto, bind_lift_ok, bind_outcome.
  destruct (outcome (forward m b' w)) as [pred|e] eqn:Hf; [|discriminate].
  destruct (forward_tally m b' w pred acc 0 Hal Hf Hacc Hmax) as [a [Hrun Hbound]].
  cbn [fst]. rewrite Hrun, bind_lift_ok. cbn. intros H. injection H as <- <-.
  split; [reflexivity | exact Hbound].
Qed.

(** X16.  When every split is a single batch that reaches the device
    aligned, with at least one candidate edge and fewer than 2^63, every
    accuracy that [test] returns is a number from 0 to 1. *)
Theorem test_single_batch_ratio (m : loc) (dataloaders : dict (list Batch)) (args : Args)
    (w : World) (accs : dict float) :
  Forall (fun kv => exists b, snd kv = [b] /\ countable args b /\
                              batch_size args b < 2 ^ 63) dataloaders ->
  outcome (test m dataloaders args w) = Ok accs ->
  Forall (fun ka => ratio (snd ka)) accs.
Proof.
  intros Hall Hrun. unfold test in Hrun.
  rewrite bind_outcome in Hrun. cbn [emit outcome final fst snd] in Hrun.
  rewrite bind_outcome in Hrun.
  destruct (outcome (set_training m false w)); [|discriminate].
  rewrite bind_outcome in Hrun.
  match type of Hrun with
  | match outcome (foldM ?f ?xs ?s ?w1) with _ => _ end = _ =>
      destruct (outcome (foldM f xs s w1)) as [[accs' num]|e] eqn:Hloop; [|discriminate];
      revert Hloop; generalize w1
  end.
  cbn in Hrun. injection Hrun as <-.
  assert (Hstart : Forall (fun ka : string * float => ratio (snd ka)) []) by constructor.
  revert Hstart. generalize (@None Z). generalize (@nil (string * float)).
  clear w. induction Hall as [|[mode dl] rest (b & Hdl & (b' & Hto & Hal & Hpos) & Hmax) _ IH];
    intros acc0 num0 Hacc0 w Hloop; cbn [foldM] in Hloop.
  - cbn in Hloop. now injection Hloop as <- _.
  - rewrite bind_outcome in Hloop.
    destruct (outcome (test_split m args (acc0, num0) (mode, dl) w)) as [[a1 n1]|e] eqn:Hsplit;
      [|discriminate].
    apply (IH a1 n1) in Hloop; [exact Hloop|]. clear IH Hloop.
    cbn [snd] in Hdl. subst dl. unfold test_split in Hsplit. cbn [foldM] in Hsplit.
    rewrite !bind_outcome in Hsplit.
    destruct (outcome (test_batch m args (PyInt 0, num0) b w)) as [[acc' num']|e] eqn:Hb;
      [|discriminate].
    unfold batch_size in Hmax. rewrite Hto in Hmax.
    destruct (test_batch_counts m args (PyInt 0) num0 b b' w acc' num' Hto Hal) as [-> Hbound];
      cbn [number_val]; try lia; [exact Hb|].
    cbn [number_val] in Hbound. cbn [ret outcome final fst snd] in Hsplit.
    rewrite bind_outcome in Hsplit.
    destruct (true_div_unit acc' (index_size (edge_label_index b'))) as [q [Hq Hunit]];
      try lia.
    cbn [lift outcome final fst snd] in Hsplit. rewrite Hq in Hsplit.
    cbn in Hsplit. injection Hsplit as <- _.
    apply dict_set_Forall; try exact Hacc0; intros; now exists q.
Qed.

End Ratios.

(** X16 on the three splits of the small instance, one batch each. *)
Lemma test_single_batch_ratio_witness :
  exists accs,
    outcome (test 0%nat Toy.loaders (Toy.args 4) Toy.world) = Ok accs /\
    Forall (fun ka => ratio (snd ka)) accs.
Proof.
  eexists. split; [vm_compute; reflexivity|].
  apply (test_single_batch_ratio 0%nat Toy.loaders (Toy.args 4) Toy.world).
  - repeat constructor; eexists; (split; [reflexivity|]); (split; [|vm_compute; reflexivity]);
      eexists; (split; [reflexivity|]); (split; [|vm_compute; reflexivity]);
      (split; [cbn; repeat constructor; cbn; intuition discriminate|]);
      repeat constructor; cbn; eexists; (split; [reflexivity | reflexivity]).
  - vm_compute. reflexivity.
Defined.

(** Splits the run of a sequence as [run_bind] does, and keeps the run of
    its first part. *)
Ltac bind_keep H Hc :=
  let err := fresh "err" in
  let a := fresh "a" in
  let w1 := fresh "w" in
  let e1 := fresh "ea" in
  let e2 := fresh "eb" in
  let Hc' := fresh "Hc" in
  apply bind_inv in H;
  destruct H as [(err & Hc & ->) | (a & w1 & e1 & e2 & Hc & H & ->)];
  pose proof Hc as Hc';
  [ events_of Hc' | events_of Hc'; cbn [app] in * ].

Section TrainRatio.

Context {L : Library}.

Lemma train_ratio_call (m : loc) (splits : list string) : train_ratio (EvalCall m splits).
Proof. intros epoch l tr va te H. discriminate. Qed.

Lemma train_ratio_copy (c : loc) : train_ratio (Snapshot c).
Proof. intros epoch l tr va te H. discriminate. Qed.

(** One training step on a countable batch: the counts grow by the matches
    and the candidates of the batch, and the training accuracy of the log
    line is their ratio. *)
Lemma train_batch_ratio (m : loc) dataloaders (args : Args) (epoch : Z) (st : TrainState)
    (b : Batch) (w : World) :
  countable args b ->
  0 <= number_val (t_accu_sum st) <= t_accu_cnt st ->
  t_accu_cnt st + batch_size args b < 2 ^ 63 ->
  let x := train_batch m dataloaders args epoch st b w in
  Forall train_ratio (events x) /\
  forall st', outcome x = Ok st' ->
              t_accu_cnt st' = t_accu_cnt st + batch_size args b /\
              0 <= number_val (t_accu_sum st') <= t_accu_cnt st'.
Proof.
  intros (b' & Hto & Hal & Hpos) Hinv Hmax x. subst x.
  unfold batch_size in *. rewrite Hto in *.
  destruct (train_batch m dataloaders args epoch st b w) as [[r w'] evs] eqn:H.
  cbn [events outcome fst snd]. unfold train_batch in H. rewrite Hto, bind_lift_ok in H.
  bind_keep H Hc1; try solve [split; [repeat constructor | discriminate]].
  bind_keep H Hc2; try solve [split; [repeat constructor | discriminate]].
  bind_keep H Hc3; try solve [split; [repeat constructor | discriminate]].
  assert (Hf : outcome (forward m b' w1) = Ok a0) by now rewrite Hc3.
  destruct (forward_tally m b' w1 a0 (t_accu_sum st) (t_accu_cnt st) Hal Hf) as [sum [Htally Hsum]];
    try lia.
  rewrite Htally, bind_lift_ok in H.
  bind_keep H Hc4; try solve [split; [repeat constructor | discriminate]].
  bind_keep H Hc5; try solve [split; [repeat constructor | discriminate]].
  bind_keep H Hc6;
    try solve [split; [repeat constructor; apply train_ratio_call | discriminate]].
  destruct (true_div_unit sum (t_accu_cnt st + index_size (edge_label_index b')))
    as [q [Hq Hunit]]; try lia.
  rewrite Hq, bind_lift_ok, dict_get_set, bind_lift_ok in H.
  bind_keep H Hc7;
    try solve [split; [repeat constructor; apply train_ratio_call | discriminate]].
  bind_keep H Hc8;
    try solve [split; [repeat constructor; apply train_ratio_call | discriminate]].
  apply bind_inv in H.
  destruct H as [(err & Hc & ->) | (u & wl & el & ek & Hc & H & ->)]; [discriminate Hc|].
  injection Hc as _ <- <-.
  assert (Hlog : train_ratio (Print (LLog epoch (loss_item a1) (Fin q) a4 a5))).
  { intros ep l tr va te Heq. injection Heq as _ _ <- _ _. now exists q. }
  unfold keep_best in H. destruct (float_lt _ a4); cbn in H; injection H as <- <- <-.
  - split; [repeat constructor; auto using train_ratio_call, train_ratio_copy|].
    intros st' Hst'. injection Hst' as <-. cbn [t_accu_cnt t_accu_sum]. lia.
  - split; [repeat constructor; auto using train_ratio_call|].
    intros st' Hst'. injection Hst' as <-. cbn [t_accu_cnt t_accu_sum]. lia.
Qed.

Lemma epoch_size_nonneg (args : Args) (batches : list Batch) : 0 <= epoch_size args batches.
Proof.
  induction batches as [|b batches IH]; cbn [epoch_size fold_right]; [lia|].
  fold (epoch_size args batches). unfold batch_size.
  destruct (batch_to (device args) b) as [b'|e]; [|lia].
  pose proof (index_size_nonneg (edge_label_index b')). lia.
Qed.

Lemma train_batches_ratio (m : loc) dataloaders (args : Args) (epoch : Z)
    (batches : list Batch) :
  Forall (countable args) batches ->
  forall st w,
    0 <= number_val (t_accu_sum st) <= t_accu_cnt st ->
    t_accu_cnt st + epoch_size args batches < 2 ^ 63 ->
    Forall train_ratio (events (foldM (train_batch m dataloaders args epoch) batches st w)).
Proof.
  induction 1 as [|b batches Hb _ IH]; intros st w Hinv Hmax; cbn [foldM].
  - constructor.
  - cbn [epoch_size fold_right] in Hmax. fold (epoch_size args batches) in Hmax.
    pose proof (epoch_size_nonneg args batches) as Hrest.
    destruct (train_batch_ratio m dataloaders args epoch st b w Hb Hinv) as [Hev Hok];
      [lia|].
    rewrite bind_events. apply Forall_app. split; [exact Hev|].
    destruct (outcome (train_batch m dataloaders args epoch st b w)) as [st1|e];
      [|constructor].
    destruct (Hok st1 eq_refl) as [Hcnt Hsum]. apply IH; [exact Hsum | lia].
Qed.

(** X17.  When every training batch reaches the device aligned and with a
    candidate edge, and an epoch has fewer than 2^63 candidate edges, the
    training accuracy of every log line of [train] is a number from 0 to 1:
    its two counts both run over the batches of the epoch so far. *)
Theorem train_accuracy_ratio (m : loc) (dataloaders : dict (list Batch)) (opt : Optimizer)
    (args : Args) (batches : list Batch) :
  dict_get dataloaders "train" = Ok batches ->
  Forall (countable args) batches ->
  epoch_size args batches < 2 ^ 63 ->
  emits train_ratio (train m dataloaders opt args).
Proof.
  intros Hget Hall Hmax. unfold train.
  apply emits_bind.
  - apply emits_foldM. intros st epoch w. unfold train_epoch.
    rewrite Hget, bind_lift_ok. apply train_batches_ratio; cbn; try lia. exact Hall.
  - intros st. apply emits_bind; [|intros accs].
    + intros w. rewrite test_events. repeat constructor. apply train_ratio_call.
    + quiet. intros ep l tr va te Heq. discriminate.
Qed.

End TrainRatio.

(** X17 on the small instance: three epochs of one batch. *)
Lemma train_accuracy_ratio_witness :
  emits train_ratio (train 0%nat Toy.loaders O (Toy.args 4)).
Proof.
  apply (train_accuracy_ratio 0%nat Toy.loaders O (Toy.args 4)
           [Toy.mk_batch [1; 0] (fun _ => 1%nat)]).
  - reflexivity.
  - repeat constructor. eexists. split; [reflexivity|]. split; [|vm_compute; reflexivity].
    split; [cbn; repeat constructor; cbn; intuition discriminate|].
    repeat constructor. cbn. eexists. split; reflexivity.
  - vm_compute. reflexivity.
Defined.

(** ** The loss: which labels it needs *)

Lemma dict_get_ok_in_keys {V} (d : dict V) (k : string) (v : V) :
  dict_get d k = Ok v -> In k (keys d).
Proof.
  unfold keys. induction d as [|[k' w] d IH]; cbn [dict_get map fst In]; intros H.
  - discriminate.
  - destruct (String.eqb k' k) eqn:Hk.
    + left. now apply String.eqb_eq.
    + right. now apply IH.
Qed.

Section LossLabels.

Context {L : Library}.

Lemma loss_add_tensor (l : loss_value) (x : float) : exists t, loss_add l x = LossTensor t.
Proof. destruct l; cbn; now eexists. Qed.

Lemma fold_loss_add_tensor (xs : list float) :
  forall l, xs <> [] -> exists t, fold_left loss_add xs l = LossTensor t.
Proof.
  induction xs as [|x xs IH]; intros l Hne; [congruence|]. cbn [fold_left].
  destruct xs as [|x' xs]; [apply loss_add_tensor|]. apply IH. discriminate.
Qed.

Lemma loss_ok_shape (pred : dict (list float)) (y : dict (list Z)) (l : loss_value) :
  loss pred y = Ok l -> same_shape pred y.
Proof.
  intros Hl. apply Forall_forall. intros [k score] Hin. cbn [fst snd].
  unfold loss in Hl.
  destruct (fold_result_ok_each _ _ _ _ Hl (k, score) Hin) as [s1 [s2 Hstep]].
  cbn beta iota zeta in Hstep.
  destruct (dict_get y k) as [label|e]; cbn [rbind] in Hstep; [|discriminate].
  exists label. split; [reflexivity|].
  destruct (Nat.eqb (List.length label) (List.length (map sigmoid score))) eqn:Hlen;
    [|discriminate].
  apply Nat.eqb_eq in Hlen. now rewrite length_map in Hlen.
Qed.

(** X18.  [loss] returns exactly when every relation type of the
    prediction has labels of the size of its scores; labels of relation
    types that are not predicted are ignored.  The first relation type
    without labels raises a key error under its name, and the first one
    whose labels have another size than its scores raises a value error.
    What is returned for a prediction that has a relation type is a tensor,
    never the integer 0 that the sum starts from. *)
Theorem loss_needs_labels (pred : dict (list float)) (y : dict (list Z)) :
  ((exists l, loss pred y = Ok l) <-> same_shape pred y) /\
  (forall before k score rest,
     pred = before ++ (k, score) :: rest ->
     same_shape before y -> ~ In k (keys y) ->
     loss pred y = Raise (KeyError k)) /\
  (forall before k score label rest,
     pred = before ++ (k, score) :: rest ->
     same_shape before y -> dict_get y k = Ok label ->
     List.length label <> List.length score ->
     loss pred y = Raise ValueError) /\
  (forall l, loss pred y = Ok l -> pred <> [] -> exists t, l = LossTensor t).
Proof.
  split; [split|split; [|split]].
  - intros [l Hl]. exact (loss_ok_shape pred y l Hl).
  - intros Hshape. unfold loss. rewrite (loss_loop y pred Hshape). now eexists.
  - intros before k score rest -> Hshape Hmiss. unfold loss.
    rewrite fold_result_app, (loss_loop y before Hshape). cbn [rbind fold_result].
    now rewrite (dict_get_missing y k Hmiss).
  - intros before k score label rest -> Hshape Hlabel Hlen. unfold loss.
    rewrite fold_result_app, (loss_loop y before Hshape). cbn [rbind fold_result].
    rewrite Hlabel. cbn [rbind]. rewrite length_map.
    now replace (Nat.eqb (List.length label) (List.length score)) with false
      by (symmetry; now apply Nat.eqb_neq).
  - intros l Hl Hne. pose proof (loss_ok_shape pred y l Hl) as Hshape.
    unfold loss in Hl. rewrite (loss_loop y pred Hshape) in Hl. injection Hl as <-.
    apply fold_loss_add_tensor. destruct pred; [congruence | discriminate].
Qed.

End LossLabels.

(** ** What [main] needs of the graph *)

Lemma node_lookup_has_node {N E} (G : MultiDiGraph N E) (n : Z) (a : N) :
  node_lookup (nodes G) n = Some a -> has_node G n = true.
Proof.
  unfold has_node. induction (nodes G) as [|[m b] ns IH]; cbn [node_lookup existsb fst].
  - discriminate.
  - destruct (m =? n); [reflexivity | exact IH].
Qed.

Section Prerequisites.

Context {L : Library}.

(** X19.  [main] prints the attributes of the node 0 and of the edges from
    0 to 5871 of whatever graph it reads.  On a graph without the node 0 it
    raises a key error for 0 once the mode and the number of edges are
    printed; on a graph with the node 0 and no edge from 0 to 5871 it raises
    a key error for 5871 once the node is printed.  In both cases no model
    has been constructed and no object changed. *)
Theorem run_needs_node_and_edge (args : Args) (w : World) (G : RawGraph) :
  read_gpickle (data_path args) = Ok G ->
  (node_lookup (nodes G) 0 = None ->
   run args w = (Raise (KeyError "0"), w,
                 [Print (LMode (mode args)); Print (LNumEdges (len (edges G)))])) /\
  (forall a,
     node_lookup (nodes G) 0 = Some a ->
     filter (fun x => (fst (fst (fst x)) =? 0) && (snd (fst (fst x)) =? 5871)) (edges G) = [] ->
     run args w = (Raise (KeyError "5871"), w,
                   [Print (LMode (mode args)); Print (LNumEdges (len (edges G)));
                    Print (LRawNode a)])).
Proof.
  intros Hread. split.
  - intros Hnone. unfold run. rewrite bind_run. cbn [emit].
    rewrite Hread, bind_lift_ok, bind_run. cbn [emit]. rewrite Hnone.
    rewrite bind_lift_raise. reflexivity.
  - intros a Hsome Hedge. unfold run. rewrite bind_run. cbn [emit].
    rewrite Hread, bind_lift_ok, bind_run. cbn [emit]. rewrite Hsome.
    rewrite bind_lift_ok, bind_run. cbn [emit].
    unfold adjacency. rewrite (node_lookup_has_node G 0 a Hsome), Hedge.
    rewrite bind_lift_raise. reflexivity.
Qed.

End Prerequisites.

(** X19 on a graph without the node 0 and on a graph without an edge from 0
    to 5871. *)
Lemma run_needs_node_and_edge_witness :
  run (Toy.args 4) (Sample.world_of Sample.no_zero)
  = (Raise (KeyError "0"), Sample.world_of Sample.no_zero,
     [Print (LMode "disjoint"); Print (LNumEdges 1)]) /\
  run (Toy.args 4) (Sample.world_of Sample.no_edge)
  = (Raise (KeyError "5871"), Sample.world_of Sample.no_edge,
     [Print (LMode "disjoint"); Print (LNumEdges 1); Print (LRawNode {| n_id := 0 |})]).
Proof.
  split.
  - apply (run_needs_node_and_edge (L := Sample.reading Sample.no_zero) (Toy.args 4)
             (Sample.world_of Sample.no_zero) Sample.no_zero); reflexivity.
  - apply (run_needs_node_and_edge (L := Sample.reading Sample.no_edge) (Toy.args 4)
             (Sample.world_of Sample.no_edge) Sample.no_edge); reflexivity.
Defined.

(** ** The number of edge types *)

Lemma seen_label (labels : list scalar) (l : scalar) :
  existsb (fun l' => scalar_val l' =? scalar_val l) labels = true
  <-> In (scalar_val l) (map scalar_val labels).
Proof.
  rewrite existsb_exists, in_map_iff. split.
  - intros [l' [Hin Heq]]. apply Z.eqb_eq in Heq. now exists l'.
  - intros [l' [Heq Hin]]. exists l'. split; [exact Hin | now apply Z.eqb_eq].
Qed.

(** The loop of lines 210-214 collects every label value once. *)
Lemma label_loop (G : RawGraph) (es : list ((Z * Z * Z) * raw_edge)) :
  forall labels : list scalar,
    (forall e a, In (e, a) es -> edge_lookup (edges G) e = Some a) ->
    NoDup (map scalar_val labels) ->
    exists labels',
      fold_result (fun labels e =>
          match edge_lookup (edges G) e with
          | None => Raise (KeyError (str (snd e)))
          | Some a =>
              let l := e_label a in
              if existsb (fun l' => scalar_val l' =? scalar_val l) labels
              then Ok labels else Ok (labels ++ [l])
          end) (map fst es) labels = Ok labels' /\
      NoDup (map scalar_val labels') /\
      forall l, In l (map scalar_val labels') <->
                In l (map scalar_val labels) \/
                In l (map (fun x => scalar_val (e_label (snd x))) es).
Proof.
  induction es as [|[e a] es IH]; intros labels Hfind Hnd.
  - exists labels. cbn. split; [reflexivity|]. split; [exact Hnd | tauto].
  - cbn [map fst fold_result]. rewrite (Hfind e a (or_introl eq_refl)). cbv zeta.
    destruct (existsb _ labels) eqn:Hseen; cbn [rbind].
    + apply seen_label in Hseen.
      destruct (IH labels) as [labels' [Hrun [Hnd' Hin]]]; [|exact Hnd|].
      { intros e' a' H. apply Hfind. now right. }
      exists labels'. split; [exact Hrun|]. split; [exact Hnd'|].
      intros l. rewrite Hin. cbn [map snd In]. split; [tauto|].
      intros [H | [<- | H]]; tauto.
    + assert (Hnew : ~ In (scalar_val (e_label a)) (map scalar_val labels)).
      { intros H. apply seen_label in H. congruence. }
      destruct (IH (labels ++ [e_label a])) as [labels' [Hrun [Hnd' Hin]]].
      { intros e' a' H. apply Hfind. now right. }
      { rewrite map_app. cbn [map]. apply NoDup_app; [exact Hnd | repeat constructor; intros [] |].
        intros x Hx [<- | []]. now apply Hnew. }
      exists labels'. split; [exact Hrun|]. split; [exact Hnd'|].
      intros l. rewrite Hin, map_app, in_app_iff. cbn [map snd In]. tauto.
Qed.

Lemma Forall2_impl_left {A B} (P Q : A -> B -> Prop) (R : A -> Prop) (xs : list A)
    (ys : list B) :
  Forall R xs -> Forall2 P xs ys -> (forall x y, R x -> P x y -> Q x y) -> Forall2 Q xs ys.
Proof.
  intros HR HP Himp. induction HP as [|x y xs ys Hxy _ IH]; constructor.
  - apply Himp; [now inversion HR | exact Hxy].
  - apply IH. now inversion HR.
Qed.

Lemma NoDup_of_nat_seq (n : nat) : forall a, NoDup (map Z.of_nat (seq a n)).
Proof.
  induction n as [|n IHn]; intros a; cbn [seq map]; constructor; [|apply IHn].
  rewrite in_map_iff. intros [i [Heq Hi]]. apply in_seq in Hi. lia.
Qed.

(** [k] distinct integers that are exactly those from 0 to [k - 1]. *)
Lemma count_from_0 (labels : list Z) (k : Z) :
  0 <= k -> NoDup labels -> (forall l, In l labels <-> 0 <= l < k) -> len labels = k.
Proof.
  intros Hk Hnd Hin. unfold len.
  set (all := map Z.of_nat (seq 0 (Z.to_nat k))).
  assert (Hall : forall l, In l all <-> 0 <= l < k).
  { intros l. unfold all. rewrite in_map_iff. split.
    - intros [i [<- Hi]]. apply in_seq in Hi. lia.
    - intros Hl. exists (Z.to_nat l). split; [lia|]. apply in_seq. lia. }
  assert (Hnd2 : NoDup all).
  { unfold all. apply NoDup_of_nat_seq. }
  assert (Hlen : List.length all = Z.to_nat k) by (unfold all; now rewrite length_map, length_seq).
  assert (H1 : (List.length labels <= List.length all)%nat).
  { apply NoDup_incl_length; [exact Hnd|]. intros l Hl. apply Hall, Hin, Hl. }
  assert (H2 : (List.length all <= List.length labels)%nat).
  { apply NoDup_incl_length; [exact Hnd2|]. intros l Hl. apply Hin, Hall, Hl. }
  lia.
Qed.

(** X20.  On a graph whose edges are distinct, the number of edge types
    that [main] computes is the number of distinct values among the edge
    labels: it is the length of a list that holds every label value once. *)
Theorem count_labels_distinct (G : RawGraph) :
  NoDup (map fst (edges G)) ->
  exists values,
    count_labels G = Ok (len values) /\
    NoDup values /\
    forall l, In l values <-> In l (label_values G).
Proof.
  intros Hnd. unfold count_labels.
  destruct (label_loop G (edges G) []) as [labels [Hrun [Hnd' Hin]]].
  - intros e a H. now apply edge_lookup_In.
  - constructor.
  - exists (map scalar_val labels). cbv zeta in Hrun |- *. rewrite Hrun. cbn [rbind].
    split; [unfold len; now rewrite length_map|]. split; [exact Hnd'|].
    intros l. rewrite Hin. cbn [map In]. unfold label_values. tauto.
Qed.

(** X21.  When the edges are distinct and their labels are tensors whose
    values are exactly the integers from 0 to [k - 1], the number of edge
    types that [main] computes is [k], and [WN_transform] with that number
    returns a graph whose edges are those of the input, each with the
    one-hot feature of its label. *)
Theorem labels_from_0 (G : RawGraph) (k input_dim : Z) :
  NoDup (map fst (edges G)) ->
  0 <= input_dim ->
  0 <= k ->
  (forall l, In l (label_values G) <-> 0 <= l < k) ->
  (forall x, In x (edges G) -> exists l, e_label (snd x) = TensorInt l) ->
  count_labels G = Ok k /\
  exists H,
    WN_transform G k input_dim = Ok H /\
    Forall2 (fun eG eH =>
               end_points (fst eG) = end_points (fst eH) /\
               is_one_hot k (scalar_val (e_label (snd eG))) (edge_feature (snd eH)) /\
               edge_type (snd eH) = str (scalar_val (e_label (snd eG))))
            (edges G) (edges H).
Proof.
  intros Hnd Hdim Hk Hvals Htensor. split.
  - unfold count_labels.
    destruct (label_loop G (edges G) []) as [labels [Hrun [Hnd' Hin]]].
    + intros e a H. now apply edge_lookup_In.
    + constructor.
    + cbv zeta in Hrun |- *. rewrite Hrun. cbn [rbind]. f_equal.
      replace (len labels) with (len (map scalar_val labels))
        by (unfold len; now rewrite length_map).
      apply count_from_0; [exact Hk | exact Hnd'|].
      intros l. rewrite Hin, <- Hvals. cbn [map In]. unfold label_values. tauto.
  - unfold WN_transform.
    destruct (node_loop_runs input_dim (map fst (nodes G)) {| nodes := []; edges := [] |} Hdim)
      as [H0 HH0].
    assert (Hnone : edges H0 = []).
    { eapply (fold_result_inv (fun H : Graph => edges H = [])); [| |exact HH0]; [|reflexivity].
      intros s x s' Hs Hstep.
      destruct (torch_full (Fin 1) input_dim); cbn [rbind] in Hstep; [|discriminate].
      injection Hstep as <-. exact Hs. }
    rewrite HH0. cbn [rbind].
    assert (Hrange : forall x, In x (edges G) -> 0 <= scalar_val (e_label (snd x)) < k).
    { intros x Hx. apply Hvals. unfold label_values.
      apply (in_map (fun x => scalar_val (e_label (snd x)))) in Hx. exact Hx. }
    destruct (edge_loop_wraps G k (edges G) H0) as [H [new [Hfold [Hedges Hrel]]]].
    + intros e a Hin. split; [now apply edge_lookup_In|].
      destruct (Htensor _ Hin) as [l Hl]. cbn [snd] in Hl. exists l. split; [exact Hl|].
      specialize (Hrange _ Hin). cbn [snd] in Hrange. rewrite Hl in Hrange.
      cbn [scalar_val] in Hrange. lia.
    + exists H. split; [exact Hfold|]. rewrite Hedges, Hnone. cbn [app].
      apply (Forall2_impl_left _ _ (fun x => 0 <= scalar_val (e_label (snd x)) < k) _ _
               (proj2 (Forall_forall _ _) Hrange) Hrel).
      intros eG eH Hr (Hends & Hhot & Htype). split; [exact Hends|]. split; [|exact Htype].
      now rewrite Z.mod_small in Hhot by exact Hr.
Qed.

(** X20 on the small graph: three edges, two label values. *)
Lemma count_labels_distinct_witness :
  count_labels Toy.graph = Ok 2 /\
  exists values,
    count_labels Toy.graph = Ok (len values) /\
    NoDup values /\
    forall l, In l values <-> In l (label_values Toy.graph).
Proof.
  split; [reflexivity|].
  apply (count_labels_distinct Toy.graph).
  cbn. repeat constructor; cbn; intuition discriminate.
Defined.

(** X21 on the small graph, whose labels are 0 and 1. *)
Lemma labels_from_0_witness :
  count_labels Toy.graph = Ok 2 /\
  exists H,
    WN_transform Toy.graph 2 5 = Ok H /\
    Forall2 (fun eG eH =>
               end_points (fst eG) = end_points (fst eH) /\
               is_one_hot 2 (scalar_val (e_label (snd eG))) (edge_feature (snd eH)) /\
               edge_type (snd eH) = str (scalar_val (e_label (snd eG))))
            (edges Toy.graph) (edges H).
Proof.
  apply (labels_from_0 Toy.graph 2 5).
  - cbn. repeat constructor; cbn; intuition discriminate.
  - lia.
  - lia.
  - intros l. cbn. lia.
  - cbn. intros x [<- | [<- | [<- | []]]]; cbn; now eexists.
Defined.

(** ** The mode of the model *)

Section Mode.

Context {L : Library}.

Lemma respects_ret {A} (m : loc) (a : A) : respects m (ret a).
Proof. intros w1 w2 H. split; [reflexivity|]. split; [reflexivity | exact H]. Qed.

Lemma respects_lift {A} (m : loc) (r : result A) : respects m (lift r).
Proof. intros w1 w2 H. split; [reflexivity|]. split; [reflexivity | exact H]. Qed.

Lemma respects_emit (m : loc) (e : Event) : respects m (emit e).
Proof. intros w1 w2 H. split; [reflexivity|]. split; [reflexivity | exact H]. Qed.

Lemma respects_bind {A B} (m : loc) (c : M A) (k : A -> M B) :
  respects m c -> (forall a, respects m (k a)) -> respects m (bind c k).
Proof.
  intros Hc Hk w1 w2 Hw. destruct (Hc w1 w2 Hw) as (Ho & He & Hf).
  rewrite !bind_outcome, !bind_events, !bind_final, <- Ho, <- He.
  destruct (outcome (c w1)) as [a|e]; [|split; [reflexivity|]; split; [reflexivity | exact Hf]].
  destruct (Hk a _ _ Hf) as (Ho2 & He2 & Hf2). rewrite Ho2, He2.
  split; [reflexivity|]. split; [reflexivity | exact Hf2].
Qed.

Lemma respects_foldM {A S} (m : loc) (f : S -> A -> M S) (xs : list A) :
  (forall s x, respects m (f s x)) -> forall s, respects m (foldM f xs s).
Proof.
  intros Hf. induction xs as [|x xs IH]; intros s; cbn [foldM].
  - apply respects_ret.
  - apply respects_bind; [apply Hf | intros s'; apply IH].
Qed.

Lemma respects_deref (m : loc) : respects m (deref m).
Proof.
  intros w1 w2 (Hh & Hn & Hr). cbn. rewrite Hh. unfold same_at. auto.
Qed.

Lemma respects_assign (m : loc) (o : HeteroNet) : respects m (assign m o).
Proof.
  intros w1 w2 (Hh & Hn & Hr). unfold same_at. cbn. repeat split; auto.
  now rewrite !store_at_same.
Qed.

Lemma respects_set_training (m : loc) (flag : bool) : respects m (set_training m flag).
Proof.
  unfold set_training. apply respects_bind; [apply respects_deref | intros o].
  apply respects_assign.
Qed.

Lemma respects_deepcopy (m : loc) : respects m (deepcopy m).
Proof.
  intros w1 w2 (Hh & Hn & Hr). unfold same_at. cbn. rewrite Hh, Hn. repeat split; auto.
  unfold store_at. now destruct (Nat.eqb m (next w2)).
Qed.

Lemma respects_forward (m : loc) (data : Batch) : respects m (forward m data).
Proof.
  intros w1 w2 (Hh & Hn & Hr). rewrite !forward_run, Hh, Hr.
  destruct (convolve _ _ _ _ data (rng w2)) as [r g]. unfold same_at. cbn. auto.
Qed.

Lemma respects_step (m : loc) opt l batch g : respects m (step m opt l batch g).
Proof.
  unfold step. destruct l; [apply respects_lift|].
  apply respects_bind; [apply respects_deref | intros self].
  destruct (backward_step _ _ _ _ _ _) as [[c1 c2] opt'].
  apply respects_bind; [apply respects_assign | intros _; apply respects_ret].
Qed.

Lemma respects_keep_best (m : loc) (st : TrainState) (va : float) :
  respects m (keep_best m st va).
Proof.
  unfold keep_best. destruct (float_lt (val_max st) va); [|apply respects_ret].
  apply respects_bind; [apply respects_deepcopy | intros c; apply respects_ret].
Qed.

End Mode.

(** Discharges the conditions on what a sequence depends on. *)
Ltac respectful :=
  repeat match goal with
    | |- respects _ (bind _ _) => apply respects_bind; [|intros ?]
    | |- respects _ (foldM _ _ _) => apply respects_foldM; intros ? ?
    | |- respects _ (set_training _ _) => apply respects_set_training
    | |- respects _ (step _ _ _ _ _) => apply respects_step
    | |- respects _ (keep_best _ _ _) => apply respects_keep_best
    | |- respects _ (forward _ _) => apply respects_forward
    | |- respects _ (lift _) => apply respects_lift
    | |- respects _ (ret _) => apply respects_ret
    | |- respects _ (emit _) => apply respects_emit
    | |- respects _ (match ?x with _ => _ end) => destruct x
    | |- respects _ (fun w => (Ok (rng w), w, [])) =>
        let H := fresh in
        intros ? ? H; unfold same_at in *; cbn; destruct H as (? & ? & ->); auto
    end.

Section ModeIsSet.

Context {L : Library}.

Lemma respects_test (m : loc) dataloaders (args : Args) : respects m (test m dataloaders args).
Proof. unfold test, test_split, test_batch. respectful. Qed.

Lemma respects_train_batch (m : loc) dataloaders (args : Args) (epoch : Z) st batch :
  respects m (train_batch m dataloaders args epoch st batch).
Proof. unfold train_batch. respectful. apply respects_test. Qed.

Lemma set_training_same (m : loc) (flag : bool) (w1 w2 : World) :
  same_but_mode m w1 w2 ->
  same_at m (final (set_training m flag w1)) (final (set_training m flag w2)).
Proof.
  intros (Hh & Hn & Hr). unfold same_at. cbn. repeat split; auto. rewrite !store_at_same.
  unfold in_mode in Hh. injection Hh as -> -> -> ->. reflexivity.
Qed.

Lemma bind_emit {A} (e : Event) (k : unit -> M A) (w : World) :
  bind (emit e) k w = (let '(r, w', evs) := k tt w in (r, w', e :: evs)).
Proof. unfold bind, emit. now destruct (k tt w) as [[r w'] evs]. Qed.

(** What follows the switch of the mode does not depend on the mode
    before. *)
Lemma respects_after_set {A} (m : loc) (flag : bool) (c : M A) (w1 w2 : World) :
  respects m c -> same_but_mode m w1 w2 ->
  outcome (bind (set_training m flag) (fun _ => c) w1)
  = outcome (bind (set_training m flag) (fun _ => c) w2) /\
  events (bind (set_training m flag) (fun _ => c) w1)
  = events (bind (set_training m flag) (fun _ => c) w2).
Proof.
  intros Hc Hw. rewrite !bind_outcome, !bind_events.
  change (outcome (set_training m flag w1)) with (@Ok unit tt).
  change (outcome (set_training m flag w2)) with (@Ok unit tt).
  change (events (set_training m flag w1)) with (@nil Event).
  change (events (set_training m flag w2)) with (@nil Event).
  cbv iota beta.
  destruct (Hc _ _ (set_training_same m flag w1 w2 Hw)) as (Ho & He & _).
  now rewrite Ho, He.
Qed.

(** X22.  What an evaluation and what a training step return and print
    does not depend on the mode the model was left in: [test] switches the
    model to evaluation mode before its first forward pass, and every
    training step switches it back to training mode before its own, although
    the evaluation of the step before has left it in evaluation mode. *)
Theorem mode_is_set (m : loc) (dataloaders : dict (list Batch)) (args : Args) (epoch : Z)
    (st : TrainState) (batch : Batch) (w1 w2 : World) :
  same_but_mode m w1 w2 ->
  (outcome (test m dataloaders args w1) = outcome (test m dataloaders args w2) /\
   events (test m dataloaders args w1) = events (test m dataloaders args w2)) /\
  (outcome (train_batch m dataloaders args epoch st batch w1)
   = outcome (train_batch m dataloaders args epoch st batch w2) /\
   events (train_batch m dataloaders args epoch st batch w1)
   = events (train_batch m dataloaders args epoch st batch w2)).
Proof.
  intros Hw. split.
  - unfold test. rewrite !(bind_emit (EvalCall m (keys dataloaders))).
    match goal with
    | |- context [bind (set_training m false) ?k w1] =>
        destruct (respects_after_set m false (k tt) w1 w2) as [Ho He]; [|exact Hw|]
    end.
    { unfold test_split, test_batch. respectful. }
    cbv beta in Ho, He.
    match goal with
    | |- context [bind (set_training m false) ?k w1] =>
        change (bind (set_training m false) k) with (bind (set_training m false) (fun _ => k tt))
    end.
    cbv beta.
    destruct (bind (set_training m false) _ w1) as [[r1 u1] e1].
    destruct (bind (set_training m false) _ w2) as [[r2 u2] e2].
    cbn [outcome events fst snd] in *. split; congruence.
  - unfold train_batch. destruct (batch_to (device args) batch) as [b'|e]; [|now split].
    rewrite !bind_lift_ok.
    match goal with
    | |- context [bind (set_training m true) ?k w1] =>
        destruct (respects_after_set m true (k tt) w1 w2) as [Ho He]; [|exact Hw|]
    end.
    { respectful. apply respects_test. }
    cbv beta in Ho, He. split; [exact Ho | exact He].
Qed.

End ModeIsSet.

(** X22 on the small instance: the model in training mode and in
    evaluation mode. *)
Lemma mode_is_set_witness :
  let w2 := {| heap := fun _ => in_mode false Toy.net; next := 1%nat; rng := O |} in
  (outcome (test 0%nat Toy.loaders (Toy.args 4) Toy.world)
   = outcome (test 0%nat Toy.loaders (Toy.args 4) w2) /\
   events (test 0%nat Toy.loaders (Toy.args 4) Toy.world)
   = events (test 0%nat Toy.loaders (Toy.args 4) w2)) /\
  (outcome (train_batch 0%nat Toy.loaders (Toy.args 4) 1 Sample.start Toy.val_batch Toy.world)
   = outcome (train_batch 0%nat Toy.loaders (Toy.args 4) 1 Sample.start Toy.val_batch w2) /\
   events (train_batch 0%nat Toy.loaders (Toy.args 4) 1 Sample.start Toy.val_batch Toy.world)
   = events (train_batch 0%nat Toy.loaders (Toy.args 4) 1 Sample.start Toy.val_batch w2)).
Proof.
  intros w2.
  apply (mode_is_set 0%nat Toy.loaders (Toy.args 4) 1 Sample.start Toy.val_batch Toy.world w2).
  repeat split.
Defined.

(** ** The splits that [main] evaluates *)

Section Splits.

Context {L : Library}.

Lemma train_known_splits (m : loc) (train_loader val_loader test_loader : list Batch)
    (opt : Optimizer) (args : Args) :
  emits known_splits
    (train m [("train", train_loader); ("val", val_loader); ("test", test_loader)] opt args).
Proof.
  unfold train, train_epoch, train_batch, keep_best, step, deepcopy.
  quiet; try (intros ? ? Heq; discriminate Heq);
    apply emits_test; intros ? ? Heq; injection Heq as _ <-; cbn; auto.
Qed.

(** X23.  Every evaluation of a run of [main] is on the validation and
    test splits, or on all three splits: the accuracy on the training split
    is never computed by [test] during training, only from the counts of the
    training loop. *)
Theorem main_known_splits (argv : list cli_option) : emits known_splits (main argv).
Proof.
  unfold main, run, HeteroNet_init.
  quiet; try (intros ? ? Heq; discriminate Heq).
  apply train_known_splits.
Qed.

End Splits.

(** ** What [test] divides by *)

Section Denominator.

Context {L : Library}.

Lemma epoch_size_app (args : Args) (xs ys : list Batch) :
  epoch_size args (xs ++ ys) = epoch_size args xs + epoch_size args ys.
Proof.
  induction xs as [|x xs IH]; [reflexivity|].
  rewrite <- app_comm_cons. cbn [epoch_size fold_right].
  fold (epoch_size args (xs ++ ys)). fold (epoch_size args xs). rewrite IH. lia.
Qed.

(** The matches of the batches of a split add up in [acc]. *)
Lemma test_batches_count (m : loc) (args : Args) (batches : list Batch) :
  Forall (countable args) batches ->
  forall acc num w acc' num',
    0 <= number_val acc ->
    number_val acc + epoch_size args batches < 2 ^ 63 ->
    outcome (foldM (test_batch m args) batches (acc, num) w) = Ok (acc', num') ->
    number_val acc <= number_val acc' <= number_val acc + epoch_size args batches.
Proof.
  induction 1 as [|b batches (b' & Hto & Hal & Hpos) _ IH];
    intros acc num w acc' num' Hacc Hmax Hrun; cbn [foldM] in Hrun.
  - cbn in Hrun. injection Hrun as <- _. cbn. lia.
  - cbn [epoch_size fold_right] in Hmax |- *. fold (epoch_size args batches) in Hmax |- *.
    pose proof (epoch_size_nonneg args batches) as Hrest.
    unfold batch_size in Hmax |- *. rewrite Hto in Hmax |- *.
    rewrite bind_outcome in Hrun.
    destruct (outcome (test_batch m args (acc, num) b w)) as [[acc1 num1]|e] eqn:Hb;
      [|discriminate].
    destruct (test_batch_counts m args acc num b b' w acc1 num1 Hto Hal Hacc) as [_ Hbound];
      [lia | exact Hb |].
    apply IH in Hrun; lia.
Qed.

(** X24.  On a split of batches that reach the device aligned and with a
    candidate edge, fewer than 2^63 in all, the accuracy that [test] records
    is a count that runs over all the batches of the split, at most their
    candidates, divided by the candidates of the last batch alone. *)
Theorem test_divides_by_last_batch (m : loc) (args : Args) (accs : dict float)
    (num : option Z) (mode : string) (batches : list Batch) (last : Batch) (w : World)
    (accs' : dict float) (num' : option Z) :
  Forall (countable args) (batches ++ [last]) ->
  epoch_size args (batches ++ [last]) < 2 ^ 63 ->
  outcome (test_split m args (accs, num) (mode, batches ++ [last]) w) = Ok (accs', num') ->
  exists hits,
    0 <= hits <= epoch_size args (batches ++ [last]) /\
    num' = Some (batch_size args last) /\
    accs' = dict_set accs mode (Fin (inject_Z hits / inject_Z (batch_size args last))).
Proof.
  intros Hall Hmax Hrun. apply Forall_app in Hall. destruct Hall as [Hinit Hlast].
  inversion Hlast as [|? ? (b' & Hto & Hal & Hpos) _]; subst.
  rewrite epoch_size_app in Hmax |- *. cbn [epoch_size fold_right] in Hmax |- *.
  unfold batch_size in Hmax |- *. rewrite Hto in Hmax |- *.
  pose proof (epoch_size_nonneg args batches) as Hrest.
  unfold test_split in Hrun. rewrite bind_outcome, foldM_app, bind_outcome in Hrun.
  destruct (outcome (foldM (test_batch m args) batches (PyInt 0, num) w))
    as [[acc1 num1]|e] eqn:Hfirst; [|discriminate].
  apply test_batches_count in Hfirst; cbn [number_val] in *; try lia; [|exact Hinit].
  cbn [foldM] in Hrun. rewrite bind_outcome in Hrun.
  match type of Hrun with
  | context [outcome (test_batch m args (acc1, num1) last ?w1)] =>
      destruct (outcome (test_batch m args (acc1, num1) last w1)) as [[acc2 num2]|e] eqn:Hb;
      [|discriminate];
      destruct (test_batch_counts m args acc1 num1 last b' w1 acc2 num2 Hto Hal)
        as [-> Hbound]; [lia | lia | exact Hb |]
  end.
  cbn [ret outcome final fst snd] in Hrun. rewrite bind_outcome in Hrun.
  cbn [lift outcome final fst snd] in Hrun.
  assert (Hdiv : true_div acc2 (index_size (edge_label_index b'))
                 = Ok (Fin (inject_Z (number_val acc2)
                            / inject_Z (index_size (edge_label_index b'))))).
  { unfold true_div.
    destruct acc2 as [a|a]; cbn [number_val];
      replace (index_size (edge_label_index b') =? 0) with false
        by (symmetry; apply Z.eqb_neq; lia); reflexivity. }
  rewrite Hdiv in Hrun. cbn in Hrun. injection Hrun as <- <-.
  exists (number_val acc2). split; [lia|]. split; reflexivity.
Qed.

End Denominator.

(** X24 on the split of two batches, two candidates each, all predicted
    right: the accuracy 4 / 2 that [test] records is the matches of both
    batches over the two candidates of the last one. *)
Lemma test_divides_by_last_batch_witness :
  outcome (test_split 0%nat (Toy.args 4) ([], None)
             ("val", [Sample.all_right] ++ [Sample.all_right]) Toy.world)
  = Ok ([("val", Fin (4 # 2))], Some 2) /\
  exists hits,
    0 <= hits <= epoch_size (Toy.args 4) ([Sample.all_right] ++ [Sample.all_right]) /\
    Some 2 = Some (batch_size (Toy.args 4) Sample.all_right) /\
    [("val", Fin (4 # 2))]
    = dict_set [] "val"
        (Fin (inject_Z hits / inject_Z (batch_size (Toy.args 4) Sample.all_right))).
Proof.
  split; [vm_compute; reflexivity|].
  apply (test_divides_by_last_batch 0%nat (Toy.args 4) [] None "val"
           [Sample.all_right] Sample.all_right Toy.world [("val", Fin (4 # 2))] (Some 2)).
  - repeat constructor; (eexists; split; [reflexivity|]; split; [|vm_compute; reflexivity]);
      (split; [cbn; repeat constructor; cbn; intuition discriminate|]);
      repeat constructor; cbn; eexists; split; reflexivity.
  - vm_compute. reflexivity.
  - vm_compute. reflexivity.
Defined.
